(** * Binned distribution (gluonts/distribution/binned.py)

    A shallow embedding of the [Binned] distribution, of the projection
    block [BinnedArgs] and of [BinnedOutput], over a small model of the
    n-dimensional array operations the Python code calls.

    Numbers: array entries are real numbers ([R]); the rounding of
    floating-point arithmetic, infinities and NaN are outside the model,
    except that the square root of a negative entry is kept apart (see
    [nd_sqrt]).  Comparison masks are numeric 0/1 arrays, as in the array
    library, and [int32] entries are integers wrapped to 32 bits.

    Arrays: the array library is not part of the repository.  Its
    operations are modelled on arrays of any number of axes, with
    broadcasting that aligns shapes on the right and stretches axes of
    length 1, slices that hold at least one position, and a gather
    ([pick]) that clips its index.  An operation the library would refuse (an axis out of
    range, shapes that do not broadcast) returns [None].

    Objects: a [Binned] object is a record threaded through its methods by
    a state monad; the only field a method writes is the memo of
    [bin_probs]. *)

From Stdlib Require Import Reals List ZArith Lia Lra Bool.
Import ListNotations.

Open Scope R_scope.

(** ** Option monad for operations that raise on a shape mismatch *)

Definition obind {A B : Type} (o : option A) (f : A -> option B) : option B :=
  match o with
  | Some a => f a
  | None => None
  end.

Notation "x <- c1 ;; c2" := (obind c1 (fun x => c2))
  (at level 61, c1 at next level, right associativity).

(** ** Plain list helpers *)

Definition Rsum (l : list R) : R := fold_right Rplus 0 l.

Fixpoint zipWith {A B C : Type} (f : A -> B -> C) (l1 : list A) (l2 : list B)
  : list C :=
  match l1, l2 with
  | a :: r1, b :: r2 => f a b :: zipWith f r1 r2
  | _, _ => []
  end.

(** [chunks n k l]: the first [k] consecutive pieces of length [n] of [l]. *)
Fixpoint chunks {A : Type} (n k : nat) (l : list A) : list (list A) :=
  match k with
  | O => []
  | S k' => firstn n l :: chunks n k' (skipn n l)
  end.

(** [transpose n M]: the [n] columns of the row list [M]. *)
Fixpoint transpose {A : Type} (d : A) (n : nat) (M : list (list A))
  : list (list A) :=
  match n with
  | O => []
  | S n' => map (hd d) M :: transpose d n' (map (@tl A) M)
  end.

Definition Rleb (x y : R) : bool := if Rle_dec x y then true else false.
Definition Rltb (x y : R) : bool := if Rlt_dec x y then true else false.

(** Comparison results as the array library stores them: 1.0 or 0.0. *)
Definition mask_of (b : bool) : R := if b then 1 else 0.

(** 32-bit signed wrap-around. *)
Definition wrap32 (z : Z) : Z := ((z + 2 ^ 31) mod 2 ^ 32 - 2 ^ 31)%Z.

(** Conversion of a real entry to [int32]: truncation toward zero. *)
Definition trunc32 (x : R) : Z :=
  wrap32 (if Rle_dec 0 x then Int_part x else (- Int_part (- x))%Z).

(** ** The array model

    An array is its shape and its entries in row-major order. *)
Module NDArray.

Record Tensor (A : Type) : Type := mkT { shape : list nat; data : list A }.
Arguments mkT {A} _ _.
Arguments shape {A} _.
Arguments data {A} _.

Definition size (s : list nat) : nat := fold_right Nat.mul 1%nat s.

Definition ndim {A} (t : Tensor A) : nat := length (shape t).

(** An array is well formed when it has as many entries as its shape says. *)
Definition wf {A} (t : Tensor A) : Prop := length (data t) = size (shape t).

Definition list_eqb (s1 s2 : list nat) : bool :=
  if list_eq_dec Nat.eq_dec s1 s2 then true else false.

(** Python-style axis: a negative axis counts from the end. *)
Definition norm_axis (rank : nat) (axis : Z) : option nat :=
  let a := (if axis <? 0 then axis + Z.of_nat rank else axis)%Z in
  if ((0 <=? a) && (a <? Z.of_nat rank))%Z then Some (Z.to_nat a) else None.

(** Position of a new axis: one more place than there are axes. *)
Definition norm_new_axis (rank : nat) (axis : Z) : option nat :=
  let a := (if axis <? 0 then axis + Z.of_nat rank + 1 else axis)%Z in
  if ((0 <=? a) && (a <=? Z.of_nat rank))%Z then Some (Z.to_nat a) else None.

(** The entries seen along axis [ax]: one block per position before the
    axis, each block the list of the [nth ax s] pieces (one per position
    on the axis) of [size (skipn (S ax) s)] entries. *)
Definition axis_blocks {A} (s : list nat) (ax : nat) (d : list A)
  : list (list (list A)) :=
  let outer := size (firstn ax s) in
  let len := nth ax s O in
  let inner := size (skipn (S ax) s) in
  map (chunks inner len) (chunks (len * inner) outer d).

Definition unblocks {A} (b : list (list (list A))) : list A :=
  concat (map (@concat A) b).

Definition set_dim (s : list nat) (ax n : nat) : list nat :=
  firstn ax s ++ n :: skipn (S ax) s.

Definition del_dim (s : list nat) (ax : nat) : list nat :=
  firstn ax s ++ skipn (S ax) s.

Definition ins_dim (s : list nat) (ax n : nat) : list nat :=
  firstn ax s ++ n :: skipn ax s.

(** *** Elementwise operations *)

Definition tmap {A B} (f : A -> B) (t : Tensor A) : Tensor B :=
  mkT (shape t) (map f (data t)).

Definition zeros_like (t : Tensor R) : Tensor R := tmap (fun _ => 0) t.
Definition ones_like (t : Tensor R) : Tensor R := tmap (fun _ => 1) t.
Definition exp (t : Tensor R) : Tensor R := tmap Rtrigo_def.exp t.
Definition square (t : Tensor R) : Tensor R := tmap (fun x => x * x) t.
Definition astype_int32 (t : Tensor R) : Tensor Z := tmap trunc32 t.
Definition astype_float32 (t : Tensor Z) : Tensor R := tmap IZR t.

(** Square root of an entry; [None] stands for the NaN of a negative
    argument. *)
Definition nd_sqrt (x : R) : option R :=
  if Rle_dec 0 x then Some (R_sqrt.sqrt x) else None.
Definition sqrt (t : Tensor R) : Tensor (option R) := tmap nd_sqrt t.

(** *** Shape changes that keep the entries *)

Definition expand_dims {A} (t : Tensor A) (axis : Z) : option (Tensor A) :=
  ax <- norm_new_axis (ndim t) axis ;;
  Some (mkT (ins_dim (shape t) ax 1) (data t)).

Definition squeeze {A} (t : Tensor A) (axis : Z) : option (Tensor A) :=
  ax <- norm_axis (ndim t) axis ;;
  if Nat.eqb (nth ax (shape t) O) 1
  then Some (mkT (del_dim (shape t) ax) (data t))
  else None.

Definition reshape_like {A B} (t : Tensor A) (u : Tensor B)
  : option (Tensor A) :=
  if Nat.eqb (size (shape t)) (size (shape u))
  then Some (mkT (shape u) (data t))
  else None.

(** *** Slicing, concatenation, reduction and gather along an axis *)

(** [slice_axis t axis begin end]: positions [begin] (included) to [end]
    (excluded, all of the axis when absent) of the axis; negative bounds
    count from the end of the axis.  The library refuses an empty slice
    ([begin < end] is required). *)
Definition slice_axis {A} (t : Tensor A) (axis : Z) (begin : Z)
  (end_ : option Z) : option (Tensor A) :=
  ax <- norm_axis (ndim t) axis ;;
  let len := Z.of_nat (nth ax (shape t) O) in
  let b := (if begin <? 0 then begin + len else begin)%Z in
  let e := match end_ with
           | None => len
           | Some e0 => (if e0 <? 0 then e0 + len else e0)%Z
           end in
  if ((0 <=? b) && (b <? e) && (e <=? len))%Z
  then
    let bn := Z.to_nat b in
    let n := Z.to_nat (e - b) in
    Some (mkT (set_dim (shape t) ax n)
              (unblocks (map (fun blk => firstn n (skipn bn blk))
                             (axis_blocks (shape t) ax (data t)))))
  else None.

(** [concat ts dim]: the arrays put one after the other along [dim]; they
    must agree on every other axis. *)
Definition concat {A} (ts : list (Tensor A)) (dim : Z)
  : option (Tensor A) :=
  match ts with
  | [] => None
  | t0 :: _ =>
    ax <- norm_axis (ndim t0) dim ;;
    if forallb (fun t => list_eqb (del_dim (shape t) ax)
                                  (del_dim (shape t0) ax)
                         && Nat.eqb (ndim t) (ndim t0)) ts
    then
      let outer := size (firstn ax (shape t0)) in
      let total := fold_right Nat.add O
                     (map (fun t => nth ax (shape t) O) ts) in
      Some (mkT (set_dim (shape t0) ax total)
                (unblocks
                   (fold_right (zipWith (@app (list A)))
                      (repeat [] outer)
                      (map (fun t => axis_blocks (shape t) ax (data t)) ts))))
    else None
  end.

(** [sum t axis]: the entries added up along the axis, which disappears. *)
Definition sum (t : Tensor R) (axis : Z) : option (Tensor R) :=
  ax <- norm_axis (ndim t) axis ;;
  let inner := size (skipn (S ax) (shape t)) in
  Some (mkT (del_dim (shape t) ax)
            (List.concat
               (map (fun blk => fold_right (zipWith Rplus) (repeat 0 inner) blk)
                    (axis_blocks (shape t) ax (data t))))).

(** [pick t index axis]: for every position off the axis, the entry of [t]
    whose position on the axis is given by [index]; an index outside the
    axis is clipped to it (the library's default mode). *)
Definition clip_index (len : nat) (i : Z) : nat :=
  Nat.min (Z.to_nat i) (len - 1).

Definition pick (t : Tensor R) (index : Tensor Z) (axis : Z)
  : option (Tensor R) :=
  ax <- norm_axis (ndim t) axis ;;
  if list_eqb (shape index) (del_dim (shape t) ax)
  then
    let outer := size (firstn ax (shape t)) in
    let len := nth ax (shape t) O in
    let inner := size (skipn (S ax) (shape t)) in
    Some (mkT (del_dim (shape t) ax)
              (List.concat
                 (zipWith
                    (fun blk ixs =>
                       zipWith (fun k i => nth k (nth (clip_index len i) blk [])
                                               0)
                               (seq 0 inner) ixs)
                    (axis_blocks (shape t) ax (data t))
                    (chunks inner outer (data index)))))
  else None.

(** [swapaxes t 0 1]: the first two axes exchanged (the only use made of
    it here), on an array of two axes or more. *)
Definition swapaxes_0_1 {A} (t : Tensor A) : option (Tensor A) :=
  match shape t with
  | d0 :: d1 :: rest =>
    Some (mkT (d1 :: d0 :: rest)
              (unblocks (transpose [] d1 (axis_blocks (d0 :: d1 :: rest) 1
                                                      (data t)))))
  | _ => None
  end.

(** [repeat_axis0 t k]: every piece along the first axis repeated [k]
    times in place ([F.repeat(t, repeats=k, axis=0)]); the library gives
    no result for [k = 0]. *)
Definition repeat_axis0 {A} (t : Tensor A) (k : nat) : option (Tensor A) :=
  match shape t with
  | d0 :: rest =>
    if Nat.eqb k 0 then None
    else
      Some (mkT (d0 * k :: rest)%nat
                (List.concat (List.concat
                   (map (fun c => repeat c k)
                        (chunks (size rest) d0 (data t))))))
  | [] => None
  end.

(** *** Broadcasting binary operations *)

Definition pad_shape (r : nat) (s : list nat) : list nat :=
  repeat 1%nat (r - length s) ++ s.

Fixpoint bshape (s1 s2 : list nat) : option (list nat) :=
  match s1, s2 with
  | [], [] => Some []
  | a :: r1, b :: r2 =>
    rest <- bshape r1 r2 ;;
    if Nat.eqb a b then Some (a :: rest)
    else if Nat.eqb a 1 then Some (b :: rest)
    else if Nat.eqb b 1 then Some (a :: rest)
    else None
  | _, _ => None
  end.

(** Entries of an array of shape [s] replicated to the shape [out]. *)
Fixpoint bcast_data {A} (s out : list nat) (d : list A) : list A :=
  match s, out with
  | d0 :: s', m :: out' =>
    let blks := map (bcast_data s' out') (chunks (size s') d0 d) in
    List.concat (if Nat.eqb d0 m then blks
                 else List.concat (repeat blks m))
  | _, _ => d
  end.

Definition broadcast {A B C} (f : A -> B -> C) (t1 : Tensor A)
  (t2 : Tensor B) : option (Tensor C) :=
  let r := Nat.max (ndim t1) (ndim t2) in
  let s1 := pad_shape r (shape t1) in
  let s2 := pad_shape r (shape t2) in
  out <- bshape s1 s2 ;;
  Some (mkT out (zipWith f (bcast_data s1 out (data t1))
                           (bcast_data s2 out (data t2)))).

Definition broadcast_add := broadcast Rplus.
Definition broadcast_sub := broadcast Rminus.
Definition broadcast_mul := broadcast Rmult.
Definition broadcast_lesser_equal :=
  broadcast (fun x y => mask_of (Rleb x y)).
Definition broadcast_lesser :=
  broadcast (fun x y => mask_of (Rltb x y)).
Definition broadcast_greater :=
  broadcast (fun x y => mask_of (Rltb y x)).

(** [where cond x y]: entrywise [x] where the condition is not zero, [y]
    elsewhere; the three arrays have one shape. *)
Definition where_ {A} (cond : Tensor R) (x y : Tensor A)
  : option (Tensor A) :=
  if list_eqb (shape cond) (shape x) && list_eqb (shape x) (shape y)
  then Some (mkT (shape x)
                 (zipWith (fun c xy => if Req_dec_T c 0 then snd xy
                                       else fst xy)
                          (data cond) (combine (data x) (data y))))
  else None.

(** [foreach body t init]: [body] run on the pieces of [t] along its first
    axis, in order, threading the state; the final state. *)
Definition foreach {A S} (body : Tensor A -> S -> option S) (t : Tensor A)
  (init : S) : option S :=
  match shape t with
  | d0 :: rest =>
    fold_left (fun st piece => s <- st ;; body (mkT rest piece) s)
              (chunks (size rest) d0 (data t)) (Some init)
  | [] => None
  end.

End NDArray.

Import NDArray.

(** ** The [Binned] distribution object

    [_bin_probs] is the memo field of the [bin_probs] property.
    [exp_calls] is a ghost counter, not a field of the Python object: it
    counts the evaluations of [bin_log_probs.exp()]. *)
Record Binned : Type := mkBinned {
  bin_centers : Tensor R;
  bin_log_probs : Tensor R;
  _bin_probs : option (Tensor R);
  bin_edges : Tensor R;
  exp_calls : nat
}.

(** Methods read and write the object and may raise: a state monad over
    [Binned] whose result is [None] when the array library raises. *)
Definition M (A : Type) : Type := Binned -> option A * Binned.

Definition mret {A} (a : A) : M A := fun self => (Some a, self).

Definition mbind {A B} (m : M A) (f : A -> M B) : M B :=
  fun self =>
    match m self with
    | (Some a, self') => f a self'
    | (None, self') => (None, self')
    end.

Definition lift {A} (o : option A) : M A := fun self => (o, self).

Definition attr {A} (field : Binned -> A) : M A :=
  fun self => (Some (field self), self).

Notation "x <~ c1 ;; c2" := (mbind c1 (fun x => c2))
  (at level 61, c1 at next level, right associativity).

(** [Binned._compute_edges] (lines 59-91). *)
Definition _compute_edges (bin_centers : Tensor R) : option (Tensor R) :=
  s0 <- slice_axis bin_centers (-1) 0 (Some 1%Z) ;;
  let low := tmap (fun z => z - 1.0e10) (zeros_like s0) in
  s1 <- slice_axis bin_centers (-1) 0 (Some 1%Z) ;;
  let high := tmap (fun z => z + 1.0e10) (zeros_like s1) in
  upper <- slice_axis bin_centers (-1) 1 None ;;
  lower <- slice_axis bin_centers (-1) 0 (Some (-1)%Z) ;;
  added <- broadcast_add upper lower ;;
  let means := tmap (fun z => z / 2.0) added in
  concat [low; means; high] (-1).

(** [Binned.__init__] (lines 48-57); the validation decorator and the
    choice of the array namespace [F] are outside the model. *)
Definition __init__ (bin_log_probs bin_centers : Tensor R) : option Binned :=
  edges <- _compute_edges bin_centers ;;
  Some {| bin_centers := bin_centers;
          bin_log_probs := bin_log_probs;
          _bin_probs := None;
          bin_edges := edges;
          exp_calls := 0 |}.

(** The property [Binned.bin_probs] (lines 93-97). *)
Definition bin_probs : M (Tensor R) :=
  fun self =>
    match _bin_probs self with
    | None =>
      let p := exp (bin_log_probs self) in
      (Some p, {| bin_centers := bin_centers self;
                  bin_log_probs := bin_log_probs self;
                  _bin_probs := Some p;
                  bin_edges := bin_edges self;
                  exp_calls := S (exp_calls self) |})
    | Some p => (Some p, self)
    end.

(** The property [Binned.batch_shape] (lines 99-101). *)
Definition batch_shape (self : Binned) : list nat :=
  removelast (shape (bin_log_probs self)).

(** The property [Binned.mean] (lines 111-113). *)
Definition mean : M (Tensor R) :=
  p <~ bin_probs ;;
  c <~ attr bin_centers ;;
  lift (pc <- broadcast_mul p c ;; sum pc (-1)).

(** The property [Binned.stddev] (lines 115-118). *)
Definition stddev : M (Tensor (option R)) :=
  p <~ bin_probs ;;
  c <~ attr bin_centers ;;
  ex2 <~ lift (pc <- broadcast_mul p (square c) ;; sum pc (-1)) ;;
  mu <~ mean ;;
  lift (d <- broadcast_sub ex2 (square mu) ;; Some (sqrt d)).

(** [Binned.log_prob] (lines 120-129). *)
Definition log_prob (x : Tensor R) : M (Tensor R) :=
  edges <~ attr bin_edges ;;
  lp <~ attr bin_log_probs ;;
  lift (x <- expand_dims x (-1) ;;
        left_edges <- slice_axis edges (-1) 0 (Some (-1)%Z) ;;
        right_edges <- slice_axis edges (-1) 1 None ;;
        m1 <- broadcast_lesser_equal left_edges x ;;
        m2 <- broadcast_lesser x right_edges ;;
        mask <- broadcast_mul m1 m2 ;;
        lm <- broadcast_mul lp mask ;;
        sum lm (-1)).

(** [Binned.cdf] (lines 131-136). *)
Definition cdf (x : Tensor R) : M (Tensor R) :=
  x <~ lift (expand_dims x (-1)) ;;
  c <~ attr bin_centers ;;
  mask <~ lift (broadcast_lesser_equal c x) ;;
  p <~ bin_probs ;;
  lift (pm <- broadcast_mul p mask ;; sum pm (-1)).

(** The body [step] of the scan of [quantile] (lines 154-158); of its
    result only the new state matters, the per-step output is dropped by
    the caller. *)
Definition step (level : Tensor R) (p : Tensor R)
  (state : Tensor R * Tensor Z) : option (Tensor R * Tensor Z) :=
  let (cdf, idx) := state in
  p1 <- expand_dims p 1 ;;
  cdf <- broadcast_add cdf p1 ;;
  gt <- broadcast_greater cdf level ;;
  idx <- where_ gt idx (tmap (fun i => wrap32 (i + 1)) idx) ;;
  Some (cdf, idx).

(** [Binned.quantile] up to the end of the scan (lines 139-161):
    [zeros_cdf] and the final states [(cdf, idx)]. *)
Definition quantile_scan (bin_probs level : Tensor R)
  : option (Tensor R * (Tensor R * Tensor Z)) :=
  probs <- swapaxes_0_1 bin_probs ;;
  first <- slice_axis probs 0 0 (Some 1%Z) ;;
  first <- squeeze first 0 ;;
  let zeros_batch_size := zeros_like first in
  level <- expand_dims level 0 ;;
  zb <- expand_dims zeros_batch_size 1 ;;
  zeros_cdf <- broadcast_add zb (zeros_like level) ;;
  let start_state := (zeros_cdf, astype_int32 zeros_cdf) in
  states <- foreach (step level) probs start_state ;;
  Some (zeros_cdf, states).

(** [Binned.quantile] (lines 138-170). *)
Definition quantile (level : Tensor R) : M (Tensor R) :=
  p <~ bin_probs ;;
  c <~ attr bin_centers ;;
  lift (scan <- quantile_scan p level ;;
        let (zeros_cdf, states) := scan in
        let (_, idx) := states in
        c1 <- expand_dims c 1 ;;
        z1 <- expand_dims zeros_cdf (-1) ;;
        centers_expanded <- broadcast_add c1 z1 ;;
        a <- pick centers_expanded idx (-1) ;;
        swapaxes_0_1 a).

(** The categorical draw is not a function of the arrays: [draw] is the
    array of indices the random primitive returns on this call, accepted
    when it has the shape of the weights without their last axis. *)
Definition sample_multinomial (draw : Tensor Z) (probs : Tensor R)
  : option (Tensor Z) :=
  if list_eqb (shape draw) (removelast (shape probs)) then Some draw
  else None.

(** Modelled from the spec: [_sample_multiple] of the distribution base
    module, which is not in this file; it calls the sampling function on
    the weights as they are when [num_samples] is absent, and on the
    weights replicated [num_samples] times along a new leading axis
    otherwise. *)
Definition _sample_multiple {A} (s : Tensor R -> option A)
  (bin_probs : Tensor R) (num_samples : option nat) : option A :=
  match num_samples with
  | None => s bin_probs
  | Some k =>
    e <- expand_dims bin_probs 0 ;;
    r <- repeat_axis0 e k ;;
    s r
  end.

(** [Binned.sample] (lines 172-187). *)
Definition sample (draw : Tensor Z) (num_samples : option nat)
  : M (Tensor R) :=
  c <~ attr bin_centers ;;
  p <~ bin_probs ;;
  let s := fun bin_probs =>
    indices <- sample_multinomial draw bin_probs ;;
    match num_samples with
    | None =>
      picked <- pick c indices (-1) ;;
      reshape_like picked (zeros_like (astype_float32 indices))
    | Some k =>
      e <- expand_dims c 0 ;;
      r <- repeat_axis0 e k ;;
      pick r indices (-1)
    end in
  lift (_sample_multiple s p num_samples).

(** The property [Binned.args] (lines 189-191). *)
Definition args (self : Binned) : list (Tensor R) :=
  [bin_log_probs self; bin_centers self].

(** ** [BinnedOutput.distribution] (lines 240-256) *)
Definition distribution (args : Tensor R * Tensor R)
  (loc scale : option (Tensor R)) : option Binned :=
  let probs := fst args in
  let bin_centers := snd args in
  bin_centers <- broadcast_mul bin_centers (ones_like probs) ;;
  bin_centers <- match scale with
                 | Some scale =>
                   s <- expand_dims scale (-1) ;;
                   broadcast_mul bin_centers s
                 | None => Some bin_centers
                 end ;;
  bin_centers <- match loc with
                 | Some loc =>
                   l <- expand_dims loc (-1) ;;
                   broadcast_add bin_centers l
                 | None => Some bin_centers
                 end ;;
  __init__ probs bin_centers.

(** * Row-level functions, the spec's formulas and the examples *)

(** The array of shape [bs ++ [n]] whose rows along the last axis are
    [rows], in row-major order of the batch positions. *)
Definition of_rows {A} (bs : list nat) (n : nat) (rows : list (list A))
  : Tensor A :=
  mkT (bs ++ [n]) (List.concat rows).

(** The rows along the last axis of an array. *)
Definition rows_of {A} (t : Tensor A) : list (list A) :=
  chunks (last (shape t) O) (size (removelast (shape t))) (data t).

(** [rows] are as many rows as the batch shape [bs] has positions, each of
    [n] entries. *)
Definition Rows {A} (bs : list nat) (n : nat) (rows : list (list A)) : Prop :=
  length rows = size bs /\ Forall (fun r => length r = n) rows.

(** The edges of one row of centers, as [_compute_edges] builds them:
    the sentinel, the sums of the entries from the second on with the
    entries up to the last but one, halved, and the other sentinel. *)
Definition edges_row (c : list R) : list R :=
  map (fun z => z - 1.0e10) (map (fun _ => 0) (firstn 1 c))
  ++ map (fun z => z / 2.0)
         (zipWith Rplus (skipn 1 c) (firstn (length c - 1) c))
  ++ map (fun z => z + 1.0e10) (map (fun _ => 0) (firstn 1 c)).

(** The memo is empty or holds the exponential of the log-probabilities. *)
Definition cache_ok (self : Binned) : Prop :=
  _bin_probs self = None \/ _bin_probs self = Some (exp (bin_log_probs self)).

(** Two objects with the same constructor-set fields. *)
Definition same_fields (s1 s2 : Binned) : Prop :=
  bin_centers s1 = bin_centers s2 /\
  bin_log_probs s1 = bin_log_probs s2 /\
  bin_edges s1 = bin_edges s2.

(** The spec's words: the sum of the probabilities of the bins whose
    center is at most [x]. *)
Definition cdf_spec (probs centers : list R) (x : R) : R :=
  Rsum (map fst (filter (fun pc => Rleb (snd pc) x) (combine probs centers))).

(** What the code computes on one batch position: the probabilities times
    the 0/1 mask of the centers at most [x], added up. *)
Definition cdf_row (probs centers : list R) (x : R) : R :=
  Rsum (zipWith Rmult probs (map (fun c => mask_of (Rleb c x)) centers)).

Definition mean_row (probs centers : list R) : R :=
  Rsum (zipWith Rmult probs centers).

Definition ex2_row (probs centers : list R) : R :=
  Rsum (zipWith Rmult probs (map (fun x => x * x) centers)).

(** The radicand of the standard deviation of one batch position. *)
Definition radicand_row (probs centers : list R) : R :=
  ex2_row probs centers - mean_row probs centers * mean_row probs centers.

(** The spec's words: sums over the bin index. *)
Definition mean_spec (n : nat) (probs centers : list R) : R :=
  Rsum (map (fun i => nth i probs 0 * nth i centers 0) (seq 0 n)).

Definition radicand_spec (n : nat) (probs centers : list R) : R :=
  Rsum (map (fun i => nth i probs 0 * (nth i centers 0) ^ 2) (seq 0 n))
  - (mean_spec n probs centers) ^ 2.

(** The example of the spec: one distribution with centers [1, 2, 3] and
    probabilities [0.2, 0.3, 0.5]. *)
Definition example_log_probs : Tensor R :=
  mkT [1; 3]%nat [ln 0.2; ln 0.3; ln 0.5].
Definition example_centers : Tensor R := mkT [1; 3]%nat [1; 2; 3].

(** The object the constructor builds on the example. *)
Definition example_object : Binned :=
  {| bin_centers := example_centers;
     bin_log_probs := example_log_probs;
     _bin_probs := None;
     bin_edges := of_rows [1%nat] 4 (map edges_row [[1; 2; 3]]);
     exp_calls := 0 |}.




(** The centers of one batch position do not decrease along the bins. *)
Definition nondecreasing (c : list R) : Prop :=
  forall a b, (a <= b < length c)%nat -> nth a c 0 <= nth b c 0.

(** An optional per-batch array ([loc] or [scale]) of the batch shape. *)
Definition opt_ok (bs : list nat) (o : option (Tensor R)) : Prop :=
  match o with
  | Some t => wf t /\ shape t = bs
  | None => True
  end.

Definition opt_at (k : nat) (o : option (Tensor R)) : option R :=
  match o with
  | Some t => Some (nth k (data t) 0)
  | None => None
  end.

(** The spec's words: a center scaled when a scale is given, then shifted
    when a location is given. *)
Definition scale_then_shift (scale loc : option R) (c : R) : R :=
  let c1 := match scale with Some s => c * s | None => c end in
  match loc with Some l => c1 + l | None => c1 end.

(** One step of the scan for one batch position and one level: the bin
    probability [p] is added to the running sum, and the index moves on
    unless the sum now exceeds the level. *)
Definition qstep (level p : R) (st : R * Z) : R * Z :=
  let c := fst st + p in
  (c, if Req_dec_T (mask_of (Rltb level c)) 0
      then wrap32 (snd st + 1) else snd st).

(** The scan of one row of probabilities for one level. *)
Definition qscan (probs : list R) (level : R) : R * Z :=
  fold_left (fun st p => qstep level p st) probs (0, 0%Z).

Definition step_rows (levels : list R) (S : list (list (R * Z)))
  (col : list R) : list (list (R * Z)) :=
  zipWith (fun row pb => zipWith (fun st l => qstep l pb st) row levels) S col.

(** The running cumulative probability through bin [k], included. *)
Definition cumsum (probs : list R) (k : nat) : R := Rsum (firstn (S k) probs).

(** The number of bins whose running cumulative probability, started at
    [acc], does not exceed the level. *)
Fixpoint scan_count (acc : R) (probs : list R) (level : R) : nat :=
  match probs with
  | [] => O
  | p :: ps =>
    ((if Rlt_dec level (acc + p) then 0 else 1)
     + scan_count (acc + p) ps level)%nat
  end.

(** The spec's words for the selected bin: the first whose cumulative
    mass meets or exceeds the level. *)
Fixpoint first_meeting (acc : R) (probs : list R) (level : R) : nat :=
  match probs with
  | [] => O
  | p :: ps =>
    if Rle_dec level (acc + p) then O
    else S (first_meeting (acc + p) ps level)
  end.

(** The spec's words for the result: shape [(num_levels, *batch)], the
    entry of a level and a batch position being the center of the bin
    selected for them. *)
Definition quantile_first_meeting (probs centers level : Tensor R)
  : Tensor R :=
  mkT (shape level ++ removelast (shape probs))
      (List.concat
         (map (fun l =>
                 zipWith (fun prow crow =>
                            nth (first_meeting 0 prow l) crow 0)
                         (rows_of probs) (rows_of centers))
              (data level))).

(** The spec's words for the selected bin in C1: the first whose running
    cumulative probability strictly exceeds the level. *)
Fixpoint first_exceeding (acc : R) (probs : list R) (level : R) : nat :=
  match probs with
  | [] => O
  | p :: ps =>
    if Rlt_dec level (acc + p) then O
    else S (first_exceeding (acc + p) ps level)
  end.

(** The centers of the bins so selected, for every level and every batch
    position. *)
Definition quantile_first_exceeding (probs centers level : Tensor R)
  : Tensor R :=
  mkT (shape level ++ removelast (shape probs))
      (List.concat
         (map (fun l =>
                 zipWith (fun prow crow =>
                            nth (first_exceeding 0 prow l) crow 0)
                         (rows_of probs) (rows_of centers))
              (data level))).

(** Two distributions arranged as a batch of shape [(1, 2)]. *)
Definition rank2_batch_log_probs : Tensor R :=
  mkT [1; 2; 2]%nat [ln 0.9; ln 0.1; ln 0.6; ln 0.4].
Definition rank2_batch_centers : Tensor R :=
  mkT [1; 2; 2]%nat [1; 2; 1; 2].

(** The public operations, with their arguments; [CallSample] carries the
    indices the random primitive draws. *)
Inductive call : Type :=
| CallBinProbs
| CallMean
| CallStddev
| CallLogProb (x : Tensor R)
| CallCdf (x : Tensor R)
| CallQuantile (level : Tensor R)
| CallSample (draw : Tensor Z) (num_samples : option nat).

(** The object after a call. *)
Definition exec (c : call) (self : Binned) : Binned :=
  match c with
  | CallBinProbs => snd (bin_probs self)
  | CallMean => snd (mean self)
  | CallStddev => snd (stddev self)
  | CallLogProb x => snd (log_prob x self)
  | CallCdf x => snd (cdf x self)
  | CallQuantile level => snd (quantile level self)
  | CallSample draw num_samples => snd (sample draw num_samples self)
  end.

Definition run (calls : list call) (self : Binned) : Binned :=
  fold_left (fun s c => exec c s) calls self.

(** A method keeps the property [P] of the object. *)
Definition preserves (P : Binned -> Prop) {A} (m : M A) : Prop :=
  forall s, P s -> P (snd (m s)).

(** The fields set by the constructor are as constructed, and the
    exponential has been evaluated exactly when the memo is filled. *)
Definition Inv (lp c e : Tensor R) (s : Binned) : Prop :=
  bin_log_probs s = lp /\ bin_centers s = c /\ bin_edges s = e /\
  ((_bin_probs s = None /\ exp_calls s = O) \/
   (_bin_probs s = Some (exp lp) /\ exp_calls s = 1%nat)).

(** The same with the memo filled. *)
Definition Filled (lp c e : Tensor R) (s : Binned) : Prop :=
  bin_log_probs s = lp /\ bin_centers s = c /\ bin_edges s = e /\
  _bin_probs s = Some (exp lp) /\ exp_calls s = 1%nat.

(** Every center of one batch position lies between the two outer edges
    [_compute_edges] writes, the upper one excluded. *)
Definition within_sentinels (c : list R) : Prop :=
  Forall (fun z => - 1.0e10 <= z < 1.0e10) c.

(** ** The network block [BinnedArgs] and the output class

    Three more operations of the array library and of the layer library
    enter here. *)

(** [log_softmax] along the last axis: every entry minus the logarithm of
    the sum of the exponentials of its row. *)
Definition log_softmax (t : Tensor R) : option (Tensor R) :=
  ax <- norm_axis (ndim t) (-1) ;;
  Some (mkT (shape t)
            (List.concat
               (map (fun r =>
                       map (fun x => x - ln (Rsum (map Rtrigo_def.exp r))) r)
                    (rows_of t)))).

(** The layer [Dense(units, flatten=False)] with its weight matrix (one
    row of [in_units] entries per unit) and its bias: the transformation
    [r |-> W r + b] of every row along the last axis.  The layer raises
    when the last axis of the input is not [in_units] long. *)
Definition Dense (units : nat) (weight : list (list R)) (bias : list R)
  (x : Tensor R) : option (Tensor R) :=
  ax <- norm_axis (ndim x) (-1) ;;
  if Nat.eqb (length weight) units && Nat.eqb (length bias) units
     && forallb (fun w => Nat.eqb (length w) (last (shape x) O)) weight
  then Some (mkT (removelast (shape x) ++ [units])
                 (List.concat
                    (map (fun r =>
                            zipWith Rplus
                              (map (fun w => Rsum (zipWith Rmult r w)) weight)
                              bias)
                         (rows_of x))))
  else None.

(** The target dimensions of [reshape] read against the dimensions of the
    input: a positive entry is taken as it is and passes one input
    dimension, 0 copies the input dimension at its place, -1 (here
    [None]) is to be inferred and passes one input dimension, -2 copies
    all the input dimensions that remain.  The codes -3 and -4 are not
    used by this program and are not modelled. *)
Fixpoint target_dims (spec : list Z) (src : list nat)
  : option (list (option nat)) :=
  match spec with
  | [] => Some []
  | p :: spec' =>
    if (p =? 0)%Z then
      match src with
      | d :: src' => r <- target_dims spec' src' ;; Some (Some d :: r)
      | [] => None
      end
    else if (p =? -1)%Z then
      r <- target_dims spec' (tl src) ;; Some (None :: r)
    else if (p =? -2)%Z then
      r <- target_dims spec' [] ;; Some (map (@Some nat) src ++ r)
    else if (0 <? p)%Z then
      r <- target_dims spec' (tl src) ;; Some (Some (Z.to_nat p) :: r)
    else None
  end.

(** [reshape t shape reverse]: with [reverse] the special values are read
    from right to left; at most one dimension is inferred, from the
    number of entries; the entries keep their order. *)
Definition reshape {A} (t : Tensor A) (spec : list Z) (reverse : bool)
  : option (Tensor A) :=
  let src := if reverse then rev (shape t) else shape t in
  let sp := if reverse then rev spec else spec in
  dims <- target_dims sp src ;;
  let known :=
    fold_right Nat.mul 1%nat
      (map (fun o => match o with Some d => d | None => 1%nat end) dims) in
  let inferred := (size (shape t) / known)%nat in
  let out := map (fun o => match o with Some d => d | None => inferred end)
                 dims in
  let out := if reverse then rev out else out in
  if (length (filter (fun o => match o with None => true | Some _ => false end)
                     dims) <=? 1)%nat
     && Nat.eqb (size out) (size (shape t))
  then Some (mkT out (data t))
  else None.

(** [BinnedArgs] (lines 194-224): the number of bins, the constant
    centers, and the weight and bias of the dense layer of the
    projection (initialised at random and then trained: any values). *)
Module BinnedArgs.

Record t : Type := mk {
  num_bins : nat;
  bin_centers : Tensor R;
  weight : list (list R);
  bias : list R
}.

(** [self.proj] (lines 207-216): the dense layer, then [log_softmax]. *)
Definition proj (self : t) (x : Tensor R) : option (Tensor R) :=
  y <- Dense (num_bins self) (weight self) (bias self) x ;;
  log_softmax y.

(** [BinnedArgs.hybrid_forward] (lines 218-224). *)
Definition hybrid_forward (self : t) (x bin_centers : Tensor R)
  : option (Tensor R * Tensor R) :=
  ps <- proj self x ;;
  reshaped_probs <- reshape ps [(-2)%Z; (-1)%Z; Z.of_nat (num_bins self)]
                            true ;;
  bin_centers <- broadcast_add bin_centers (zeros_like ps) ;;
  Some (reshaped_probs, bin_centers).

End BinnedArgs.

(** [BinnedOutput] (lines 227-238). *)
Module BinnedOutput.

Record t : Type := mk {
  bin_centers : Tensor R;
  num_bins : nat
}.

(** [BinnedOutput.__init__] (lines 230-235): [shape[0]] is read before
    the assertion that the centers have one axis. *)
Definition __init__ (bin_centers : Tensor R) : option t :=
  match shape bin_centers with
  | [] => None
  | n :: _ =>
    if Nat.eqb (length (shape bin_centers)) 1 then Some (mk bin_centers n)
    else None
  end.

(** [BinnedOutput.get_args_proj] (lines 237-238), with the parameters
    the dense layer comes to hold. *)
Definition get_args_proj (self : t) (weight : list (list R))
  (bias : list R) : BinnedArgs.t :=
  BinnedArgs.mk (num_bins self) (bin_centers self) weight bias.

End BinnedOutput.

(** The row [log_softmax] makes of a row. *)
Definition log_softmax_row (r : list R) : list R :=
  map (fun x => x - ln (Rsum (map Rtrigo_def.exp r))) r.

(** The row the dense layer makes of a row. *)
Definition dense_row (weight : list (list R)) (bias r : list R) : list R :=
  zipWith Rplus (map (fun w => Rsum (zipWith Rmult r w)) weight) bias.

(** * Facts about the list helpers *)

Section ListFacts.
Context {A : Type}.

Lemma chunks_length (n k : nat) (l : list A) : length (chunks n k l) = k.
Proof.
  revert l; induction k as [|k IH]; intros l; simpl; [reflexivity|].
  now rewrite IH.
Qed.

Lemma chunks_concat (n : nat) (rows : list (list A)) (rest : list A) :
  Forall (fun r => length r = n) rows ->
  chunks n (length rows) (List.concat rows ++ rest) = rows.
Proof.
  induction 1 as [|r rows Hr _ IH]; simpl; [reflexivity|].
  rewrite <- app_assoc, firstn_app, skipn_app. subst n.
  rewrite Nat.sub_diag, firstn_all, skipn_all. simpl.
  rewrite app_nil_r. now rewrite IH.
Qed.

Lemma chunks_concat' (n k : nat) (rows : list (list A)) :
  Forall (fun r => length r = n) rows -> length rows = k ->
  chunks n k (List.concat rows) = rows.
Proof.
  intros HF <-. rewrite <- (app_nil_r (List.concat rows)).
  now apply chunks_concat.
Qed.

Lemma chunks_all_length (n k : nat) (l : list A) :
  length l = (k * n)%nat -> Forall (fun r => length r = n) (chunks n k l).
Proof.
  revert l; induction k as [|k IH]; intros l Hl; simpl; constructor.
  - rewrite length_firstn. simpl in Hl. lia.
  - apply IH. rewrite length_skipn. simpl in Hl. lia.
Qed.

Lemma concat_chunks (n k : nat) (l : list A) :
  length l = (k * n)%nat -> List.concat (chunks n k l) = l.
Proof.
  revert l; induction k as [|k IH]; intros l Hl; simpl.
  - simpl in Hl. now destruct l.
  - rewrite IH.
    + apply firstn_skipn.
    + rewrite length_skipn. simpl in Hl. lia.
Qed.

Lemma chunks_singletons (l : list A) :
  chunks 1 (length l) l = map (fun x => [x]) l.
Proof.
  induction l as [|a l IH]; simpl; [reflexivity|]. now rewrite IH.
Qed.

Lemma concat_singletons (l : list A) :
  List.concat (map (fun x => [x]) l) = l.
Proof.
  induction l as [|a l IH]; simpl; [reflexivity|]. now rewrite IH.
Qed.

Lemma concat_map_singleton {B} (f : B -> A) (l : list B) :
  List.concat (map (fun x => [f x]) l) = map f l.
Proof.
  induction l as [|a l IH]; simpl; [reflexivity|]. now rewrite IH.
Qed.

Lemma length_concat_uniform (n : nat) (rows : list (list A)) :
  Forall (fun r => length r = n) rows ->
  length (List.concat rows) = (length rows * n)%nat.
Proof.
  induction 1 as [|r rows Hr _ IH]; simpl; [reflexivity|].
  rewrite length_app, IH, Hr. reflexivity.
Qed.

Lemma zipWith_length {B C} (f : A -> B -> C) (l1 : list A) (l2 : list B) :
  length (zipWith f l1 l2) = Nat.min (length l1) (length l2).
Proof.
  revert l2; induction l1 as [|a l1 IH]; intros [|b l2]; simpl; auto.
Qed.

Lemma zipWith_map_l {B C D} (f : B -> C -> D) (g : A -> B) l1 l2 :
  zipWith f (map g l1) l2 = zipWith (fun a c => f (g a) c) l1 l2.
Proof.
  revert l2; induction l1 as [|a l1 IH]; intros [|b l2]; simpl; auto.
  now rewrite IH.
Qed.

Lemma zipWith_map_r {B C D} (f : C -> B -> D) (g : A -> B) l1 l2 :
  zipWith f l1 (map g l2) = zipWith (fun c a => f c (g a)) l1 l2.
Proof.
  revert l2; induction l1 as [|a l1 IH]; intros [|b l2]; simpl; auto.
  now rewrite IH.
Qed.

Lemma map_zipWith {B C D} (g : C -> D) (f : A -> B -> C) l1 l2 :
  map g (zipWith f l1 l2) = zipWith (fun a b => g (f a b)) l1 l2.
Proof.
  revert l2; induction l1 as [|a l1 IH]; intros [|b l2]; simpl; auto.
  now rewrite IH.
Qed.

Lemma zipWith_ext {B C} (f g : A -> B -> C) l1 l2 :
  (forall a b, In a l1 -> In b l2 -> f a b = g a b) ->
  zipWith f l1 l2 = zipWith g l1 l2.
Proof.
  revert l2; induction l1 as [|a l1 IH]; intros [|b l2] H; simpl; auto.
  rewrite H by (simpl; auto). f_equal. apply IH.
  intros; apply H; simpl; auto.
Qed.

Lemma zipWith_app {B C} (f : A -> B -> C) l1 l1' l2 l2' :
  length l1 = length l2 ->
  zipWith f (l1 ++ l1') (l2 ++ l2') = zipWith f l1 l2 ++ zipWith f l1' l2'.
Proof.
  revert l2; induction l1 as [|a l1 IH]; intros [|b l2] H; simpl in *;
    try discriminate; auto.
  now rewrite IH by lia.
Qed.

Lemma zipWith_diag {C} (f : A -> A -> C) l :
  zipWith f l l = map (fun a => f a a) l.
Proof. induction l as [|a l IH]; simpl; [reflexivity|]. now rewrite IH. Qed.

Lemma nth_zipWith {B C} (f : A -> B -> C) l1 l2 k da db dc :
  (k < length l1)%nat -> (k < length l2)%nat ->
  nth k (zipWith f l1 l2) dc = f (nth k l1 da) (nth k l2 db).
Proof.
  revert l2 k; induction l1 as [|a l1 IH]; intros [|b l2] [|k] H1 H2;
    simpl in *; try lia; auto.
  apply IH; lia.
Qed.
End ListFacts.

(** * Arrays seen as rows along their last axis *)

Lemma size_app (a b : list nat) : size (a ++ b) = (size a * size b)%nat.
Proof.
  induction a as [|x a IH]; simpl; [lia|]. rewrite IH. lia.
Qed.

Lemma size_snoc (bs : list nat) (n : nat) : size (bs ++ [n]) = (size bs * n)%nat.
Proof. rewrite size_app. simpl. lia. Qed.

Lemma wf_rows {A} (t : Tensor A) (bs : list nat) (n : nat) :
  wf t -> shape t = bs ++ [n] ->
  t = of_rows bs n (rows_of t) /\ Rows bs n (rows_of t).
Proof.
  destruct t as [s d]; unfold wf, rows_of, of_rows, Rows; simpl.
  intros Hwf ->. rewrite size_snoc in Hwf.
  rewrite last_last, removelast_last.
  split; [|split].
  - now rewrite concat_chunks.
  - apply chunks_length.
  - now apply chunks_all_length.
Qed.

Lemma of_rows_wf {A} bs n (rows : list (list A)) :
  Rows bs n rows -> wf (of_rows bs n rows).
Proof.
  intros [Hl HF]. unfold wf, of_rows; simpl.
  rewrite size_snoc, (length_concat_uniform n), Hl by assumption.
  reflexivity.
Qed.

Lemma rows_of_of_rows {A} bs n (rows : list (list A)) :
  Rows bs n rows -> rows_of (of_rows bs n rows) = rows.
Proof.
  intros [Hl HF]. unfold rows_of, of_rows; simpl.
  rewrite last_last, removelast_last. now apply chunks_concat'.
Qed.

Ltac zbool :=
  repeat match goal with
  | |- context [(?a <=? ?b)%Z] => destruct (Z.leb_spec a b)
  | |- context [(?a <? ?b)%Z] => destruct (Z.ltb_spec a b)
  end; simpl andb; cbv iota; try lia.

Lemma norm_axis_last (r : nat) :
  (0 < r)%nat -> norm_axis r (-1) = Some (r - 1)%nat.
Proof.
  intros Hr. unfold norm_axis. zbool. f_equal. lia.
Qed.

Lemma norm_axis_nat (r k : nat) :
  (k < r)%nat -> norm_axis r (Z.of_nat k) = Some k.
Proof.
  intros Hr. unfold norm_axis. zbool. f_equal. lia.
Qed.

Lemma norm_new_axis_last (r : nat) : norm_new_axis r (-1) = Some r.
Proof.
  unfold norm_new_axis. zbool. f_equal. lia.
Qed.

Lemma norm_new_axis_nat (r k : nat) :
  (k <= r)%nat -> norm_new_axis r (Z.of_nat k) = Some k.
Proof.
  intros Hr. unfold norm_new_axis. zbool. f_equal. lia.
Qed.

Lemma norm_axis_zero (r : nat) :
  (0 < r)%nat -> norm_axis r 0 = Some O.
Proof. intros H. now apply (norm_axis_nat r 0). Qed.

Lemma norm_new_axis_zero (r : nat) : norm_new_axis r 0 = Some O.
Proof. apply (norm_new_axis_nat r 0). lia. Qed.

Lemma norm_new_axis_one (r : nat) :
  (1 <= r)%nat -> norm_new_axis r 1 = Some 1%nat.
Proof. intros H. now apply (norm_new_axis_nat r 1). Qed.

Lemma list_eqb_refl (s : list nat) : list_eqb s s = true.
Proof. unfold list_eqb. destruct (list_eq_dec Nat.eq_dec s s); congruence. Qed.

Lemma list_eqb_eq (s1 s2 : list nat) : list_eqb s1 s2 = true -> s1 = s2.
Proof.
  unfold list_eqb. destruct (list_eq_dec Nat.eq_dec s1 s2); congruence.
Qed.

Lemma firstn_snoc_len {A} (bs : list A) (x : A) :
  firstn (length bs) (bs ++ [x]) = bs.
Proof. rewrite firstn_app, Nat.sub_diag, firstn_all. simpl. apply app_nil_r. Qed.

Lemma skipn_snoc_len {A} (bs : list A) (x : A) :
  skipn (length bs) (bs ++ [x]) = [x].
Proof. rewrite skipn_app, Nat.sub_diag, skipn_all. reflexivity. Qed.

Lemma skipn_snoc_S {A} (bs : list A) (x : A) :
  skipn (S (length bs)) (bs ++ [x]) = [].
Proof. apply skipn_all2. rewrite length_app. simpl. lia. Qed.

Lemma set_dim_last (bs : list nat) (n k : nat) :
  set_dim (bs ++ [n]) (length bs) k = bs ++ [k].
Proof. unfold set_dim. now rewrite firstn_snoc_len, skipn_snoc_S. Qed.

Lemma del_dim_last (bs : list nat) (n : nat) :
  del_dim (bs ++ [n]) (length bs) = bs.
Proof.
  unfold del_dim. rewrite firstn_snoc_len, skipn_snoc_S. apply app_nil_r.
Qed.

Lemma ins_dim_last (bs : list nat) (k : nat) :
  ins_dim bs (length bs) k = bs ++ [k].
Proof. unfold ins_dim. now rewrite firstn_all, skipn_all. Qed.

Lemma axis_blocks_last {A} bs n (rows : list (list A)) :
  Rows bs n rows ->
  axis_blocks (bs ++ [n]) (length bs) (List.concat rows)
  = map (map (fun x => [x])) rows.
Proof.
  intros [Hl HF]. unfold axis_blocks.
  rewrite firstn_snoc_len, skipn_snoc_S, nth_middle. simpl size.
  rewrite Nat.mul_1_r, (chunks_concat' n) by assumption.
  apply map_ext_in. intros r Hr.
  rewrite Forall_forall in HF. rewrite <- (HF r Hr).
  apply chunks_singletons.
Qed.

Lemma norm_axis_snoc (bs : list nat) (n : nat) :
  norm_axis (length (bs ++ [n])) (-1) = Some (length bs).
Proof.
  rewrite length_app; simpl.
  rewrite norm_axis_last by lia. f_equal. lia.
Qed.

Lemma unblocks_singletons {A} (rows : list (list A)) :
  unblocks (map (map (fun x => [x])) rows) = List.concat rows.
Proof.
  unfold unblocks. rewrite map_map. f_equal.
  rewrite <- (map_id rows) at 2.
  apply map_ext. intros r. apply concat_singletons.
Qed.

Lemma Rows_map {A B} bs n m (f : list A -> list B) (rows : list (list A)) :
  Rows bs n rows -> (forall r, length r = n -> length (f r) = m) ->
  Rows bs m (map f rows).
Proof.
  intros [Hl HF] Hf. split.
  - now rewrite length_map.
  - rewrite Forall_map. revert HF. apply Forall_impl. exact Hf.
Qed.

Lemma slice_axis_rows {A} bs n (rows : list (list A)) (b : Z) (e : option Z) :
  Rows bs n rows ->
  let len := Z.of_nat n in
  let b' := (if b <? 0 then b + len else b)%Z in
  let e' := match e with
            | None => len
            | Some e0 => (if e0 <? 0 then e0 + len else e0)%Z
            end in
  (0 <= b' < e')%Z -> (e' <= len)%Z ->
  slice_axis (of_rows bs n rows) (-1) b e
  = Some (of_rows bs (Z.to_nat (e' - b'))
            (map (fun r => firstn (Z.to_nat (e' - b')) (skipn (Z.to_nat b') r))
                 rows)).
Proof.
  intros HR len b' e' Hb He. unfold slice_axis, of_rows, ndim.
  cbn [shape data]. rewrite norm_axis_snoc. cbn [obind].
  rewrite nth_middle. fold len. fold b'. fold e'.
  destruct (Z.leb_spec 0 b'); [|lia].
  destruct (Z.ltb_spec b' e'); [|lia].
  destruct (Z.leb_spec e' len); [|lia].
  cbn [andb]. rewrite set_dim_last, axis_blocks_last by assumption.
  do 2 f_equal.
  unfold unblocks. rewrite !map_map. f_equal.
  apply map_ext. intros r.
  rewrite skipn_map, firstn_map. apply concat_singletons.
Qed.

Lemma sum_singletons (r : list R) :
  fold_right (zipWith Rplus) [0] (map (fun x => [x]) r) = [Rsum r].
Proof.
  induction r as [|x r IH]; simpl; [reflexivity|]. now rewrite IH.
Qed.

Lemma sum_rows bs n (rows : list (list R)) :
  Rows bs n rows ->
  sum (of_rows bs n rows) (-1) = Some (mkT bs (map Rsum rows)).
Proof.
  intros HR. unfold sum, of_rows, ndim. cbn [shape data].
  rewrite norm_axis_snoc. cbn [obind].
  rewrite del_dim_last, axis_blocks_last, skipn_snoc_S by assumption.
  cbn [size fold_right repeat]. do 2 f_equal.
  rewrite map_map.
  rewrite (map_ext _ (fun r => [Rsum r])) by (intros; apply sum_singletons).
  apply concat_map_singleton.
Qed.

Lemma zipWith_app_singletons {A} (r1 r2 : list (list A)) :
  zipWith (@app (list A)) (map (map (fun x => [x])) r1)
                          (map (map (fun x => [x])) r2)
  = map (map (fun x => [x])) (zipWith (@app A) r1 r2).
Proof.
  revert r2; induction r1 as [|a r1 IH]; intros [|b r2]; simpl; auto.
  now rewrite IH, map_app.
Qed.

Lemma zipWith_app_nil {A} (l : list (list A)) :
  zipWith (@app A) l (repeat [] (length l)) = l.
Proof.
  induction l as [|a l IH]; simpl; [reflexivity|].
  now rewrite IH, app_nil_r.
Qed.

Lemma Rows_zipWith_app {A} bs n1 n2 (r1 r2 : list (list A)) :
  Rows bs n1 r1 -> Rows bs n2 r2 ->
  Rows bs (n1 + n2) (zipWith (@app A) r1 r2).
Proof.
  intros [Hl1 HF1] [Hl2 HF2]. split.
  - rewrite zipWith_length. lia.
  - clear Hl1 Hl2. revert r2 HF2.
    induction HF1 as [|a r1 Ha _ IH]; intros r2 HF2; [constructor|].
    destruct HF2 as [|b r2 Hb HF2]; simpl; constructor.
    + rewrite length_app. lia.
    + now apply IH.
Qed.

Lemma concat3_rows {A} bs n1 n2 n3 (r1 r2 r3 : list (list A)) :
  Rows bs n1 r1 -> Rows bs n2 r2 -> Rows bs n3 r3 ->
  concat [of_rows bs n1 r1; of_rows bs n2 r2; of_rows bs n3 r3] (-1)
  = Some (of_rows bs (n1 + (n2 + n3))
            (zipWith (@app A) r1 (zipWith (@app A) r2 r3))).
Proof.
  intros H1 H2 H3. unfold concat, of_rows, ndim. cbn [shape data].
  rewrite norm_axis_snoc. cbn [obind forallb shape data].
  rewrite !del_dim_last, list_eqb_refl, !length_app. cbn [length].
  rewrite Nat.eqb_refl. cbn [andb map fold_right shape data].
  rewrite !nth_middle, firstn_snoc_len, set_dim_last.
  rewrite !axis_blocks_last by assumption.
  replace (size bs) with (length (map (map (fun x : A => [x])) r3))
    by (rewrite length_map; apply H3).
  rewrite zipWith_app_nil, !zipWith_app_singletons, unblocks_singletons.
  now rewrite Nat.add_0_r.
Qed.

Lemma expand_dims_last {A} (t : Tensor A) :
  expand_dims t (-1) = Some (mkT (shape t ++ [1%nat]) (data t)).
Proof.
  unfold expand_dims. rewrite norm_new_axis_last. cbn [obind].
  unfold ndim. now rewrite ins_dim_last.
Qed.

(** * Broadcasting *)

Lemma pad_shape_id (r : nat) (s : list nat) :
  (r <= length s)%nat -> pad_shape r s = s.
Proof.
  intros H. unfold pad_shape.
  replace (r - length s)%nat with O by lia. reflexivity.
Qed.

Lemma bshape_same (s : list nat) : bshape s s = Some s.
Proof.
  induction s as [|a s IH]; simpl; [reflexivity|].
  now rewrite IH, Nat.eqb_refl.
Qed.

Lemma bshape_last_l (bs : list nat) (n : nat) :
  bshape (bs ++ [n]) (bs ++ [1%nat]) = Some (bs ++ [n]).
Proof.
  induction bs as [|a bs IH]; simpl.
  - destruct (Nat.eqb n 1); [reflexivity|].
    now destruct (Nat.eqb n 1).
  - now rewrite IH, Nat.eqb_refl.
Qed.


Lemma bshape_ones (bs : list nat) (n : nat) :
  bshape (repeat 1%nat (length bs) ++ [n]) (bs ++ [n]) = Some (bs ++ [n]).
Proof.
  induction bs as [|a bs IH]; simpl.
  - now rewrite Nat.eqb_refl.
  - rewrite IH. simpl. destruct a as [|[|a]]; reflexivity.
Qed.

Lemma bcast_data_same {A} (s : list nat) (d : list A) :
  length d = size s -> bcast_data s s d = d.
Proof.
  revert d; induction s as [|a s IH]; intros d Hd; simpl; [reflexivity|].
  rewrite Nat.eqb_refl. simpl in Hd.
  rewrite <- (concat_chunks (size s) a d) at 2 by assumption.
  f_equal. rewrite <- (map_id (chunks (size s) a d)) at 2.
  apply map_ext_in. intros r Hr. apply IH.
  pose proof (chunks_all_length (size s) a d Hd) as HF.
  rewrite Forall_forall in HF. now apply HF.
Qed.

Lemma concat_concat {A} (l : list (list (list A))) :
  List.concat (List.concat l) = List.concat (map (@List.concat A) l).
Proof.
  induction l as [|a l IH]; simpl; [reflexivity|].
  now rewrite concat_app, IH.
Qed.

Lemma concat_repeat_singleton {A} (x : A) (m : nat) :
  List.concat (repeat [x] m) = repeat x m.
Proof. induction m as [|m IH]; simpl; [reflexivity|]. now rewrite IH. Qed.

Lemma concat_repeat_mul {A} (l : list A) (k b : nat) :
  List.concat (repeat (List.concat (repeat l k)) b)
  = List.concat (repeat l (b * k)).
Proof.
  induction b as [|b IH]; simpl; [reflexivity|].
  now rewrite IH, repeat_app, concat_app.
Qed.

(** An array of shape [bs ++ [1]] replicated along its last axis. *)
Lemma bcast_data_last {A} (bs : list nat) (n : nat) (d : list A) :
  length d = size bs ->
  bcast_data (bs ++ [1%nat]) (bs ++ [n]) d
  = List.concat (map (fun x => repeat x n) d).
Proof.
  revert d; induction bs as [|a bs IH]; intros d Hd.
  - simpl in Hd. destruct d as [|x [|y d]]; try discriminate.
    cbn [app bcast_data size fold_right chunks firstn skipn map].
    destruct (Nat.eqb_spec 1 n) as [<-|Hn]; simpl.
    + reflexivity.
    + now rewrite app_nil_r, !concat_repeat_singleton.
  - cbn [app bcast_data]. rewrite Nat.eqb_refl, size_snoc, Nat.mul_1_r.
    simpl in Hd.
    rewrite (map_ext_in _ (fun r => List.concat (map (fun x => repeat x n) r))).
    + rewrite <- (concat_chunks (size bs) a d) at 2 by assumption.
      now rewrite concat_map, concat_concat, map_map.
    + intros r Hr. apply IH.
      pose proof (chunks_all_length (size bs) a d Hd) as HF.
      rewrite Forall_forall in HF. now apply HF.
Qed.

(** An array of shape [[n]] (or [1, ..., 1, n]) tiled over a batch. *)
Lemma bcast_data_tile {A} (bs : list nat) (n : nat) (d : list A) :
  length d = n ->
  bcast_data (repeat 1%nat (length bs) ++ [n]) (bs ++ [n]) d
  = List.concat (repeat d (size bs)).
Proof.
  intros Hd. subst n. induction bs as [|a bs IH].
  - cbn [length repeat app bcast_data size fold_right].
    rewrite Nat.eqb_refl.
    rewrite map_id, concat_chunks by lia. simpl. now rewrite app_nil_r.
  - cbn [length repeat app bcast_data].
    assert (Hs : size (repeat 1%nat (length bs) ++ [length d]) = length d).
    { rewrite size_snoc. clear. induction bs; simpl; lia. }
    rewrite Hs. cbn [chunks map]. rewrite firstn_all, IH.
    destruct (Nat.eqb_spec 1 a) as [<-|Ha].
    + simpl. now rewrite app_nil_r, Nat.add_0_r.
    + rewrite concat_concat. cbn [size fold_right].
      rewrite <- concat_repeat_mul. f_equal.
      clear. induction a as [|a IH]; simpl; [reflexivity|].
      now rewrite IH, app_nil_r.
Qed.

Lemma zipWith_nil_r {A B C} (f : A -> B -> C) (l : list A) :
  zipWith f l [] = [].
Proof. now destruct l. Qed.

Lemma zipWith_repeat_r {A B C} (f : A -> B -> C) (r : list A) (x : B) :
  zipWith f r (repeat x (length r)) = map (fun a => f a x) r.
Proof. induction r as [|a r IH]; simpl; [reflexivity|]. now rewrite IH. Qed.

Lemma zipWith_repeat_l {A B C} (f : A -> B -> C) (x : A) (r : list B) :
  zipWith f (repeat x (length r)) r = map (f x) r.
Proof. induction r as [|a r IH]; simpl; [reflexivity|]. now rewrite IH. Qed.

Lemma zipWith_concat_rows_l {A B C} (f : A -> B -> C) n
  (rows : list (list A)) (xs : list B) :
  Forall (fun r => length r = n) rows ->
  zipWith f (List.concat rows) (List.concat (map (fun x => repeat x n) xs))
  = List.concat (zipWith (fun r x => map (fun a => f a x) r) rows xs).
Proof.
  intros HF. revert xs.
  induction HF as [|r rows Hr _ IH]; intros [|x xs]; simpl; auto.
  - apply zipWith_nil_r.
  - rewrite zipWith_app by (rewrite repeat_length; lia).
    rewrite IH. f_equal. subst n. apply zipWith_repeat_r.
Qed.

Lemma zipWith_concat_rows_r {A B C} (f : A -> B -> C) n
  (xs : list A) (rows : list (list B)) :
  Forall (fun r => length r = n) rows ->
  zipWith f (List.concat (map (fun x => repeat x n) xs)) (List.concat rows)
  = List.concat (zipWith (fun x r => map (f x) r) xs rows).
Proof.
  intros HF. revert xs.
  induction HF as [|r rows Hr _ IH]; intros [|x xs]; simpl; auto.
  - apply zipWith_nil_r.
  - rewrite zipWith_app by (rewrite repeat_length; lia).
    rewrite IH. f_equal. subst n. apply zipWith_repeat_l.
Qed.

Lemma zipWith_concat_tile {A B C} (f : A -> B -> C) (cs : list A)
  (rows : list (list B)) :
  Forall (fun r => length r = length cs) rows ->
  zipWith f (List.concat (repeat cs (length rows))) (List.concat rows)
  = List.concat (map (fun r => zipWith f cs r) rows).
Proof.
  induction 1 as [|r rows Hr _ IH]; simpl; [reflexivity|].
  rewrite zipWith_app by lia. now rewrite IH.
Qed.

Lemma zipWith_concat_tile_r {A B C} (f : A -> B -> C) (cs : list B)
  (rows : list (list A)) :
  Forall (fun r => length r = length cs) rows ->
  zipWith f (List.concat rows) (List.concat (repeat cs (length rows)))
  = List.concat (map (fun r => zipWith f r cs) rows).
Proof.
  induction 1 as [|r rows Hr _ IH]; simpl; [reflexivity|].
  rewrite zipWith_app by lia. now rewrite IH.
Qed.

Lemma broadcast_same {A B C} (f : A -> B -> C) (t1 : Tensor A)
  (t2 : Tensor B) (s : list nat) :
  shape t1 = s -> shape t2 = s -> wf t1 -> wf t2 ->
  broadcast f t1 t2 = Some (mkT s (zipWith f (data t1) (data t2))).
Proof.
  destruct t1 as [s1 d1], t2 as [s2 d2]; unfold wf, broadcast, ndim; simpl.
  intros -> -> H1 H2. rewrite Nat.max_id, pad_shape_id by lia.
  rewrite bshape_same. cbn [obind].
  now rewrite !bcast_data_same by assumption.
Qed.

Lemma broadcast_rows_col {A B C} (f : A -> B -> C) bs n
  (rows : list (list A)) (xs : list B) :
  Rows bs n rows -> length xs = size bs ->
  broadcast f (of_rows bs n rows) (mkT (bs ++ [1%nat]) xs)
  = Some (of_rows bs n (zipWith (fun r x => map (fun a => f a x) r) rows xs)).
Proof.
  intros HR Hx. pose proof (of_rows_wf _ _ _ HR) as Hwf.
  unfold broadcast, of_rows, ndim, wf in *. cbn [shape data] in *.
  rewrite !length_app. cbn [length]. rewrite Nat.max_id.
  rewrite !pad_shape_id by (rewrite length_app; simpl; lia).
  rewrite bshape_last_l. cbn [obind].
  rewrite bcast_data_same, bcast_data_last by assumption.
  now rewrite (zipWith_concat_rows_l f n) by apply HR.
Qed.


Lemma pad_shape_vec (bs : list nat) (n : nat) :
  pad_shape (Nat.max 1 (length (bs ++ [n]))) [n]
  = repeat 1%nat (length bs) ++ [n].
Proof.
  unfold pad_shape. rewrite length_app. simpl length.
  replace (Nat.max 1 (length bs + 1) - 1)%nat with (length bs) by lia.
  reflexivity.
Qed.

Lemma broadcast_vec_rows {A B C} (f : A -> B -> C) bs n
  (cs : list A) (rows : list (list B)) :
  length cs = n -> Rows bs n rows ->
  broadcast f (mkT [n] cs) (of_rows bs n rows)
  = Some (of_rows bs n (map (fun r => zipWith f cs r) rows)).
Proof.
  intros Hc HR. pose proof (of_rows_wf _ _ _ HR) as Hwf.
  unfold broadcast, of_rows, ndim, wf in *. cbn [shape data length] in *.
  rewrite pad_shape_vec.
  rewrite pad_shape_id by (rewrite length_app; cbn [length]; lia).
  rewrite bshape_ones. cbn [obind].
  rewrite bcast_data_same, bcast_data_tile by assumption.
  destruct HR as [Hl HF]. rewrite <- Hl.
  rewrite zipWith_concat_tile; [reflexivity|].
  revert HF. apply Forall_impl. intros; congruence.
Qed.

Lemma zipWith_concat_rows {A B C} (f : A -> B -> C) n
  (r1 : list (list A)) (r2 : list (list B)) :
  Forall (fun r => length r = n) r1 -> Forall (fun r => length r = n) r2 ->
  zipWith f (List.concat r1) (List.concat r2)
  = List.concat (zipWith (zipWith f) r1 r2).
Proof.
  intros H1. revert r2.
  induction H1 as [|a r1 Ha _ IH]; intros r2 H2; [reflexivity|].
  destruct H2 as [|b r2 Hb H2]; simpl; [apply zipWith_nil_r|].
  rewrite zipWith_app by lia. now rewrite IH.
Qed.

Lemma Rows_zipWith {A B C} (f : A -> B -> C) bs n
  (r1 : list (list A)) (r2 : list (list B)) :
  Rows bs n r1 -> Rows bs n r2 -> Rows bs n (zipWith (zipWith f) r1 r2).
Proof.
  intros [Hl1 HF1] [Hl2 HF2]. split.
  - rewrite zipWith_length. lia.
  - clear Hl1 Hl2. revert r2 HF2.
    induction HF1 as [|a r1 Ha _ IH]; intros r2 HF2; [constructor|].
    destruct HF2 as [|b r2 Hb HF2]; simpl; constructor.
    + rewrite zipWith_length. lia.
    + now apply IH.
Qed.

Lemma broadcast_rows_rows {A B C} (f : A -> B -> C) bs n
  (r1 : list (list A)) (r2 : list (list B)) :
  Rows bs n r1 -> Rows bs n r2 ->
  broadcast f (of_rows bs n r1) (of_rows bs n r2)
  = Some (of_rows bs n (zipWith (zipWith f) r1 r2)).
Proof.
  intros H1 H2.
  rewrite (broadcast_same f _ _ (bs ++ [n]))
    by (try reflexivity; now apply of_rows_wf).
  unfold of_rows; cbn [data].
  now rewrite (zipWith_concat_rows f n) by (apply H1 || apply H2).
Qed.

Lemma Rows_zipWith_col {A B C} (g : list A -> B -> list C) bs n
  (rows : list (list A)) (xs : list B) :
  Rows bs n rows -> length xs = size bs ->
  (forall r x, length (g r x) = length r) ->
  Rows bs n (zipWith g rows xs).
Proof.
  intros [Hl HF] Hx Hg. split.
  - rewrite zipWith_length. lia.
  - clear Hl Hx. revert xs.
    induction HF as [|r rows Hr _ IH]; intros [|x xs]; simpl;
      constructor; auto. now rewrite Hg.
Qed.

Lemma Rows_map_map {A B} (f : A -> B) bs n (rows : list (list A)) :
  Rows bs n rows -> Rows bs n (map (map f) rows).
Proof.
  intros H. eapply Rows_map; [exact H|]. intros; now rewrite length_map.
Qed.

Lemma tmap_of_rows {A B} (f : A -> B) bs n (rows : list (list A)) :
  tmap f (of_rows bs n rows) = of_rows bs n (map (map f) rows).
Proof. unfold tmap, of_rows; cbn [shape data]. now rewrite concat_map. Qed.

Lemma zipWith_same_rows {A B C D} (f : B -> C -> D) (g : A -> B) (h : A -> C)
  (rows : list A) :
  zipWith f (map g rows) (map h rows) = map (fun r => f (g r) (h r)) rows.
Proof.
  now rewrite zipWith_map_l, zipWith_map_r, zipWith_diag.
Qed.

(** * Edge construction *)

Lemma edges_row_length (c : list R) :
  (1 <= length c)%nat -> length (edges_row c) = S (length c).
Proof.
  intros H. unfold edges_row.
  rewrite !length_app, !length_map, zipWith_length.
  rewrite length_skipn, !length_firstn. lia.
Qed.

Ltac slice_side :=
  try assumption; cbv -[Z.of_nat Z.add Z.sub Z.le Z.lt]; lia.

Lemma compute_edges_rows bs n (rows : list (list R)) :
  Rows bs n rows -> (2 <= n)%nat ->
  _compute_edges (of_rows bs n rows)
  = Some (of_rows bs (S n) (map edges_row rows)).
Proof.
  intros HR Hn. unfold _compute_edges.
  assert (Hlen : forall r, In r rows -> length r = n).
  { destruct HR as [_ HF]. now rewrite Forall_forall in HF. }
  rewrite (slice_axis_rows bs n rows 0 (Some 1%Z)) by slice_side.
  rewrite (slice_axis_rows bs n rows 1 None) by slice_side.
  rewrite (slice_axis_rows bs n rows 0 (Some (-1)%Z)) by slice_side.
  cbn [obind Z.ltb Z.compare].
  replace (Z.to_nat (1 - 0)) with 1%nat by lia.
  replace (Z.to_nat 0) with 0%nat by lia.
  replace (Z.to_nat 1) with 1%nat by lia.
  replace (Z.to_nat (Z.of_nat n - 1)) with (n - 1)%nat by lia.
  replace (Z.to_nat (-1 + Z.of_nat n - 0)) with (n - 1)%nat by lia.
  assert (R1 : Rows bs 1 (map (fun r => firstn 1 (skipn 0 r)) rows)).
  { eapply Rows_map; [eassumption|]. intros r Hr.
    rewrite length_firstn, length_skipn; lia. }
  assert (R2 : Rows bs (n - 1)
                 (map (fun r => firstn (n - 1) (skipn 1 r)) rows)).
  { eapply Rows_map; [eassumption|]. intros r Hr.
    rewrite length_firstn, length_skipn; lia. }
  assert (R3 : Rows bs (n - 1)
                 (map (fun r => firstn (n - 1) (skipn 0 r)) rows)).
  { eapply Rows_map; [eassumption|]. intros r Hr.
    rewrite length_firstn, length_skipn; lia. }
  unfold broadcast_add. rewrite (broadcast_rows_rows _ _ _ _ _ R2 R3).
  cbn [obind]. unfold zeros_like. rewrite !tmap_of_rows.
  rewrite concat3_rows.
  - replace (1 + (n - 1 + 1))%nat with (S n) by lia.
    f_equal. f_equal.
    rewrite !map_map, !zipWith_same_rows, map_map, !zipWith_same_rows.
    apply map_ext_in. intros r Hr. unfold edges_row.
    rewrite (Hlen r Hr).
    rewrite (firstn_all2 (n := (n - 1)%nat) (skipn 1 r))
      by (rewrite length_skipn, (Hlen r Hr); lia).
    reflexivity.
  - now repeat apply Rows_map_map.
  - apply Rows_map_map. now apply Rows_zipWith.
  - now repeat apply Rows_map_map.
Qed.

Lemma edges_row_first (c : list R) :
  (1 <= length c)%nat -> nth 0 (edges_row c) 0 = - 1.0e10.
Proof.
  destruct c as [|x c]; simpl; [lia|]. intros _. lra.
Qed.

Lemma edges_row_last (c : list R) :
  (1 <= length c)%nat -> nth (length c) (edges_row c) 0 = 1.0e10.
Proof.
  intros H. unfold edges_row.
  assert (H1 : length (map (fun z => z - 1.0e10)
                         (map (fun _ : R => 0) (firstn 1 c))) = 1%nat)
    by (rewrite !length_map, length_firstn; lia).
  assert (H2 : length (map (fun z => z / 2.0)
                         (zipWith Rplus (skipn 1 c)
                            (firstn (length c - 1) c))) = (length c - 1)%nat)
    by (rewrite length_map, zipWith_length, length_skipn, length_firstn; lia).
  rewrite app_nth2 by lia. rewrite app_nth2 by lia.
  rewrite H1, H2. replace (length c - 1 - (length c - 1))%nat with O by lia.
  destruct c as [|x c]; [simpl in H; lia|]. simpl. lra.
Qed.

Lemma edges_row_mid (c : list R) (i : nat) :
  (1 <= i <= length c - 1)%nat ->
  nth i (edges_row c) 0 = (nth (i - 1) c 0 + nth i c 0) / 2.
Proof.
  intros H. unfold edges_row.
  assert (H1 : length (map (fun z => z - 1.0e10)
                         (map (fun _ : R => 0) (firstn 1 c))) = 1%nat)
    by (rewrite !length_map, length_firstn; lia).
  assert (Hz : length (zipWith Rplus (skipn 1 c) (firstn (length c - 1) c))
               = (length c - 1)%nat)
    by (rewrite zipWith_length, length_skipn, length_firstn; lia).
  rewrite app_nth2 by lia. rewrite H1.
  rewrite app_nth1 by (rewrite length_map; lia).
  rewrite (nth_indep _ 0 ((fun z => z / 2.0) 0)) by (rewrite length_map; lia).
  rewrite (map_nth (fun z => z / 2.0)).
  rewrite (nth_zipWith Rplus _ _ (i - 1) 0 0 0).
  - rewrite nth_skipn, nth_firstn.
    replace (i - 1 <? length c - 1)%nat with true
      by (symmetry; apply Nat.ltb_lt; lia).
    replace (1 + (i - 1))%nat with i by lia. lra.
  - rewrite length_skipn. lia.
  - rewrite length_firstn. lia.
Qed.

(** C6, as stated for one bin and more, fails for one bin: the slices
    that build the midpoints are then empty, the library refuses them,
    and neither the edges nor the object are built. *)
Lemma compute_edges_raises_for_one_bin :
  _compute_edges (mkT [1; 1]%nat [5]) = None /\
  __init__ (mkT [1; 1]%nat [0]) (mkT [1; 1]%nat [5]) = None.
Proof. split; reflexivity. Qed.

(** C6 (amended): for two bins and more, the edges built at construction
    have one more entry per batch position than the centers; the first
    is [-1e10], the last [+1e10], and entry [i] in between is the
    midpoint of centers [i-1] and [i]. *)
Theorem compute_edges_shape_and_entries (c : Tensor R) (bs : list nat)
  (n : nat) :
  wf c -> shape c = bs ++ [n] -> (2 <= n)%nat ->
  exists e,
    _compute_edges c = Some e /\ shape e = bs ++ [(n + 1)%nat] /\ wf e /\
    forall k, (k < size bs)%nat ->
      let er := nth k (rows_of e) [] in
      let cr := nth k (rows_of c) [] in
      nth 0 er 0 = - 1.0e10 /\ nth n er 0 = 1.0e10 /\
      forall i, (1 <= i <= n - 1)%nat ->
        nth i er 0 = (nth (i - 1) cr 0 + nth i cr 0) / 2.
Proof.
  intros Hwf Hs Hn.
  destruct (wf_rows c bs n Hwf Hs) as [Hc HR].
  assert (HRe : Rows bs (S n) (map edges_row (rows_of c))).
  { eapply Rows_map; [exact HR|]. intros r Hr.
    rewrite edges_row_length; lia. }
  exists (of_rows bs (S n) (map edges_row (rows_of c))).
  split; [|split; [|split]].
  - rewrite Hc at 1. now apply compute_edges_rows.
  - unfold of_rows; cbn [shape]. do 2 f_equal. lia.
  - now apply of_rows_wf.
  - intros k Hk er cr. subst er cr.
    rewrite rows_of_of_rows by assumption.
    destruct HR as [Hl HF]. rewrite Forall_forall in HF.
    assert (Hin : In (nth k (rows_of c) []) (rows_of c))
      by (apply nth_In; lia).
    pose proof (HF _ Hin) as Hlen.
    rewrite (nth_indep _ [] (edges_row [])) by (rewrite length_map; lia).
    rewrite map_nth. split; [|split].
    + apply edges_row_first. lia.
    + rewrite <- Hlen at 1. apply edges_row_last. lia.
    + intros i Hi. apply edges_row_mid. lia.
Qed.

Lemma compute_edges_shape_and_entries_witness :
  exists e,
    _compute_edges (mkT [2; 3]%nat [1; 2; 3; 10; 20; 40]) = Some e /\
    shape e = [2%nat] ++ [(3 + 1)%nat] /\ wf e /\
    forall k, (k < size [2%nat])%nat ->
      let er := nth k (rows_of e) [] in
      let cr := nth k (rows_of (mkT [2; 3]%nat [1; 2; 3; 10; 20; 40])) [] in
      nth 0 er 0 = - 1.0e10 /\ nth 3 er 0 = 1.0e10 /\
      forall i, (1 <= i <= 3 - 1)%nat ->
        nth i er 0 = (nth (i - 1) cr 0 + nth i cr 0) / 2.
Proof.
  apply (compute_edges_shape_and_entries
           (mkT [2; 3]%nat [1; 2; 3; 10; 20; 40]) [2%nat] 3);
    [reflexivity | reflexivity | lia].
Defined.

(** * The memo field *)

Lemma same_fields_refl (s : Binned) : same_fields s s.
Proof. now repeat split. Qed.

Lemma same_fields_trans (s1 s2 s3 : Binned) :
  same_fields s1 s2 -> same_fields s2 s3 -> same_fields s1 s3.
Proof.
  intros (A1 & B1 & C1) (A2 & B2 & C2). repeat split; congruence.
Qed.

Lemma bin_probs_run (self : Binned) :
  cache_ok self ->
  exists self',
    bin_probs self = (Some (exp (bin_log_probs self)), self') /\
    same_fields self self' /\
    _bin_probs self' = Some (exp (bin_log_probs self)) /\
    (exp_calls self' <= exp_calls self + 1)%nat.
Proof.
  intros [H|H]; unfold bin_probs; rewrite H.
  - eexists. split; [reflexivity|]. cbn.
    repeat split; try reflexivity. lia.
  - exists self. repeat split; try assumption; try reflexivity. lia.
Qed.

Lemma init_rows (lp : Tensor R) bs n (crows : list (list R)) :
  Rows bs n crows -> (2 <= n)%nat ->
  __init__ lp (of_rows bs n crows)
  = Some {| bin_centers := of_rows bs n crows;
            bin_log_probs := lp;
            _bin_probs := None;
            bin_edges := of_rows bs (S n) (map edges_row crows);
            exp_calls := 0 |}.
Proof.
  intros HR Hn. unfold __init__. now rewrite compute_edges_rows.
Qed.

Lemma nth_map' {A B} (f : A -> B) (l : list A) (k : nat) (d : A) (d' : B) :
  (k < length l)%nat -> nth k (map f l) d' = f (nth k l d).
Proof.
  intros H. rewrite (nth_indep _ d' (f d)) by now rewrite length_map.
  apply map_nth.
Qed.

(** * Cumulative distribution *)

Lemma cdf_row_spec (probs centers : list R) (x : R) :
  cdf_row probs centers x = cdf_spec probs centers x.
Proof.
  unfold cdf_row, cdf_spec. revert centers.
  induction probs as [|p probs IH]; intros [|c centers]; simpl; auto.
  rewrite IH. destruct (Rleb c x); simpl; lra.
Qed.

Lemma cdf_rows (self : Binned) bs n (lrows crows : list (list R))
  (xs : list R) :
  cache_ok self ->
  bin_log_probs self = of_rows bs n lrows ->
  bin_centers self = of_rows bs n crows ->
  Rows bs n lrows -> Rows bs n crows -> length xs = size bs ->
  fst (cdf (mkT bs xs) self)
  = Some (mkT bs
            (map Rsum
               (zipWith (zipWith Rmult) (map (map Rtrigo_def.exp) lrows)
                  (zipWith (fun r x => map (fun c => mask_of (Rleb c x)) r)
                           crows xs)))).
Proof.
  intros Hc Hlp Hcs HRl HRc Hx.
  destruct (bin_probs_run self Hc) as (self' & E & _).
  unfold cdf, mbind, attr, lift.
  rewrite expand_dims_last. cbn [shape data]. rewrite Hcs.
  unfold broadcast_lesser_equal, broadcast_mul.
  rewrite broadcast_rows_col by assumption. rewrite E, Hlp.
  cbn [fst obind].
  unfold exp. rewrite tmap_of_rows.
  assert (HRm : Rows bs n
            (zipWith (fun r x => map (fun c => mask_of (Rleb c x)) r)
                     crows xs)).
  { apply Rows_zipWith_col; try assumption.
    intros; now rewrite length_map. }
  rewrite broadcast_rows_rows by (assumption || now apply Rows_map_map).
  cbn [obind]. rewrite sum_rows; [reflexivity|].
  apply Rows_zipWith; [now apply Rows_map_map|assumption].
Qed.

Lemma cdf_data_nth (P C : list (list R)) (xs : list R) (k : nat) :
  (k < length P)%nat -> (k < length C)%nat -> (k < length xs)%nat ->
  nth k (map Rsum
           (zipWith (zipWith Rmult) P
              (zipWith (fun r x => map (fun c => mask_of (Rleb c x)) r)
                       C xs))) 0
  = cdf_row (nth k P []) (nth k C []) (nth k xs 0).
Proof.
  intros HP HC Hx.
  rewrite (nth_map' _ _ _ []) by (rewrite !zipWith_length; lia).
  rewrite (nth_zipWith _ _ _ _ [] [] []) by (rewrite ?zipWith_length; lia).
  now rewrite (nth_zipWith _ _ _ _ [] 0 []) by lia.
Qed.

Lemma rows_of_tmap {A B} (f : A -> B) (t : Tensor A) bs n :
  wf t -> shape t = bs ++ [n] ->
  rows_of (tmap f t) = map (map f) (rows_of t).
Proof.
  intros Hwf Hs. destruct (wf_rows t bs n Hwf Hs) as [Ht HR].
  rewrite Ht at 1. rewrite tmap_of_rows.
  apply rows_of_of_rows. now apply Rows_map_map.
Qed.

(** C4: at every batch position, [cdf(x)] is the sum of the bin
    probabilities over the bins whose center is at most [x]. *)
Theorem cdf_sums_bins_with_center_le (lp c x : Tensor R) (bs : list nat)
  (n : nat) :
  wf lp -> shape lp = bs ++ [n] -> wf c -> shape c = bs ++ [n] ->
  wf x -> shape x = bs -> (2 <= n)%nat ->
  exists d r,
    __init__ lp c = Some d /\ fst (cdf x d) = Some r /\
    shape r = bs /\ wf r /\
    forall k, (k < size bs)%nat ->
      nth k (data r) 0
      = cdf_spec (map Rtrigo_def.exp (nth k (rows_of lp) []))
                 (nth k (rows_of c) []) (nth k (data x) 0).
Proof.
  intros Hwl Hsl Hwc Hsc Hwx Hsx Hn.
  destruct (wf_rows lp bs n Hwl Hsl) as [Hlp HRl].
  destruct (wf_rows c bs n Hwc Hsc) as [Hc HRc].
  destruct x as [sx xs]. unfold wf in Hwx. cbn [shape data] in *. subst sx.
  eexists. eexists. split; [|split].
  - rewrite Hc at 1. now apply init_rows.
  - apply (cdf_rows _ bs n (rows_of lp) (rows_of c)); cbn; auto.
    now left.
  - cbn [shape data]. split; [reflexivity|]. split.
    + unfold wf. cbn [shape data].
      rewrite length_map, !zipWith_length, length_map.
      destruct HRl as [-> _], HRc as [-> _]. lia.
    + intros k Hk. destruct HRl as [Hl1 _], HRc as [Hl2 _].
      rewrite cdf_data_nth by (rewrite ?length_map; lia).
      rewrite cdf_row_spec. f_equal.
      apply (nth_map' _ _ _ []). lia.
Qed.

Lemma cdf_sums_bins_with_center_le_witness :
  exists d r,
    __init__ (mkT [2; 2]%nat [ln 0.5; ln 0.5; ln 0.25; ln 0.75])
             (mkT [2; 2]%nat [1; 2; 3; 4]) = Some d /\
    fst (cdf (mkT [2%nat] [1.5; 4]) d) = Some r /\
    shape r = [2%nat] /\ wf r /\
    forall k, (k < size [2%nat])%nat ->
      nth k (data r) 0
      = cdf_spec
          (map Rtrigo_def.exp
             (nth k (rows_of (mkT [2; 2]%nat
                                  [ln 0.5; ln 0.5; ln 0.25; ln 0.75])) []))
          (nth k (rows_of (mkT [2; 2]%nat [1; 2; 3; 4])) [])
          (nth k (data (mkT [2%nat] [1.5; 4])) 0).
Proof.
  apply (cdf_sums_bins_with_center_le
           (mkT [2; 2]%nat [ln 0.5; ln 0.5; ln 0.25; ln 0.75])
           (mkT [2; 2]%nat [1; 2; 3; 4])
           (mkT [2%nat] [1.5; 4]) [2%nat] 2);
    first [exact eq_refl | lia].
Defined.

(** * Monotonicity of the cumulative distribution *)

Lemma mask_of_le (c x1 x2 : R) :
  x1 <= x2 -> mask_of (Rleb c x1) <= mask_of (Rleb c x2).
Proof.
  intros H. unfold mask_of, Rleb.
  destruct (Rle_dec c x1), (Rle_dec c x2); lra.
Qed.

Lemma cdf_row_mono (l c : list R) (x1 x2 : R) :
  x1 <= x2 ->
  cdf_row (map Rtrigo_def.exp l) c x1 <= cdf_row (map Rtrigo_def.exp l) c x2.
Proof.
  intros H. unfold cdf_row. revert c.
  induction l as [|p l IH]; intros [|c0 c]; simpl; try lra.
  specialize (IH c). pose proof (exp_pos p). pose proof (mask_of_le c0 _ _ H).
  apply Rplus_le_compat; [apply Rmult_le_compat_l; lra | exact IH].
Qed.

(** C8: the cumulative distribution is non-decreasing in its argument, at
    every batch position. *)
Theorem cdf_non_decreasing (lp c x1 x2 : Tensor R) (bs : list nat) (n : nat) :
  wf lp -> shape lp = bs ++ [n] -> wf c -> shape c = bs ++ [n] ->
  wf x1 -> shape x1 = bs -> wf x2 -> shape x2 = bs -> (2 <= n)%nat ->
  (forall k, (k < size bs)%nat -> nth k (data x1) 0 <= nth k (data x2) 0) ->
  exists d r1 r2,
    __init__ lp c = Some d /\
    fst (cdf x1 d) = Some r1 /\ fst (cdf x2 d) = Some r2 /\
    forall k, (k < size bs)%nat -> nth k (data r1) 0 <= nth k (data r2) 0.
Proof.
  intros Hwl Hsl Hwc Hsc Hw1 Hs1 Hw2 Hs2 Hn Hle.
  destruct (wf_rows lp bs n Hwl Hsl) as [Hlp HRl].
  destruct (wf_rows c bs n Hwc Hsc) as [Hc HRc].
  destruct x1 as [sx1 xs1], x2 as [sx2 xs2]. unfold wf in Hw1, Hw2.
  cbn [shape data] in *. subst sx1 sx2.
  eexists. eexists. eexists. split; [|split; [|split]].
  - rewrite Hc at 1. now apply init_rows.
  - apply (cdf_rows _ bs n (rows_of lp) (rows_of c)); cbn; auto. now left.
  - apply (cdf_rows _ bs n (rows_of lp) (rows_of c)); cbn; auto. now left.
  - intros k Hk. cbn [data]. destruct HRl as [Hl1 _], HRc as [Hl2 _].
    rewrite !cdf_data_nth by (rewrite ?length_map; lia).
    rewrite (nth_map' _ _ _ []) by lia.
    apply cdf_row_mono. now apply Hle.
Qed.

Lemma cdf_non_decreasing_witness :
  exists d r1 r2,
    __init__ (mkT [1; 2]%nat [ln 0.5; ln 0.5]) (mkT [1; 2]%nat [1; 2])
    = Some d /\
    fst (cdf (mkT [1%nat] [1]) d) = Some r1 /\
    fst (cdf (mkT [1%nat] [2]) d) = Some r2 /\
    forall k, (k < size [1%nat])%nat -> nth k (data r1) 0 <= nth k (data r2) 0.
Proof.
  apply (cdf_non_decreasing
           (mkT [1; 2]%nat [ln 0.5; ln 0.5]) (mkT [1; 2]%nat [1; 2])
           (mkT [1%nat] [1]) (mkT [1%nat] [2]) [1%nat] 2);
    try exact eq_refl; try lia.
  intros [|k] Hk; simpl in *; [lra | lia].
Defined.

(** * Moments *)

Lemma bin_probs_run_ok (self self' : Binned) (o : option (Tensor R)) :
  cache_ok self -> bin_probs self = (o, self') ->
  o = Some (exp (bin_log_probs self)) /\ same_fields self self' /\
  cache_ok self'.
Proof.
  intros Hc E. destruct (bin_probs_run self Hc) as (s & E' & Hs & Hp & _).
  rewrite E in E'. injection E' as -> <-.
  repeat split; try apply Hs. right.
  destruct Hs as (_ & <- & _). exact Hp.
Qed.

Lemma mean_rows (self : Binned) bs n (lrows crows : list (list R)) :
  cache_ok self ->
  bin_log_probs self = of_rows bs n lrows ->
  bin_centers self = of_rows bs n crows ->
  Rows bs n lrows -> Rows bs n crows ->
  fst (mean self)
  = Some (mkT bs (zipWith mean_row (map (map Rtrigo_def.exp) lrows) crows)).
Proof.
  intros Hc Hlp Hcs HRl HRc.
  destruct (bin_probs_run self Hc) as (self' & E & Hs & _).
  unfold mean, mbind, attr, lift. rewrite E.
  destruct Hs as (<- & _). rewrite Hlp, Hcs.
  cbn [fst]. unfold broadcast_mul, exp. rewrite tmap_of_rows.
  rewrite broadcast_rows_rows by (assumption || now apply Rows_map_map).
  cbn [obind]. rewrite sum_rows
    by (apply Rows_zipWith; [now apply Rows_map_map|assumption]).
  now rewrite map_zipWith.
Qed.

Lemma stddev_rows (self : Binned) bs n (lrows crows : list (list R)) :
  cache_ok self ->
  bin_log_probs self = of_rows bs n lrows ->
  bin_centers self = of_rows bs n crows ->
  Rows bs n lrows -> Rows bs n crows ->
  fst (stddev self)
  = Some (mkT bs (map nd_sqrt
                    (zipWith radicand_row (map (map Rtrigo_def.exp) lrows)
                             crows))).
Proof.
  intros Hc Hlp Hcs HRl HRc.
  destruct (bin_probs self) as [o self'] eqn:E.
  destruct (bin_probs_run_ok _ _ _ Hc E) as (-> & Hs & Hc').
  unfold stddev, mbind, attr, lift. rewrite E.
  pose proof Hs as (Hs1 & Hs2 & _).
  pose proof (mean_rows self' bs n lrows crows Hc') as Hm.
  rewrite <- Hs1, <- Hs2 in Hm. specialize (Hm Hlp Hcs HRl HRc).
  rewrite <- Hs1. rewrite Hlp, Hcs.
  unfold broadcast_mul, exp, square. rewrite !tmap_of_rows.
  rewrite broadcast_rows_rows by (now repeat apply Rows_map_map).
  cbn [obind]. rewrite sum_rows
    by (apply Rows_zipWith; now apply Rows_map_map).
  destruct (mean self') as [om self''] eqn:Em. cbn [fst] in Hm. subst om.
  cbn [fst]. unfold broadcast_sub, tmap. cbn [shape data].
  destruct HRl as [Hl1 _], HRc as [Hl2 _].
  rewrite (broadcast_same _ _ _ bs); try reflexivity.
  - cbn [obind data]. unfold sqrt, tmap. cbn [shape data]. do 3 f_equal.
    rewrite map_zipWith, zipWith_map_r.
    generalize (map (map Rtrigo_def.exp) lrows) as P.
    clear. intros P. revert crows.
    induction P as [|p P IH]; intros [|c C]; simpl; auto.
    now rewrite IH.
  - unfold wf. cbn [shape data].
    rewrite length_map, !zipWith_length, !length_map. lia.
  - unfold wf. cbn [shape data].
    rewrite length_map, !zipWith_length, !length_map. lia.
Qed.

Lemma Rsum_zipWith_index (f : R -> R -> R) (p c : list R) :
  length p = length c ->
  Rsum (zipWith f p c)
  = Rsum (map (fun i => f (nth i p 0) (nth i c 0)) (seq 0 (length p))).
Proof.
  revert c; induction p as [|a p IH]; intros [|b c] H; simpl in *;
    try discriminate; [reflexivity|].
  rewrite IH by lia. now rewrite <- seq_shift, map_map.
Qed.

Lemma mean_row_spec (p c : list R) (n : nat) :
  length p = n -> length c = n -> mean_row p c = mean_spec n p c.
Proof.
  intros Hp Hc. unfold mean_row, mean_spec.
  rewrite Rsum_zipWith_index by lia. now rewrite Hp.
Qed.

Lemma radicand_row_spec (p c : list R) (n : nat) :
  length p = n -> length c = n -> radicand_row p c = radicand_spec n p c.
Proof.
  intros Hp Hc. unfold radicand_row, radicand_spec, ex2_row.
  rewrite (mean_row_spec p c n) by assumption.
  rewrite zipWith_map_r.
  rewrite (Rsum_zipWith_index (fun a b => a * (b * b))) by lia.
  rewrite Hp. simpl pow. rewrite Rmult_1_r. f_equal.
  f_equal. apply map_ext. intros i. now rewrite Rmult_1_r.
Qed.

Lemma example_probs :
  map (map Rtrigo_def.exp) [[ln 0.2; ln 0.3; ln 0.5]] = [[0.2; 0.3; 0.5]].
Proof. simpl. now rewrite !exp_ln by lra. Qed.

Lemma example_init :
  __init__ example_log_probs example_centers
  = Some {| bin_centers := example_centers;
            bin_log_probs := example_log_probs;
            _bin_probs := None;
            bin_edges := of_rows [1%nat] 4 (map edges_row [[1; 2; 3]]);
            exp_calls := 0 |}.
Proof.
  apply (init_rows example_log_probs [1%nat] 3 [[1; 2; 3]]); [|lia].
  split; [reflexivity|]. repeat constructor.
Qed.

Lemma example_rows_lp : Rows [1%nat] 3 [[ln 0.2; ln 0.3; ln 0.5]].
Proof. split; [reflexivity|]. repeat constructor. Qed.

Lemma example_rows_c : Rows [1%nat] 3 [[1; 2; 3]].
Proof. split; [reflexivity|]. repeat constructor. Qed.

Lemma example_mean_stddev :
  exists d m s,
    __init__ example_log_probs example_centers = Some d /\
    fst (mean d) = Some m /\ fst (stddev d) = Some s /\
    m = mkT [1%nat] [2.3] /\ s = mkT [1%nat] [Some (R_sqrt.sqrt 0.61)].
Proof.
  eexists. eexists. eexists. split; [apply example_init|].
  split; [|split].
  - apply (mean_rows _ [1%nat] 3 [[ln 0.2; ln 0.3; ln 0.5]] [[1; 2; 3]]);
      try reflexivity; [now left | apply example_rows_lp | apply example_rows_c].
  - apply (stddev_rows _ [1%nat] 3 [[ln 0.2; ln 0.3; ln 0.5]] [[1; 2; 3]]);
      try reflexivity; [now left | apply example_rows_lp | apply example_rows_c].
  - rewrite example_probs. split.
    + do 2 f_equal. unfold mean_row; simpl. f_equal. lra.
    + do 2 f_equal. unfold radicand_row, ex2_row, mean_row; simpl.
      unfold nd_sqrt.
      replace (0.2 * (1 * 1) + (0.3 * (2 * 2) + (0.5 * (3 * 3) + 0)) -
               (0.2 * 1 + (0.3 * 2 + (0.5 * 3 + 0))) *
               (0.2 * 1 + (0.3 * 2 + (0.5 * 3 + 0)))) with 0.61 by lra.
      destruct (Rle_dec 0 0.61); [reflexivity | lra].
Qed.

(** C7, as stated, fails on the example: the standard deviation the code
    returns is [sqrt(0.61)], which is not [sqrt(0.21)]. *)
Lemma stddev_example_is_not_sqrt_021 :
  exists d s,
    __init__ example_log_probs example_centers = Some d /\
    fst (stddev d) = Some s /\
    s = mkT [1%nat] [Some (R_sqrt.sqrt 0.61)] /\
    s <> mkT [1%nat] [Some (R_sqrt.sqrt 0.21)].
Proof.
  destruct example_mean_stddev as (d & m & s & Hd & _ & Hs & _ & E).
  exists d, s. repeat split; try assumption.
  rewrite E. intros H. injection H as H.
  apply sqrt_inj in H; lra.
Qed.

Lemma nd_sqrt_cases (x : R) :
  (0 <= x -> nd_sqrt x = Some (R_sqrt.sqrt x)) /\ (x < 0 -> nd_sqrt x = None).
Proof.
  unfold nd_sqrt. destruct (Rle_dec 0 x); split; intros; try reflexivity; lra.
Qed.

(** C7 (amended): at every batch position the mean is the sum over the
    bins of probability times center, and the standard deviation is the
    square root of the sum of probability times squared center minus the
    squared mean, not a number when that difference is negative; on the
    example the mean is 2.3 and the standard deviation is [sqrt(0.61)].
    The results have the batch shape when it has an axis (with none, the
    library returns an array of one entry). *)
Theorem mean_and_stddev_formulas :
  (forall (lp c : Tensor R) (bs : list nat) (n : nat),
     wf lp -> shape lp = bs ++ [n] -> wf c -> shape c = bs ++ [n] ->
     (2 <= n)%nat ->
     exists d m s,
       __init__ lp c = Some d /\
       fst (mean d) = Some m /\ fst (stddev d) = Some s /\
       (bs <> [] -> shape m = bs /\ shape s = bs) /\
       forall k, (k < size bs)%nat ->
         let p := map Rtrigo_def.exp (nth k (rows_of lp) []) in
         let cr := nth k (rows_of c) [] in
         nth k (data m) 0 = mean_spec n p cr /\
         (0 <= radicand_spec n p cr ->
          nth k (data s) None = Some (R_sqrt.sqrt (radicand_spec n p cr))) /\
         (radicand_spec n p cr < 0 -> nth k (data s) None = None))
  /\
  (exists d m s,
     __init__ example_log_probs example_centers = Some d /\
     fst (mean d) = Some m /\ fst (stddev d) = Some s /\
     m = mkT [1%nat] [2.3] /\ s = mkT [1%nat] [Some (R_sqrt.sqrt 0.61)]).
Proof.
  split; [|exact example_mean_stddev].
  intros lp c bs n Hwl Hsl Hwc Hsc Hn.
  destruct (wf_rows lp bs n Hwl Hsl) as [Hlp HRl].
  destruct (wf_rows c bs n Hwc Hsc) as [Hc HRc].
  eexists. eexists. eexists. split; [|split; [|split]].
  - rewrite Hc at 1. now apply init_rows.
  - apply (mean_rows _ bs n (rows_of lp) (rows_of c)); cbn; auto. now left.
  - apply (stddev_rows _ bs n (rows_of lp) (rows_of c)); cbn; auto. now left.
  - cbn [shape data]. split; [intros _; split; reflexivity|].
    intros k Hk.
    set (p := map Rtrigo_def.exp (nth k (rows_of lp) [])).
    set (cr := nth k (rows_of c) []).
    destruct HRl as [Hl1 HF1], HRc as [Hl2 HF2].
    rewrite Forall_forall in HF1, HF2.
    assert (Hp : length p = n).
    { subst p. rewrite length_map. apply HF1. apply nth_In. lia. }
    assert (Hcr : length cr = n) by (apply HF2; apply nth_In; lia).
    assert (Hpk : nth k (map (map Rtrigo_def.exp) (rows_of lp)) [] = p)
      by (apply (nth_map' _ _ _ []); lia).
    rewrite (nth_map' nd_sqrt _ _ 0)
      by (rewrite zipWith_length, length_map; lia).
    rewrite !(nth_zipWith _ _ _ _ [] [] 0) by (rewrite ?length_map; lia).
    rewrite Hpk. fold cr.
    rewrite (mean_row_spec p cr n), (radicand_row_spec p cr n) by assumption.
    split; [reflexivity|]. apply nd_sqrt_cases.
Qed.

Lemma mean_and_stddev_formulas_witness :
  exists d m s,
    __init__ (mkT [2; 2]%nat [ln 0.5; ln 0.5; ln 0.25; ln 0.75])
             (mkT [2; 2]%nat [1; 2; 3; 4]) = Some d /\
    fst (mean d) = Some m /\ fst (stddev d) = Some s /\
    shape m = [2%nat] /\ shape s = [2%nat].
Proof.
  destruct (proj1 mean_and_stddev_formulas
              (mkT [2; 2]%nat [ln 0.5; ln 0.5; ln 0.25; ln 0.75])
              (mkT [2; 2]%nat [1; 2; 3; 4]) [2%nat] 2%nat)
    as (d & m & s & H1 & H2 & H3 & H4 & _);
    try exact eq_refl; try lia.
  destruct (H4 ltac:(discriminate)) as [H5 H6].
  exists d, m, s. repeat split; assumption.
Defined.

(** * Density *)














(** * [BinnedOutput.distribution] *)

Lemma zipWith_mul_ones (cs r : list R) :
  length r = length cs -> zipWith Rmult cs (map (fun _ => 1) r) = cs.
Proof.
  revert r; induction cs as [|c cs IH]; intros [|x r] Hr; simpl in *;
    try discriminate; [reflexivity|].
  rewrite IH by lia. f_equal. lra.
Qed.

Lemma ones_rows (cs : list R) (rows : list (list R)) :
  Forall (fun r => length r = length cs) rows ->
  map (fun r => zipWith Rmult cs r) (map (map (fun _ => 1)) rows)
  = repeat cs (length rows).
Proof.
  induction 1 as [|r rows Hr _ IH]; simpl; [reflexivity|].
  now rewrite IH, zipWith_mul_ones.
Qed.

Lemma Rows_repeat {A} bs n (cs : list A) :
  length cs = n -> Rows bs n (repeat cs (size bs)).
Proof.
  intros H. split; [apply repeat_length|].
  apply Forall_forall. intros r Hr. apply repeat_spec in Hr. now subst.
Qed.

Lemma centers_broadcast_to_probs (ct probs : Tensor R) bs n (cs : list R) :
  wf probs -> shape probs = bs ++ [n] -> length cs = n ->
  ct = mkT [n] cs \/ ct = of_rows bs n (repeat cs (size bs)) ->
  broadcast_mul ct (ones_like probs)
  = Some (of_rows bs n (repeat cs (size bs))).
Proof.
  intros Hw Hs Hc Hct.
  destruct (wf_rows probs bs n Hw Hs) as [Hp HR].
  rewrite Hp. unfold ones_like, broadcast_mul. rewrite tmap_of_rows.
  pose proof HR as [Hl HF].
  destruct Hct as [-> | ->].
  - rewrite broadcast_vec_rows by (try assumption; now apply Rows_map_map).
    rewrite ones_rows, Hl; [reflexivity|].
    revert HF. apply Forall_impl. intros; congruence.
  - rewrite broadcast_rows_rows
      by (try apply Rows_repeat; try assumption; now apply Rows_map_map).
    do 2 f_equal. rewrite <- Hl.
    clear - HF Hc. induction HF as [|r rows Hr _ IH]; simpl; [reflexivity|].
    rewrite IH, zipWith_mul_ones by congruence. reflexivity.
Qed.

Lemma apply_scale bs n (rows : list (list R)) (scale : option (Tensor R)) :
  Rows bs n rows -> opt_ok bs scale ->
  match scale with
  | Some scale =>
    s <- expand_dims scale (-1) ;; broadcast_mul (of_rows bs n rows) s
  | None => Some (of_rows bs n rows)
  end
  = Some (of_rows bs n
            match scale with
            | Some s => zipWith (fun r x => map (fun a => a * x) r) rows
                                (data s)
            | None => rows
            end).
Proof.
  intros HR Ho. destruct scale as [[ss sd]|]; [|reflexivity].
  destruct Ho as [Hw Hs]. unfold wf in Hw. cbn [shape data] in *. subst ss.
  rewrite expand_dims_last. cbn [obind shape data].
  unfold broadcast_mul. now rewrite broadcast_rows_col.
Qed.

Lemma apply_loc bs n (rows : list (list R)) (loc : option (Tensor R)) :
  Rows bs n rows -> opt_ok bs loc ->
  match loc with
  | Some loc =>
    l <- expand_dims loc (-1) ;; broadcast_add (of_rows bs n rows) l
  | None => Some (of_rows bs n rows)
  end
  = Some (of_rows bs n
            match loc with
            | Some l => zipWith (fun r x => map (fun a => a + x) r) rows
                                (data l)
            | None => rows
            end).
Proof.
  intros HR Ho. destruct loc as [[ss sd]|]; [|reflexivity].
  destruct Ho as [Hw Hs]. unfold wf in Hw. cbn [shape data] in *. subst ss.
  rewrite expand_dims_last. cbn [obind shape data].
  unfold broadcast_add. now rewrite broadcast_rows_col.
Qed.

Lemma Rows_opt_step bs n (g : R -> R -> R) (rows : list (list R))
  (o : option (Tensor R)) :
  Rows bs n rows -> opt_ok bs o ->
  Rows bs n match o with
            | Some t => zipWith (fun r x => map (fun a => g a x) r) rows
                                (data t)
            | None => rows
            end.
Proof.
  intros HR Ho. destruct o as [t|]; [|assumption].
  destruct Ho as [Hw Hs]. apply Rows_zipWith_col; try assumption.
  - unfold wf in Hw. congruence.
  - intros; now rewrite length_map.
Qed.

(** C10: [distribution] hands the probability argument unchanged to
    [Binned], with centers equal, at every batch position, to the rank-1
    centers scaled (when a scale is given) and then shifted (when a
    location is given). *)
Theorem distribution_scales_then_shifts_centers (probs ct : Tensor R)
  (cs : list R) (loc scale : option (Tensor R)) (bs : list nat) (n : nat) :
  wf probs -> shape probs = bs ++ [n] -> length cs = n -> (2 <= n)%nat ->
  ct = mkT [n] cs \/ ct = of_rows bs n (repeat cs (size bs)) ->
  opt_ok bs loc -> opt_ok bs scale ->
  exists d,
    distribution (probs, ct) loc scale = Some d /\
    bin_log_probs d = probs /\
    shape (bin_centers d) = shape probs /\ wf (bin_centers d) /\
    forall k, (k < size bs)%nat ->
      nth k (rows_of (bin_centers d)) []
      = map (scale_then_shift (opt_at k scale) (opt_at k loc)) cs.
Proof.
  intros Hw Hs Hc Hn Hct Hloc Hscale.
  unfold distribution. cbn [fst snd].
  rewrite (centers_broadcast_to_probs ct probs bs n cs) by assumption.
  cbn [obind].
  pose proof (Rows_repeat bs n cs Hc) as HR0.
  rewrite (apply_scale bs n _ scale HR0 Hscale). cbn [obind].
  pose proof (Rows_opt_step bs n Rmult _ scale HR0 Hscale) as HR1.
  rewrite (apply_loc bs n _ loc HR1 Hloc). cbn [obind].
  pose proof (Rows_opt_step bs n Rplus _ loc HR1 Hloc) as HR2.
  rewrite init_rows by assumption.
  eexists. split; [reflexivity|]. cbn [bin_log_probs bin_centers].
  split; [reflexivity|]. split; [now rewrite Hs|].
  split; [now apply of_rows_wf|].
  intros k Hk. rewrite rows_of_of_rows by assumption.
  destruct scale as [[ss sd]|], loc as [[ls ld]|];
    cbn [opt_ok wf shape data opt_at] in *;
    repeat match goal with H : _ /\ _ |- _ => destruct H end;
    unfold wf in *; cbn [shape data] in *; subst.
  - rewrite (nth_zipWith _ _ _ _ [] 0 []) by (rewrite ?zipWith_length,
      ?repeat_length; lia).
    rewrite (nth_zipWith _ _ _ _ [] 0 []) by (rewrite ?repeat_length; lia).
    rewrite nth_repeat_lt by lia. now rewrite map_map.
  - rewrite (nth_zipWith _ _ _ _ [] 0 []) by (rewrite ?repeat_length; lia).
    now rewrite nth_repeat_lt by lia.
  - rewrite (nth_zipWith _ _ _ _ [] 0 []) by (rewrite ?repeat_length; lia).
    now rewrite nth_repeat_lt by lia.
  - rewrite nth_repeat_lt by lia. unfold scale_then_shift.
    now rewrite map_id.
Qed.

Lemma distribution_scales_then_shifts_centers_witness :
  exists d,
    distribution (mkT [2; 2]%nat [ln 0.5; ln 0.5; ln 0.25; ln 0.75],
                  mkT [2%nat] [1; 2])
                 (Some (mkT [2%nat] [10; 20])) (Some (mkT [2%nat] [2; 3]))
    = Some d /\
    bin_log_probs d = mkT [2; 2]%nat [ln 0.5; ln 0.5; ln 0.25; ln 0.75] /\
    shape (bin_centers d) = [2; 2]%nat /\ wf (bin_centers d) /\
    forall k, (k < size [2%nat])%nat ->
      nth k (rows_of (bin_centers d)) []
      = map (scale_then_shift
               (opt_at k (Some (mkT [2%nat] [2; 3])))
               (opt_at k (Some (mkT [2%nat] [10; 20])))) [1; 2].
Proof.
  apply (distribution_scales_then_shifts_centers
           (mkT [2; 2]%nat [ln 0.5; ln 0.5; ln 0.25; ln 0.75])
           (mkT [2%nat] [1; 2]) [1; 2]
           (Some (mkT [2%nat] [10; 20])) (Some (mkT [2%nat] [2; 3]))
           [2%nat] 2%nat);
    try exact eq_refl; try lia.
  - left; reflexivity.
  - split; exact eq_refl.
  - split; exact eq_refl.
Defined.

(** * Array facts for the quantile scan *)

Lemma transpose_length {A} (d : A) (n : nat) (M : list (list A)) :
  length (transpose d n M) = n.
Proof.
  revert M; induction n as [|n IH]; intros M; simpl; [reflexivity|].
  now rewrite IH.
Qed.

Lemma transpose_rows {A} (d : A) (n : nat) (M : list (list A)) :
  Forall (fun c => length c = length M) (transpose d n M).
Proof.
  revert M; induction n as [|n IH]; intros M; simpl; constructor.
  - apply length_map.
  - specialize (IH (map (@tl A) M)). now rewrite length_map in IH.
Qed.

Lemma transpose_singletons {A} (d : A) (n : nat) (M : list (list A)) :
  Forall (fun r => length r = n) M ->
  transpose [] n (map (map (fun x => [x])) M)
  = map (map (fun x => [x])) (transpose d n M).
Proof.
  revert M; induction n as [|n IH]; intros M HF; [reflexivity|].
  cbn [transpose map]. f_equal.
  - rewrite !map_map. apply map_ext_in. intros r Hr.
    rewrite Forall_forall in HF. specialize (HF r Hr).
    destruct r; [discriminate|reflexivity].
  - rewrite <- IH.
    + f_equal. rewrite !map_map. apply map_ext. intros r. now destruct r.
    + rewrite Forall_map. revert HF. apply Forall_impl.
      intros r Hr. destruct r; simpl in *; [discriminate|lia].
Qed.

(** [swapaxes(0, 1)] of a matrix given by its rows: its columns. *)
Lemma swapaxes_rows {A} (d : A) (B N : nat) (rows : list (list A)) :
  Rows [B] N rows ->
  swapaxes_0_1 (of_rows [B] N rows)
  = Some (of_rows [N] B (transpose d N rows)).
Proof.
  intros HR. unfold swapaxes_0_1, of_rows. cbn [shape data app].
  pose proof (axis_blocks_last [B] N rows HR) as Hb.
  cbn [app length] in Hb. rewrite Hb.
  rewrite (transpose_singletons d) by apply HR.
  now rewrite unblocks_singletons.
Qed.

Lemma Rows_transpose {A} (d : A) (B N : nat) (rows : list (list A)) :
  Rows [B] N rows -> Rows [N] B (transpose d N rows).
Proof.
  intros [Hl HF]. split.
  - rewrite transpose_length. simpl. lia.
  - pose proof (transpose_rows d N rows) as H. simpl in Hl.
    revert H. apply Forall_impl. intros; lia.
Qed.

(** The first piece along the first axis. *)
Lemma slice_first {A} (N B : nat) (cols : list (list A)) :
  Rows [N] B cols -> (1 <= N)%nat ->
  slice_axis (of_rows [N] B cols) 0 0 (Some 1%Z)
  = Some (mkT [1; B]%nat (hd [] cols)).
Proof.
  intros [Hl HF] HN. unfold slice_axis, of_rows, ndim.
  cbn [shape data app length]. rewrite norm_axis_zero by lia.
  cbn [obind nth]. simpl in Hl.
  destruct (Z.ltb_spec 0 0); [lia|]. destruct (Z.ltb_spec 1 0); [lia|].
  destruct (Z.leb_spec 0 0); [|lia].
  destruct (Z.leb_spec 1 (Z.of_nat N)); [|lia]. cbn [andb].
  unfold axis_blocks, set_dim. cbn [firstn skipn size fold_right nth app].
  rewrite Nat.mul_1_r in *. cbn [chunks map].
  rewrite (firstn_all2 (n := (N * B)%nat) (List.concat cols))
    by (rewrite (length_concat_uniform B cols HF); lia).
  rewrite (chunks_concat' B) by (assumption || lia).
  replace (Z.to_nat (1 - 0)) with 1%nat by lia.
  replace (Z.to_nat 0) with 0%nat by lia.
  destruct cols as [|c cols]; [simpl in Hl; lia|].
  unfold unblocks. simpl. now rewrite !app_nil_r.
Qed.

Ltac eqb_cases :=
  repeat match goal with
  | |- context [Nat.eqb ?a ?b] => destruct (Nat.eqb_spec a b); subst
  end; cbn [obind]; try reflexivity; try congruence; try lia.

Lemma bshape_col_row (B L : nat) : bshape [B; 1%nat] [1%nat; L] = Some [B; L].
Proof. cbn [bshape]. eqb_cases. Qed.

Lemma bshape_rows_row (B L : nat) : bshape [B; L] [1%nat; L] = Some [B; L].
Proof. cbn [bshape]. eqb_cases. Qed.

Lemma bshape_mid (B L N : nat) :
  bshape [B; 1%nat; N] [B; L; 1%nat] = Some [B; L; N].
Proof. cbn [bshape]. eqb_cases. Qed.

Lemma broadcast_col_row {A B C} (f : A -> B -> C) (nb nl : nat)
  (xs : list A) (ys : list B) :
  length xs = nb -> length ys = nl ->
  broadcast f (mkT [nb; 1%nat] xs) (mkT [1%nat; nl] ys)
  = Some (of_rows [nb] nl (map (fun x => map (f x) ys) xs)).
Proof.
  intros Hx Hy. unfold broadcast, ndim, of_rows. cbn [shape data length].
  rewrite !pad_shape_id by (simpl; lia). rewrite bshape_col_row.
  cbn [obind app].
  pose proof (bcast_data_last [nb] nl xs ltac:(simpl; lia)) as H1.
  pose proof (bcast_data_tile [nb] nl ys Hy) as H2.
  cbn [app length repeat size fold_right] in H1, H2.
  rewrite H1, H2, Nat.mul_1_r. do 2 f_equal.
  subst nb.
  rewrite (zipWith_concat_rows_r f nl).
  - f_equal. clear. induction xs as [|x xs IH]; simpl; [reflexivity|].
    now rewrite IH.
  - apply Forall_forall. intros r Hr. apply repeat_spec in Hr. now subst.
Qed.

Lemma broadcast_rows_row {A B C} (f : A -> B -> C) (nb nl : nat)
  (rows : list (list A)) (ys : list B) :
  Rows [nb] nl rows -> length ys = nl ->
  broadcast f (of_rows [nb] nl rows) (mkT [1%nat; nl] ys)
  = Some (of_rows [nb] nl (map (fun r => zipWith f r ys) rows)).
Proof.
  intros HR Hy. pose proof (of_rows_wf _ _ _ HR) as Hwf.
  unfold broadcast, ndim, of_rows, wf in *. cbn [shape data length app] in *.
  rewrite !pad_shape_id by (simpl; lia). rewrite bshape_rows_row.
  cbn [obind]. rewrite bcast_data_same by assumption.
  pose proof (bcast_data_tile [nb] nl ys Hy) as H2.
  cbn [app length repeat size fold_right] in H2. rewrite H2.
  destruct HR as [Hl HF]. cbn [size fold_right] in *.
  rewrite Nat.mul_1_r in *. rewrite <- Hl. do 2 f_equal.
  apply zipWith_concat_tile_r. revert HF. apply Forall_impl.
  intros; congruence.
Qed.

Lemma bcast_data_cons {A} (d0 m : nat) (s out : list nat) (d : list A) :
  bcast_data (d0 :: s) (m :: out) d
  = List.concat
      (if Nat.eqb d0 m
       then map (bcast_data s out) (chunks (size s) d0 d)
       else List.concat
              (repeat (map (bcast_data s out) (chunks (size s) d0 d)) m)).
Proof. reflexivity. Qed.

Lemma concat_map_concat {A B} (g : A -> list B) (rows : list (list A)) :
  List.concat (map g (List.concat rows))
  = List.concat (map (fun r => List.concat (map g r)) rows).
Proof. now rewrite concat_map, concat_concat, map_map. Qed.

Lemma zipWith_tile_rep {A B C} (f : A -> B -> C) (crow : list A)
  (zrow : list B) :
  zipWith f (List.concat (repeat crow (length zrow)))
            (List.concat (map (fun z => repeat z (length crow)) zrow))
  = List.concat (map (fun z => map (fun c => f c z) crow) zrow).
Proof.
  induction zrow as [|z zrow IH]; simpl; [reflexivity|].
  rewrite zipWith_app by now rewrite repeat_length.
  now rewrite IH, zipWith_repeat_r.
Qed.

(** Centers of shape [(B, 1, N)] against an array of shape [(B, L, 1)]. *)
Lemma broadcast_mid {A B C} (f : A -> B -> C) (nb nl n : nat)
  (crows : list (list A)) (zrows : list (list B)) :
  Rows [nb] n crows -> Rows [nb] nl zrows ->
  broadcast f (mkT [nb; 1%nat; n] (List.concat crows))
              (mkT [nb; nl; 1%nat] (List.concat zrows))
  = Some (of_rows [nb; nl] n
            (List.concat
               (zipWith (fun crow zrow =>
                           map (fun z => map (fun c => f c z) crow) zrow)
                        crows zrows))).
Proof.
  intros [Hlc HFc] [Hlz HFz]. cbn [size fold_right] in *.
  rewrite Nat.mul_1_r in *.
  unfold broadcast, ndim, of_rows. cbn [shape data length app].
  rewrite !pad_shape_id by (simpl; lia). rewrite bshape_mid. cbn [obind].
  do 2 f_equal.
  (* the centers, replicated along the level axis *)
  assert (H1 : bcast_data [nb; 1%nat; n] [nb; nl; n] (List.concat crows)
               = List.concat (map (fun r => List.concat (repeat r nl)) crows)).
  { rewrite bcast_data_cons, Nat.eqb_refl.
    replace (size [1%nat; n]) with n by (simpl; lia).
    rewrite (chunks_concat' n) by assumption.
    f_equal. apply map_ext_in. intros r Hr.
    rewrite Forall_forall in HFc.
    pose proof (bcast_data_tile [nl] n r (HFc r Hr)) as H.
    cbn [app length repeat size fold_right] in H.
    rewrite Nat.mul_1_r in H. exact H. }
  (* the other array, replicated along the bin axis *)
  assert (H2 : bcast_data [nb; nl; 1%nat] [nb; nl; n] (List.concat zrows)
               = List.concat
                   (map (fun r => List.concat (map (fun z => repeat z n) r))
                        zrows)).
  { pose proof (bcast_data_last [nb; nl] n (List.concat zrows)) as H.
    cbn [app size fold_right] in H. rewrite H.
    - apply concat_map_concat.
    - rewrite (length_concat_uniform nl) by assumption. lia. }
  rewrite H1, H2.
  rewrite (zipWith_concat_rows f (nl * n)).
  - rewrite concat_concat. f_equal.
    rewrite zipWith_map_l, zipWith_map_r, map_zipWith.
    clear - HFc HFz. revert zrows HFz.
    induction HFc as [|c crows Hc _ IH]; intros zrows HFz; [reflexivity|].
    destruct HFz as [|z zrows Hz HFz]; [reflexivity|].
    cbn [zipWith]. rewrite IH by assumption. f_equal.
    subst. apply zipWith_tile_rep.
  - rewrite Forall_map. revert HFc. apply Forall_impl. intros r Hr.
    rewrite (length_concat_uniform n), repeat_length; [reflexivity|].
    apply Forall_forall. intros x Hx. apply repeat_spec in Hx. now subst.
  - rewrite Forall_map. revert HFz. apply Forall_impl. intros r Hr.
    rewrite (length_concat_uniform n), length_map, Hr; [reflexivity|].
    rewrite Forall_map. apply Forall_forall. intros; apply repeat_length.
Qed.

Lemma nth_singletons (row : list R) (j : nat) :
  nth 0 (nth j (map (fun x => [x]) row) []) 0 = nth j row 0.
Proof.
  revert j; induction row as [|x row IH]; intros [|j]; simpl; auto.
Qed.

Lemma pick_rows bs n (rows : list (list R)) (idata : list Z) :
  Rows bs n rows -> length idata = size bs ->
  pick (of_rows bs n rows) (mkT bs idata) (-1)
  = Some (mkT bs (zipWith (fun row i => nth (clip_index n i) row 0)
                          rows idata)).
Proof.
  intros HR Hi. unfold pick, of_rows, ndim. cbn [shape data].
  rewrite norm_axis_snoc. cbn [obind].
  rewrite del_dim_last, list_eqb_refl, nth_middle.
  rewrite axis_blocks_last, firstn_snoc_len, skipn_snoc_S by assumption.
  cbn [size fold_right seq]. do 2 f_equal.
  rewrite <- Hi, chunks_singletons. clear.
  revert idata; induction rows as [|r rows IH]; intros [|i idata];
    simpl; auto.
  now rewrite IH, nth_singletons.
Qed.

(** * The quantile scan *)

Lemma qstep_cases (level p : R) (st : R * Z) :
  qstep level p st
  = (fst st + p,
     if Rlt_dec level (fst st + p) then snd st else wrap32 (snd st + 1)).
Proof.
  unfold qstep, mask_of, Rltb. cbv zeta. f_equal.
  destruct (Rlt_dec level (fst st + p));
    destruct (Req_dec_T _ 0); try reflexivity; lra.
Qed.

Lemma combine_zipWith {A B} (l1 : list A) (l2 : list B) :
  combine l1 l2 = zipWith pair l1 l2.
Proof.
  revert l2; induction l1 as [|a l1 IH]; intros [|b l2]; simpl; auto.
  now rewrite IH.
Qed.

Lemma step_row_fst (row : list (R * Z)) (levels : list R) (pb : R) :
  length row = length levels ->
  map (fun a => a + pb) (map fst row)
  = map fst (zipWith (fun st l => qstep l pb st) row levels).
Proof.
  revert levels; induction row as [|st row IH]; intros [|l levels] H;
    cbn [length] in H; try discriminate; [reflexivity|].
  cbn [zipWith map fst snd]. rewrite (IH levels) by lia. reflexivity.
Qed.

Lemma step_row_snd (row : list (R * Z)) (levels : list R) (pb : R) :
  zipWith (fun c xy => if Req_dec_T c 0 then snd xy else fst xy)
    (zipWith (fun x y => mask_of (Rltb y x))
             (map (fun a => a + pb) (map fst row)) levels)
    (zipWith pair (map snd row)
             (map (fun i => wrap32 (i + 1)) (map snd row)))
  = map snd (zipWith (fun st l => qstep l pb st) row levels).
Proof.
  revert levels; induction row as [|st row IH]; intros [|l levels];
    try reflexivity.
  cbn [zipWith map fst snd]. rewrite (IH levels). reflexivity.
Qed.

Lemma Rows_step_rows nb nl levels S col :
  Rows [nb] nl S -> length col = nb -> length levels = nl ->
  Rows [nb] nl (step_rows levels S col).
Proof.
  intros [HS HF] Hc Hl. split.
  - unfold step_rows. rewrite zipWith_length. simpl in *. lia.
  - unfold step_rows. clear HS Hc. revert col.
    induction HF as [|r S Hr _ IH]; intros [|x col]; simpl;
      constructor; auto.
    rewrite zipWith_length. lia.
Qed.

Lemma step_tensor nb nl (levels col : list R) (S : list (list (R * Z))) :
  Rows [nb] nl S -> length col = nb -> length levels = nl ->
  step (mkT [1%nat; nl] levels) (mkT [nb] col)
       (of_rows [nb] nl (map (map fst) S), of_rows [nb] nl (map (map snd) S))
  = Some (of_rows [nb] nl (map (map fst) (step_rows levels S col)),
          of_rows [nb] nl (map (map snd) (step_rows levels S col))).
Proof.
  intros HR Hc Hl. unfold step.
  unfold expand_dims, ndim. cbn [shape data length].
  rewrite norm_new_axis_one by lia. cbn [obind].
  unfold ins_dim. cbn [firstn skipn app].
  change [nb; 1%nat] with ([nb] ++ [1%nat]).
  assert (HRf : Rows [nb] nl (map (map fst) S)) by now apply Rows_map_map.
  assert (HRs : Rows [nb] nl (map (map snd) S)) by now apply Rows_map_map.
  unfold broadcast_add.
  rewrite broadcast_rows_col by (try assumption; simpl; lia).
  cbn [obind]. unfold broadcast_greater.
  assert (HRc : Rows [nb] nl
            (zipWith (fun r x => map (fun a => a + x) r)
                     (map (map fst) S) col)).
  { apply Rows_zipWith_col; try assumption; [simpl; lia|].
    intros; now rewrite length_map. }
  rewrite broadcast_rows_row by assumption. cbn [obind].
  unfold where_, of_rows, tmap. cbn [shape data].
  rewrite !list_eqb_refl. cbn [andb obind].
  destruct HR as [HS HF].
  assert (Hfst : zipWith (fun r x => map (fun a => a + x) r)
                         (map (map fst) S) col
                 = map (map fst) (step_rows levels S col)).
  { unfold step_rows. clear - HF Hl. revert col.
    induction HF as [|r S Hr _ IH]; intros [|x col]; simpl; auto.
    rewrite IH. f_equal. apply step_row_fst. lia. }
  do 3 f_equal.
  - now rewrite Hfst.
  - rewrite concat_map, combine_zipWith.
    rewrite (zipWith_concat_rows pair nl)
      by (rewrite ?Forall_map; revert HF; apply Forall_impl;
          intros; now rewrite ?length_map).
    rewrite (zipWith_concat_rows _ nl).
    + f_equal. unfold step_rows. clear. revert col.
      induction S as [|r S IH]; intros [|x col]; simpl; auto.
      rewrite IH. f_equal. apply step_row_snd.
    + rewrite Forall_map. destruct HRc as [_ HFc]. revert HFc.
      apply Forall_impl. intros r Hr. rewrite zipWith_length. lia.
    + clear - HF. induction HF as [|r S Hr _ IH]; simpl; constructor; auto.
      rewrite zipWith_length, !length_map. lia.
Qed.

Lemma foreach_cols {A S} (body : Tensor A -> S -> option S) (N B : nat)
  (cols : list (list A)) (init : S) :
  Rows [N] B cols ->
  foreach body (of_rows [N] B cols) init
  = fold_left (fun st piece => s <- st ;; body (mkT [B] piece) s)
              cols (Some init).
Proof.
  intros [Hl HF]. unfold foreach, of_rows. cbn [shape data app].
  cbn [size fold_right] in *. rewrite Nat.mul_1_r in *.
  now rewrite (chunks_concat' B) by assumption.
Qed.

Lemma scan_fold nb nl (levels : list R) (cols : list (list R))
  (S : list (list (R * Z))) :
  Rows [nb] nl S -> Forall (fun c => length c = nb) cols ->
  length levels = nl ->
  fold_left (fun st piece =>
               s <- st ;; step (mkT [1%nat; nl] levels) (mkT [nb] piece) s)
            cols
            (Some (of_rows [nb] nl (map (map fst) S),
                   of_rows [nb] nl (map (map snd) S)))
  = Some (of_rows [nb] nl (map (map fst) (fold_left (step_rows levels) cols S)),
          of_rows [nb] nl (map (map snd) (fold_left (step_rows levels) cols S))).
Proof.
  intros HR HF Hl. revert S HR.
  induction HF as [|c cols Hc _ IH]; intros S HR; [reflexivity|].
  cbn [fold_left obind]. rewrite step_tensor by assumption.
  apply IH. now apply Rows_step_rows.
Qed.

Lemma zipWith_zipWith_same {A B C} (F : B -> A -> C) (G : B -> A -> B)
  (row : list B) (levels : list A) :
  zipWith F (zipWith G row levels) levels
  = zipWith (fun st l => F (G st l) l) row levels.
Proof.
  revert levels; induction row as [|st row IH]; intros [|l levels];
    simpl; auto. now rewrite IH.
Qed.

Lemma zipWith_id_l {A B} (row : list A) (levels : list B) :
  length row = length levels -> zipWith (fun st _ => st) row levels = row.
Proof.
  revert levels; induction row as [|st row IH]; intros [|l levels] H;
    simpl in *; try discriminate; [reflexivity|]. now rewrite IH by lia.
Qed.

(** Scanning the columns of the probabilities one after the other is
    scanning every row on its own. *)
Lemma fold_step_rows (levels : list R) (N : nat) (prows : list (list R))
  (S : list (list (R * Z))) :
  Forall (fun r => length r = N) prows ->
  length S = length prows ->
  Forall (fun r => length r = length levels) S ->
  fold_left (step_rows levels) (transpose 0 N prows) S
  = zipWith (fun srow prow =>
               zipWith (fun st l => fold_left (fun st p => qstep l p st)
                                              prow st)
                       srow levels)
            S prows.
Proof.
  revert prows S; induction N as [|N IH]; intros prows S HF HS HFS.
  - cbn [transpose fold_left]. revert S HS HFS.
    induction HF as [|r prows Hr _ IHp]; intros [|s S] HS HFS;
      simpl in *; try discriminate; [reflexivity|].
    inversion HFS; subst.
    destruct r; [|discriminate]. cbn [fold_left].
    rewrite zipWith_id_l by assumption. f_equal. apply IHp; [lia|assumption].
  - cbn [transpose fold_left]. rewrite IH.
    + unfold step_rows. clear - HF. revert S.
      induction HF as [|r prows Hr _ IHp]; intros [|s S]; simpl; auto.
      rewrite IHp. f_equal.
      destruct r as [|p r]; [discriminate|]. cbn [hd tl fold_left].
      apply zipWith_zipWith_same.
    + rewrite Forall_map. revert HF. apply Forall_impl.
      intros r Hr. destruct r; simpl in *; [discriminate|lia].
    + unfold step_rows. rewrite zipWith_length, !length_map. lia.
    + unfold step_rows. clear - HFS. revert prows.
      induction HFS as [|s S Hs _ IHs]; intros [|r prows]; simpl;
        constructor; auto.
      rewrite zipWith_length. lia.
Qed.

Lemma fold_step_rows_init (levels : list R) (N : nat)
  (prows : list (list R)) :
  Forall (fun r => length r = N) prows ->
  fold_left (step_rows levels) (transpose 0 N prows)
            (repeat (map (fun _ => (0, 0%Z)) levels) (length prows))
  = map (fun prow => map (qscan prow) levels) prows.
Proof.
  intros HF. rewrite fold_step_rows; try assumption.
  - rewrite zipWith_repeat_l. apply map_ext. intros prow.
    now rewrite zipWith_map_l, zipWith_diag.
  - apply repeat_length.
  - apply Forall_forall. intros r Hr. apply repeat_spec in Hr. subst.
    apply length_map.
Qed.

Lemma trunc32_0 : trunc32 0 = 0%Z.
Proof.
  unfold trunc32. destruct (Rle_dec 0 0); [|lra].
  assert (H : 0%Z = Int_part 0) by (apply Int_part_spec; simpl; lra).
  now rewrite <- H.
Qed.

Lemma map_const_repeat {A B} (b : B) (l : list A) :
  map (fun _ => b) l = repeat b (length l).
Proof. induction l as [|a l IH]; simpl; [reflexivity|]. now rewrite IH. Qed.

Lemma map_repeat {A B} (f : A -> B) (a : A) (n : nat) :
  map f (repeat a n) = repeat (f a) n.
Proof. induction n as [|n IH]; simpl; [reflexivity|]. now rewrite IH. Qed.

Lemma quantile_scan_rows (B N L : nat) (prows : list (list R))
  (levels : list R) :
  Rows [B] N prows -> length levels = L -> (1 <= N)%nat ->
  quantile_scan (of_rows [B] N prows) (mkT [L] levels)
  = Some (of_rows [B] L (repeat (map (fun _ => 0) levels) B),
          (of_rows [B] L (map (fun prow => map (fun l => fst (qscan prow l))
                                               levels) prows),
           of_rows [B] L (map (fun prow => map (fun l => snd (qscan prow l))
                                               levels) prows))).
Proof.
  intros HR HL HN. unfold quantile_scan.
  rewrite (swapaxes_rows 0) by assumption. cbn [obind].
  pose proof (Rows_transpose 0 B N prows HR) as HRc.
  rewrite slice_first by assumption. cbn [obind].
  unfold squeeze, ndim. cbn [shape data length nth].
  rewrite norm_axis_zero by lia. cbn [obind nth Nat.eqb].
  unfold del_dim. cbn [firstn skipn app].
  unfold expand_dims, ndim, zeros_like, tmap. cbn [shape data length].
  rewrite norm_new_axis_zero, norm_new_axis_one by lia. cbn [obind].
  unfold ins_dim. cbn [firstn skipn app].
  assert (Hhd : length (hd [] (transpose 0 N prows)) = B).
  { destruct HRc as [Hl HF]. simpl in Hl.
    destruct (transpose 0 N prows) as [|c cols]; [simpl in Hl; lia|].
    inversion HF; subst. reflexivity. }
  unfold broadcast_add.
  rewrite (broadcast_col_row Rplus B L)
    by (rewrite ?length_map; assumption).
  cbn [obind shape data].
  assert (HB : length prows = B) by (destruct HR as [Hl _]; simpl in Hl; lia).
  assert (Hz : map (fun x => map (Rplus x) (map (fun _ : R => 0) levels))
                   (map (fun _ : R => 0) (hd [] (transpose 0 N prows)))
               = map (map fst)
                     (repeat (map (fun _ : R => (0, 0%Z)) levels) B)).
  { rewrite map_map, map_const_repeat, Hhd, map_repeat. f_equal.
    rewrite !map_map. apply map_ext. intros; simpl. lra. }
  rewrite Hz.
  assert (Hi : astype_int32
                 (of_rows [B] L
                    (map (map fst)
                       (repeat (map (fun _ : R => (0, 0%Z)) levels) B)))
               = of_rows [B] L
                   (map (map snd)
                      (repeat (map (fun _ : R => (0, 0%Z)) levels) B))).
  { unfold astype_int32. rewrite tmap_of_rows. f_equal.
    rewrite !map_repeat. f_equal. rewrite !map_map.
    apply map_ext. intros; simpl. apply trunc32_0. }
  rewrite Hi. clear Hz Hi Hhd.
  rewrite foreach_cols by assumption.
  rewrite scan_fold.
  - cbn [obind]. subst B.
    rewrite !fold_step_rows_init by apply HR.
    rewrite !map_repeat, !map_map. cbn [fst].
    do 4 f_equal; apply map_ext; intros; apply map_map.
  - split; [rewrite repeat_length; simpl; lia|].
    apply Forall_forall. intros r Hr. apply repeat_spec in Hr. subst.
    now rewrite length_map.
  - apply HRc.
  - assumption.
Qed.

Lemma transpose_map_levels {A B C} (d : C) (g : A -> B -> C) (xs : list A)
  (levels : list B) :
  transpose d (length levels) (map (fun x => map (g x) levels) xs)
  = map (fun l => map (fun x => g x l) xs) levels.
Proof.
  induction levels as [|l levels IH]; [reflexivity|].
  cbn [length transpose map]. rewrite !map_map. cbn [hd tl map].
  f_equal. exact IH.
Qed.

Lemma zipWith_as_map {A B C} (f : A -> B -> C) (l1 : list A) (l2 : list B) :
  zipWith f l1 l2 = map (fun ab => f (fst ab) (snd ab)) (combine l1 l2).
Proof.
  revert l2; induction l1 as [|a l1 IH]; intros [|b l2]; simpl; auto.
  now rewrite IH.
Qed.

Lemma map_plus_0 (crow : list R) : map (fun c => c + 0) crow = crow.
Proof.
  induction crow as [|c crow IH]; simpl; [reflexivity|].
  rewrite IH. f_equal. lra.
Qed.

(** The value [quantile] returns, from the rows of log-probabilities and
    centers: for every level and batch position, the center at the index
    the scan of that row ends on. *)
Lemma quantile_rows (self : Binned) (B N L : nat)
  (lrows crows : list (list R)) (levels : list R) :
  cache_ok self ->
  bin_log_probs self = of_rows [B] N lrows ->
  bin_centers self = of_rows [B] N crows ->
  Rows [B] N lrows -> Rows [B] N crows -> length levels = L ->
  (1 <= N)%nat ->
  fst (quantile (mkT [L] levels) self)
  = Some (of_rows [L] B
            (map (fun l =>
                    zipWith (fun crow prow =>
                               nth (clip_index N (snd (qscan prow l))) crow 0)
                            crows (map (map Rtrigo_def.exp) lrows))
                 levels)).
Proof.
  intros Hc Hlp Hcs HRl HRc HL HN.
  destruct (bin_probs_run self Hc) as (self' & E & Hs & _).
  unfold quantile, mbind, attr, lift. rewrite E.
  destruct Hs as (<- & _). rewrite Hlp, Hcs. cbn [fst].
  unfold exp. rewrite tmap_of_rows.
  set (prows := map (map Rtrigo_def.exp) lrows).
  assert (HRp : Rows [B] N prows) by now apply Rows_map_map.
  rewrite (quantile_scan_rows B N L) by assumption. cbn [obind].
  assert (E1 : expand_dims (of_rows [B] N crows) 1
               = Some (mkT [B; 1%nat; N] (List.concat crows))).
  { unfold expand_dims, of_rows, ndim. cbn [shape data app length].
    now rewrite norm_new_axis_one by lia. }
  assert (E2 : expand_dims
                 (of_rows [B] L (repeat (map (fun _ : R => 0) levels) B)) (-1)
               = Some (mkT [B; L; 1%nat]
                         (List.concat
                            (repeat (map (fun _ : R => 0) levels) B)))).
  { now rewrite expand_dims_last. }
  rewrite E1, E2. cbn [obind].
  unfold broadcast_add.
  assert (HRz : Rows [B] L (repeat (map (fun _ : R => 0) levels) B)).
  { split; [rewrite repeat_length; simpl; lia|].
    apply Forall_forall. intros r Hr. apply repeat_spec in Hr. subst.
    now rewrite length_map. }
  rewrite (broadcast_mid Rplus B L N) by assumption. cbn [obind].
  pose proof HRc as [HlB HFc]. pose proof HRp as [HlP HFp].
  cbn [size fold_right] in HlB, HlP. rewrite Nat.mul_1_r in HlB, HlP.
  rewrite <- HlB at 2. rewrite zipWith_repeat_r.
  (* the centers, one copy per level *)
  assert (HX : map (fun a : list R =>
                      map (fun z : R => map (fun c : R => c + z) a)
                          (map (fun _ : R => 0) levels)) crows
               = map (fun crow => map (fun _ => crow) levels) crows).
  { apply map_ext. intros crow. rewrite map_map.
    apply map_ext. intros _. apply map_plus_0. }
  rewrite HX.
  assert (HRX : Rows [B; L] N
                  (List.concat
                     (map (fun crow : list R => map (fun _ : R => crow) levels)
                          crows))).
  { split.
    - rewrite (length_concat_uniform L).
      + rewrite length_map. simpl. lia.
      + rewrite Forall_map. apply Forall_forall. intros; now rewrite length_map.
    - apply Forall_concat. rewrite Forall_map.
      revert HFc. apply Forall_impl. intros r Hr.
      rewrite Forall_map. apply Forall_forall. intros; assumption. }
  unfold of_rows at 2. cbn [app].
  rewrite (pick_rows [B; L] N).
  - cbn [obind].
    rewrite (zipWith_concat_rows _ L).
    + match goal with
      | |- context [mkT [B; L] (List.concat ?x)] =>
        change (mkT [B; L] (List.concat x)) with (of_rows [B] L x)
      end.
      rewrite (swapaxes_rows 0).
      * f_equal. f_equal.
        rewrite zipWith_map_l, zipWith_map_r.
        rewrite (zipWith_as_map _ crows prows).
        rewrite (map_ext _ (fun ab => map (fun l =>
                   nth (clip_index N (snd (qscan (snd ab) l))) (fst ab) 0)
                   levels))
          by (intros [a b]; cbn [fst snd];
              now rewrite zipWith_map_l, zipWith_map_r, zipWith_diag).
        rewrite <- HL.
        rewrite (transpose_map_levels 0
                   (fun ab l => nth (clip_index N (snd (qscan (snd ab) l)))
                                    (fst ab) 0)).
        apply map_ext. intros l. now rewrite zipWith_as_map.
      * split.
        -- rewrite zipWith_length, !length_map. simpl. lia.
        -- rewrite zipWith_map_l, zipWith_map_r, zipWith_as_map.
           rewrite Forall_map. apply Forall_forall. intros ab _.
           now rewrite zipWith_length, !length_map, Nat.min_id.
    + rewrite Forall_map. apply Forall_forall. intros; now rewrite length_map.
    + rewrite Forall_map. apply Forall_forall. intros; now rewrite length_map.
  - assumption.
  - rewrite (length_concat_uniform L).
    + rewrite length_map. simpl. lia.
    + rewrite Forall_map. apply Forall_forall. intros; now rewrite length_map.
Qed.

(** * What the scan computes *)

Lemma wrap32_small (z : Z) :
  (- 2 ^ 31 <= z < 2 ^ 31)%Z -> wrap32 z = z.
Proof.
  intros H. unfold wrap32. rewrite Z.mod_small; lia.
Qed.

Lemma scan_count_le (acc : R) (probs : list R) (level : R) :
  (scan_count acc probs level <= length probs)%nat.
Proof.
  revert acc; induction probs as [|p ps IH]; intros acc; simpl; [lia|].
  specialize (IH (acc + p)). destruct (Rlt_dec level (acc + p)); lia.
Qed.

Lemma qscan_from (probs : list R) (level acc : R) (i0 : Z) :
  (0 <= i0)%Z -> (i0 + Z.of_nat (length probs) < 2 ^ 31)%Z ->
  fold_left (fun st p => qstep level p st) probs (acc, i0)
  = (acc + Rsum probs, (i0 + Z.of_nat (scan_count acc probs level))%Z).
Proof.
  revert acc i0; induction probs as [|p ps IH]; intros acc i0 H0 Hb.
  - simpl. f_equal; [lra|lia].
  - cbn [fold_left]. rewrite qstep_cases. cbn [fst snd length] in *.
    destruct (Rlt_dec level (acc + p)) as [Hlt|Hge].
    + rewrite IH by lia. cbn [scan_count Rsum fold_right].
      destruct (Rlt_dec level (acc + p)); [|contradiction].
      f_equal; try lia; unfold Rsum; lra.
    + rewrite wrap32_small by lia. rewrite IH by lia.
      cbn [scan_count Rsum fold_right].
      destruct (Rlt_dec level (acc + p)); [contradiction|].
      f_equal; try lia; unfold Rsum; lra.
Qed.

Lemma qscan_count (probs : list R) (level : R) :
  (Z.of_nat (length probs) < 2 ^ 31)%Z ->
  qscan probs level
  = (Rsum probs, Z.of_nat (scan_count 0 probs level)).
Proof.
  intros H. unfold qscan. rewrite qscan_from by lia.
  f_equal. lra.
Qed.

Lemma clip_index_in_range (n i : nat) :
  (i < n)%nat -> clip_index n (Z.of_nat i) = i.
Proof. intros H. unfold clip_index. rewrite Nat2Z.id. lia. Qed.

(** Once the running sum is above the level it stays above it, the
    probabilities being non-negative: the index is frozen. *)
Lemma scan_count_frozen (acc : R) (probs : list R) (level : R) :
  Forall (fun p => 0 <= p) probs -> level < acc ->
  scan_count acc probs level = O.
Proof.
  intros HF. revert acc. induction HF as [|p ps Hp _ IH]; intros acc Hlt;
    simpl; [reflexivity|].
  destruct (Rlt_dec level (acc + p)); [|lra].
  apply IH. lra.
Qed.

Lemma scan_count_first_exceeding (acc : R) (probs : list R) (level : R) :
  Forall (fun p => 0 <= p) probs ->
  let i := scan_count acc probs level in
  (forall j, (j < i)%nat -> acc + cumsum probs j <= level) /\
  ((i < length probs)%nat -> level < acc + cumsum probs i).
Proof.
  intros HF. revert acc. induction HF as [|p ps Hp HF IH]; intros acc.
  - simpl. split; intros; lia.
  - cbn [scan_count]. destruct (Rlt_dec level (acc + p)) as [Hlt|Hge].
    + rewrite scan_count_frozen by assumption. cbn. split.
      * intros j Hj. lia.
      * intros _. unfold cumsum. simpl. lra.
    + specialize (IH (acc + p)). cbv zeta in IH. destruct IH as [IH1 IH2].
      cbn [Nat.add]. split.
      * intros [|j] Hj.
        -- unfold cumsum. simpl. lra.
        -- specialize (IH1 j ltac:(lia)). unfold cumsum in *.
           cbn [firstn Rsum fold_right] in *. unfold Rsum in *. lra.
      * intros Hi. cbn [length] in Hi. specialize (IH2 ltac:(lia)).
        unfold cumsum in *. cbn [firstn Rsum fold_right] in *.
        unfold Rsum in *. lra.
Qed.

(** Only a level at or above the total mass moves the index past the
    last bin. *)
Lemma scan_count_full (acc : R) (probs : list R) (level : R) :
  probs <> [] -> scan_count acc probs level = length probs ->
  acc + Rsum probs <= level.
Proof.
  revert acc; induction probs as [|p ps IH]; intros acc Hne H;
    [congruence|].
  cbn [scan_count length] in H.
  pose proof (scan_count_le (acc + p) ps level) as Hle.
  destruct (Rlt_dec level (acc + p)) as [Hlt|Hge]; [lia|].
  destruct ps as [|p' ps'].
  - simpl. lra.
  - specialize (IH (acc + p) ltac:(discriminate) ltac:(lia)).
    cbn [Rsum fold_right] in *. unfold Rsum in *. lra.
Qed.

Lemma cumsum_strict (probs : list R) (j : nat) :
  Forall (fun p => 0 < p) probs -> (S j < length probs)%nat ->
  cumsum probs j < cumsum probs (S j).
Proof.
  intros HF. revert j. induction HF as [|p ps Hp HF IH]; intros j Hj;
    [simpl in Hj; lia|].
  destruct j as [|j].
  - destruct ps as [|q ps]; [simpl in Hj; lia|].
    inversion HF; subst. unfold cumsum. simpl. lra.
  - cbn [length] in Hj. specialize (IH j ltac:(lia)).
    unfold cumsum in *. cbn [firstn Rsum fold_right] in *.
    unfold Rsum in *. lra.
Qed.

Lemma cumsum_le (probs : list R) (i j : nat) :
  Forall (fun p => 0 < p) probs -> (i <= j)%nat -> (j < length probs)%nat ->
  cumsum probs i <= cumsum probs j.
Proof.
  intros HF Hij Hj. induction Hij as [|j Hij IH]; [lra|].
  pose proof (cumsum_strict probs j HF Hj). specialize (IH ltac:(lia)). lra.
Qed.

Lemma Forall_exp_pos (l : list R) :
  Forall (fun p => 0 < p) (map Rtrigo_def.exp l).
Proof. rewrite Forall_map. apply Forall_forall. intros; apply exp_pos. Qed.

Lemma Forall_exp_nonneg (l : list R) :
  Forall (fun p => 0 <= p) (map Rtrigo_def.exp l).
Proof.
  rewrite Forall_map. apply Forall_forall. intros x _.
  pose proof (exp_pos x). lra.
Qed.

(** The entries of [quantile] on a batch of shape [(B,)]: entry
    [(l, b)] is the center of row [b] at the index the scan of the
    probabilities of row [b] ends on for level [l], clipped to the bins. *)
Lemma quantile_entries (lp c level : Tensor R) (B N L : nat) :
  wf lp -> shape lp = [B; N] -> wf c -> shape c = [B; N] ->
  wf level -> shape level = [L] -> (2 <= N)%nat -> (Z.of_nat N < 2 ^ 31)%Z ->
  exists d q,
    __init__ lp c = Some d /\ fst (quantile level d) = Some q /\
    shape q = [L; B] /\ wf q /\
    forall l b, (l < L)%nat -> (b < B)%nat ->
      nth b (nth l (rows_of q) []) 0
      = nth (clip_index N
               (Z.of_nat (scan_count 0
                            (map Rtrigo_def.exp (nth b (rows_of lp) []))
                            (nth l (data level) 0))))
            (nth b (rows_of c) []) 0.
Proof.
  intros Hwl Hsl Hwc Hsc Hwv Hsv HN HN32.
  destruct (wf_rows lp [B] N Hwl Hsl) as [Hlp HRl].
  destruct (wf_rows c [B] N Hwc Hsc) as [Hc HRc].
  destruct level as [sv levels]. unfold wf in Hwv. cbn [shape data] in *.
  subst sv. cbn [size fold_right] in Hwv. rewrite Nat.mul_1_r in Hwv.
  pose proof HRl as [HlB HFl]. pose proof HRc as [HcB HFc].
  cbn [size fold_right] in HlB, HcB. rewrite Nat.mul_1_r in HlB, HcB.
  set (M := map (fun l =>
                   zipWith (fun crow prow =>
                              nth (clip_index N (snd (qscan prow l))) crow 0)
                           (rows_of c) (map (map Rtrigo_def.exp) (rows_of lp)))
                levels).
  assert (HRM : Rows [L] B M).
  { split.
    - unfold M. rewrite length_map. simpl. lia.
    - unfold M. rewrite Forall_map. apply Forall_forall. intros l _.
      rewrite zipWith_length, length_map. lia. }
  exists {| bin_centers := of_rows [B] N (rows_of c);
            bin_log_probs := lp;
            _bin_probs := None;
            bin_edges := of_rows [B] (S N) (map edges_row (rows_of c));
            exp_calls := 0 |}.
  exists (of_rows [L] B M).
  split; [|split; [|split; [|split]]].
  - rewrite Hc at 1. now apply init_rows.
  - apply (quantile_rows _ B N L (rows_of lp) (rows_of c)); cbn; auto;
      try lia.
    now left.
  - reflexivity.
  - now apply of_rows_wf.
  - intros l b Hl Hb. rewrite rows_of_of_rows by assumption.
    unfold M. rewrite (nth_map' _ _ _ 0) by lia.
    rewrite (nth_zipWith _ _ _ _ [] [] 0) by (rewrite ?length_map; lia).
    rewrite (nth_map' _ _ _ []) by lia.
    rewrite qscan_count; [reflexivity|].
    rewrite length_map. rewrite Forall_forall in HFl.
    rewrite (HFl (nth b (rows_of lp) [])) by (apply nth_In; lia). assumption.
Qed.

Lemma example_quantile :
  exists d q,
    __init__ example_log_probs example_centers = Some d /\
    fst (quantile (mkT [3%nat] [0.2; 0.49; 0.51]) d) = Some q /\
    q = mkT [3; 1]%nat [2; 2; 3].
Proof.
  eexists. eexists. split; [apply example_init|]. split.
  - apply (quantile_rows _ 1 3 3 [[ln 0.2; ln 0.3; ln 0.5]] [[1; 2; 3]]);
      try reflexivity;
      [now left | apply example_rows_lp | apply example_rows_c | lia].
  - rewrite example_probs. unfold of_rows. cbn [app map zipWith].
    rewrite !qscan_count by (simpl; lia).
    cbn [scan_count snd].
    repeat match goal with
    | |- context [Rlt_dec ?a ?b] => destruct (Rlt_dec a b); try lra
    end.
    reflexivity.
Qed.

(** The index the scan selects, for positive probabilities. *)
Lemma scan_index_facts (probs : list R) (lev : R) (N : nat) :
  Forall (fun p => 0 < p) probs -> length probs = N -> (1 <= N)%nat ->
  let i := scan_count 0 probs lev in
  (i <= N)%nat /\
  (forall j, (j < i)%nat -> cumsum probs j <= lev) /\
  ((i < N)%nat -> lev < cumsum probs i) /\
  (forall j, (S j < N)%nat -> lev = cumsum probs j -> i = S j) /\
  (lev < Rsum probs -> (i < N)%nat).
Proof.
  intros HF HN HN1 i.
  assert (HF0 : Forall (fun p => 0 <= p) probs)
    by (revert HF; apply Forall_impl; intros; lra).
  pose proof (scan_count_le 0 probs lev) as Hle. fold i in Hle.
  destruct (scan_count_first_exceeding 0 probs lev HF0) as [H1 H2].
  fold i in H1, H2.
  assert (H1' : forall j, (j < i)%nat -> cumsum probs j <= lev)
    by (intros j Hj; specialize (H1 j Hj); lra).
  assert (H2' : (i < N)%nat -> lev < cumsum probs i)
    by (intros Hi; specialize (H2 ltac:(lia)); lra).
  repeat split; try assumption; try lia.
  - intros j Hj Hlev.
    destruct (Nat.lt_trichotomy i (S j)) as [Hlt|[Heq|Hgt]];
      [|assumption|].
    + specialize (H2' ltac:(lia)).
      pose proof (cumsum_le probs i j HF ltac:(lia) ltac:(lia)). lra.
    + specialize (H1' (S j) Hgt).
      pose proof (cumsum_strict probs j HF ltac:(lia)). lra.
  - intros Hlt. destruct (Nat.eq_dec i N) as [Heq|Hne]; [|lia].
    assert (Hne : probs <> []).
    { intros ->. simpl in *. lia. }
    pose proof (scan_count_full 0 probs lev Hne ltac:(unfold i in *; lia)).
    lra.
Qed.

(** What C1 says holds on a batch of one axis, the layout the scan is
    written for, with the positive probabilities that exponentials of
    real log-probabilities are: the bin [quantile] selects is the first
    whose running cumulative probability strictly exceeds the level, so
    a level equal to the cumulative probability through a bin selects
    the next bin; on the example, levels 0.2, 0.49 and 0.51 give the
    centers 2, 2 and 3. *)
Theorem quantile_selects_first_strictly_exceeding :
  (forall (lp c level : Tensor R) (B N L : nat),
     wf lp -> shape lp = [B; N] -> wf c -> shape c = [B; N] ->
     wf level -> shape level = [L] ->
     (2 <= N)%nat -> (Z.of_nat N < 2 ^ 31)%Z ->
     exists d q,
       __init__ lp c = Some d /\ fst (quantile level d) = Some q /\
       forall l b, (l < L)%nat -> (b < B)%nat ->
         let probs := map Rtrigo_def.exp (nth b (rows_of lp) []) in
         let lev := nth l (data level) 0 in
         exists i,
           (i <= N)%nat /\
           (forall j, (j < i)%nat -> cumsum probs j <= lev) /\
           ((i < N)%nat ->
            lev < cumsum probs i /\
            nth b (nth l (rows_of q) []) 0 = nth i (nth b (rows_of c) []) 0) /\
           (forall j, (S j < N)%nat -> lev = cumsum probs j -> i = S j))
  /\
  (exists d q,
     __init__ example_log_probs example_centers = Some d /\
     fst (quantile (mkT [3%nat] [0.2; 0.49; 0.51]) d) = Some q /\
     q = mkT [3; 1]%nat [2; 2; 3]).
Proof.
  split; [|exact example_quantile].
  intros lp c level B N L Hwl Hsl Hwc Hsc Hwv Hsv HN HN32.
  destruct (quantile_entries lp c level B N L) as (d & q & Hd & Hq & _ & _ & He);
    try assumption.
  exists d, q. split; [assumption|]. split; [assumption|].
  intros l b Hl Hb probs lev.
  destruct (wf_rows lp [B] N Hwl Hsl) as [_ [HlB HFl]].
  cbn [size fold_right] in HlB. rewrite Nat.mul_1_r in HlB.
  assert (Hlen : length probs = N).
  { unfold probs. rewrite length_map. rewrite Forall_forall in HFl.
    apply HFl. apply nth_In. lia. }
  destruct (scan_index_facts probs lev N (Forall_exp_pos _) Hlen ltac:(lia))
    as (F1 & F2 & F3 & F4 & _).
  exists (scan_count 0 probs lev).
  repeat split; try assumption.
  - now apply F3.
  - rewrite (He l b Hl Hb). fold probs. fold lev.
    now rewrite clip_index_in_range.
Qed.

Lemma quantile_selects_first_strictly_exceeding_witness :
  exists d q,
    __init__ (mkT [2; 2]%nat [ln 0.5; ln 0.5; ln 0.25; ln 0.75])
             (mkT [2; 2]%nat [1; 2; 3; 4]) = Some d /\
    fst (quantile (mkT [1%nat] [0.5]) d) = Some q.
Proof.
  destruct (proj1 quantile_selects_first_strictly_exceeding
              (mkT [2; 2]%nat [ln 0.5; ln 0.5; ln 0.25; ln 0.75])
              (mkT [2; 2]%nat [1; 2; 3; 4]) (mkT [1%nat] [0.5])
              2%nat 2%nat 1%nat)
    as (d & q & H1 & H2 & _);
    try exact eq_refl; try lia.
  exists d, q. split; assumption.
Defined.

(** What C3 says holds on a batch of one axis, the layout the scan is
    written for: for a level at least 0 and below the total mass of a
    batch position, the index the scan ends on, which the final gather
    uses, is one of the bins; the index reaches the number of bins only
    for a level at or above the total mass. *)
Theorem quantile_scan_index_in_range (lp level : Tensor R) (B N L : nat) :
  wf lp -> shape lp = [B; N] -> wf level -> shape level = [L] ->
  (1 <= N)%nat -> (Z.of_nat N < 2 ^ 31)%Z ->
  exists zeros_cdf cdf idx,
    quantile_scan (exp lp) level = Some (zeros_cdf, (cdf, idx)) /\
    (forall c d, __init__ lp c = Some d ->
       fst (quantile level d)
       = (c1 <- expand_dims c 1 ;;
          z1 <- expand_dims zeros_cdf (-1) ;;
          centers_expanded <- broadcast_add c1 z1 ;;
          a <- pick centers_expanded idx (-1) ;;
          swapaxes_0_1 a)) /\
    shape idx = [B; L] /\ wf idx /\
    forall b l, (b < B)%nat -> (l < L)%nat ->
      let total := Rsum (map Rtrigo_def.exp (nth b (rows_of lp) [])) in
      let lev := nth l (data level) 0 in
      let i := nth l (nth b (rows_of idx) []) 0%Z in
      (0 <= i <= Z.of_nat N)%Z /\
      (0 <= lev < total -> (0 <= i <= Z.of_nat N - 1)%Z) /\
      (i = Z.of_nat N -> total <= lev).
Proof.
  intros Hwl Hsl Hwv Hsv HN HN32.
  destruct (wf_rows lp [B] N Hwl Hsl) as [Hlp HRl].
  destruct level as [sv levels]. unfold wf in Hwv. cbn [shape data] in *.
  subst sv. cbn [size fold_right] in Hwv. rewrite Nat.mul_1_r in Hwv.
  pose proof HRl as [HlB HFl].
  cbn [size fold_right] in HlB. rewrite Nat.mul_1_r in HlB.
  set (prows := map (map Rtrigo_def.exp) (rows_of lp)).
  assert (HRp : Rows [B] N prows) by now apply Rows_map_map.
  set (I := map (fun prow => map (fun l => snd (qscan prow l)) levels) prows).
  assert (HRI : Rows [B] L I).
  { split.
    - unfold I, prows. rewrite !length_map. simpl. lia.
    - unfold I. rewrite Forall_map. apply Forall_forall. intros; now rewrite length_map. }
  assert (Hscan : quantile_scan (exp lp) (mkT [L] levels)
                  = Some (of_rows [B] L (repeat (map (fun _ => 0) levels) B),
                          (of_rows [B] L
                             (map (fun prow =>
                                     map (fun l => fst (qscan prow l)) levels)
                                  prows),
                           of_rows [B] L I))).
  { rewrite Hlp at 1. unfold exp. rewrite tmap_of_rows.
    now apply quantile_scan_rows. }
  eexists. eexists. eexists. split; [exact Hscan|].
  split; [|split; [reflexivity|split; [now apply of_rows_wf|]]].
  - intros c d Hd. unfold __init__ in Hd.
    destruct (_compute_edges c) as [e|]; [|discriminate].
    cbn [obind] in Hd. injection Hd as <-.
    unfold quantile, mbind, attr, lift, bin_probs.
    cbn [_bin_probs bin_log_probs bin_centers fst].
    now rewrite Hscan.
  - intros b l Hb Hl. cbv zeta. rewrite rows_of_of_rows by assumption.
    unfold I. rewrite (nth_map' _ _ _ []) by (unfold prows; rewrite length_map; lia).
    rewrite (nth_map' _ _ _ 0) by lia.
    unfold prows. rewrite (nth_map' _ _ _ []) by lia.
    set (probs := map Rtrigo_def.exp (nth b (rows_of lp) [])).
    set (lev := nth l levels 0).
    assert (Hlen : length probs = N).
    { unfold probs. rewrite length_map. rewrite Forall_forall in HFl.
      apply HFl. apply nth_In. lia. }
    rewrite qscan_count by (rewrite Hlen; assumption). cbn [snd].
    pose proof (scan_count_le 0 probs lev) as Hle. rewrite Hlen in Hle.
    split; [lia|]. split.
    + intros [_ Hlt].
      destruct (scan_index_facts probs lev N (Forall_exp_pos _) Hlen HN)
        as (_ & _ & _ & _ & F5).
      specialize (F5 Hlt). lia.
    + intros Hi. apply Nat2Z.inj in Hi.
      assert (Hne : probs <> []) by (intros E; rewrite E in Hlen; simpl in Hlen; lia).
      pose proof (scan_count_full 0 probs lev Hne ltac:(lia)). lra.
Qed.

Lemma quantile_scan_index_in_range_witness :
  exists zeros_cdf cdf idx,
    quantile_scan (exp (mkT [2; 2]%nat [ln 0.5; ln 0.5; ln 0.25; ln 0.75]))
                  (mkT [1%nat] [0.5])
    = Some (zeros_cdf, (cdf, idx)) /\
    shape idx = [2; 1]%nat /\ wf idx.
Proof.
  destruct (quantile_scan_index_in_range
              (mkT [2; 2]%nat [ln 0.5; ln 0.5; ln 0.25; ln 0.75])
              (mkT [1%nat] [0.5]) 2%nat 2%nat 1%nat)
    as (z & cd & idx & H1 & _ & H3 & H4 & _);
    try exact eq_refl; try lia.
  exists z, cd, idx. repeat split; assumption.
Defined.

(** * The claim on arbitrary batch shapes (C2) *)

Ltac rdec :=
  repeat match goal with
  | |- context [Rle_dec ?a ?b] => destruct (Rle_dec a b); try lra
  | |- context [Rlt_dec ?a ?b] => destruct (Rlt_dec a b); try lra
  | |- context [Req_dec_T ?a ?b] => destruct (Req_dec_T a b); try lra
  end.

(** Evaluation of the array operations on explicit arrays: the shapes
    and the positions are computed, the comparisons of reals are decided
    by [lra]. *)
Ltac eval_arrays :=
  cbv -[Rplus Rminus Rmult Rdiv Rinv IZR Ropp ln Rtrigo_def.exp
        Rle_dec Rlt_dec Req_dec_T Int_part wrap32 trunc32];
  rewrite ?exp_ln by lra;
  try replace (0 + 0) with 0 by lra;
  try replace (trunc32 0) with 0%Z
    by (unfold trunc32; destruct (Rle_dec 0 0); [|lra];
        rewrite <- (Int_part_spec 0 0) by (simpl; lra); reflexivity);
  rdec;
  cbv -[Rplus Rminus Rmult Rdiv Rinv IZR Ropp ln Rtrigo_def.exp
        Rle_dec Rlt_dec Req_dec_T Int_part].

Lemma rank2_batch_quantile :
  exists d q,
    __init__ rank2_batch_log_probs rank2_batch_centers = Some d /\
    fst (quantile (mkT [1%nat] [0.4]) d) = Some q /\
    q = mkT [1; 1; 2]%nat [1; 2].
Proof.
  eexists. eexists. split; [|split].
  - apply (init_rows rank2_batch_log_probs [1; 2]%nat 2 [[1; 2]; [1; 2]]);
      [|lia].
    split; [reflexivity|repeat constructor].
  - eval_arrays. reflexivity.
  - do 2 f_equal; [lra|f_equal; lra].
Qed.

(** C2, as stated, fails: at a level equal to the cumulative mass through
    a bin the code returns the next center, not the center where the mass
    meets the level; and on a batch of two axes the scan runs over a batch
    axis instead of the bins. *)
Lemma quantile_is_not_first_meeting_center :
  (exists d q,
     __init__ example_log_probs example_centers = Some d /\
     fst (quantile (mkT [1%nat] [0.2]) d) = Some q /\
     q = mkT [1; 1]%nat [2] /\
     quantile_first_meeting (exp example_log_probs) example_centers
                            (mkT [1%nat] [0.2])
     = mkT [1; 1]%nat [1] /\
     q <> quantile_first_meeting (exp example_log_probs) example_centers
                                 (mkT [1%nat] [0.2]))
  /\
  (exists d q,
     __init__ rank2_batch_log_probs rank2_batch_centers = Some d /\
     fst (quantile (mkT [1%nat] [0.4]) d) = Some q /\
     q = mkT [1; 1; 2]%nat [1; 2] /\
     quantile_first_meeting (exp rank2_batch_log_probs) rank2_batch_centers
                            (mkT [1%nat] [0.4])
     = mkT [1; 1; 2]%nat [1; 1] /\
     q <> quantile_first_meeting (exp rank2_batch_log_probs)
                                 rank2_batch_centers (mkT [1%nat] [0.4])).
Proof.
  assert (S1 : quantile_first_meeting (exp example_log_probs) example_centers
                 (mkT [1%nat] [0.2]) = mkT [1; 1]%nat [1]).
  { eval_arrays. reflexivity. }
  assert (S2 : quantile_first_meeting (exp rank2_batch_log_probs)
                 rank2_batch_centers (mkT [1%nat] [0.4])
               = mkT [1; 1; 2]%nat [1; 1]).
  { eval_arrays. reflexivity. }
  split.
  - eexists. eexists. split; [apply example_init|]. split; [|split; [|split]].
    + apply (quantile_rows _ 1 3 1 [[ln 0.2; ln 0.3; ln 0.5]] [[1; 2; 3]]);
        try reflexivity;
        [now left | apply example_rows_lp | apply example_rows_c | lia].
    + rewrite example_probs. unfold of_rows. cbn [app map zipWith].
      rewrite !qscan_count by (simpl; lia).
      cbn [scan_count snd]. rdec. reflexivity.
    + exact S1.
    + rewrite S1, example_probs. unfold of_rows. cbn [app map zipWith].
      rewrite !qscan_count by (simpl; lia).
      cbn [scan_count snd]. rdec.
      intros H. injection H as H. simpl in H. lra.
  - destruct rank2_batch_quantile as (d & q & Hd & Hq & E).
    exists d, q. repeat split; try assumption.
    rewrite S2, E. intros H. injection H as H. lra.
Qed.

(** C2 (amended): on a batch of shape [(B,)], [quantile] returns an array
    of shape [(num_levels, B)]; its entry for a level below the total mass
    of a batch position is the center of the first bin whose cumulative
    mass strictly exceeds the level. *)
Theorem quantile_rank1_shape_and_entries (lp c level : Tensor R)
  (B N L : nat) :
  wf lp -> shape lp = [B; N] -> wf c -> shape c = [B; N] ->
  wf level -> shape level = [L] ->
  (2 <= N)%nat -> (Z.of_nat N < 2 ^ 31)%Z ->
  exists d q,
    __init__ lp c = Some d /\ fst (quantile level d) = Some q /\
    shape q = [L; B] /\ wf q /\
    forall l b, (l < L)%nat -> (b < B)%nat ->
      let probs := map Rtrigo_def.exp (nth b (rows_of lp) []) in
      let lev := nth l (data level) 0 in
      lev < Rsum probs ->
      exists i,
        (i < N)%nat /\ lev < cumsum probs i /\
        (forall j, (j < i)%nat -> cumsum probs j <= lev) /\
        nth b (nth l (rows_of q) []) 0 = nth i (nth b (rows_of c) []) 0.
Proof.
  intros Hwl Hsl Hwc Hsc Hwv Hsv HN HN32.
  destruct (quantile_entries lp c level B N L)
    as (d & q & Hd & Hq & Hsq & Hwq & He); try assumption.
  exists d, q. repeat (split; [assumption|]).
  intros l b Hl Hb probs lev Hlt.
  destruct (wf_rows lp [B] N Hwl Hsl) as [_ [HlB HFl]].
  cbn [size fold_right] in HlB. rewrite Nat.mul_1_r in HlB.
  assert (Hlen : length probs = N).
  { unfold probs. rewrite length_map. rewrite Forall_forall in HFl.
    apply HFl. apply nth_In. lia. }
  destruct (scan_index_facts probs lev N (Forall_exp_pos _) Hlen ltac:(lia))
    as (F1 & F2 & F3 & _ & F5).
  specialize (F5 Hlt).
  exists (scan_count 0 probs lev).
  repeat split; try assumption.
  - now apply F3.
  - rewrite (He l b Hl Hb). fold probs. fold lev.
    now rewrite clip_index_in_range.
Qed.

Lemma quantile_rank1_shape_and_entries_witness :
  exists d q,
    __init__ (mkT [2; 2]%nat [ln 0.5; ln 0.5; ln 0.25; ln 0.75])
             (mkT [2; 2]%nat [1; 2; 3; 4]) = Some d /\
    fst (quantile (mkT [1%nat] [0.5]) d) = Some q /\
    shape q = [1; 2]%nat /\ wf q.
Proof.
  destruct (quantile_rank1_shape_and_entries
              (mkT [2; 2]%nat [ln 0.5; ln 0.5; ln 0.25; ln 0.75])
              (mkT [2; 2]%nat [1; 2; 3; 4]) (mkT [1%nat] [0.5])
              2%nat 2%nat 1%nat)
    as (d & q & H1 & H2 & H3 & H4 & _);
    try exact eq_refl; try lia.
  exists d, q. repeat split; assumption.
Defined.

(** * The scan on a batch of two axes (C1, C3) *)

(** C1, the code at the failing input: on a batch of two axes
    [swapaxes(0, 1)] (line 141) leaves a batch axis first and the scan
    adds up probabilities across the batch.  For the second distribution
    of the batch, with probabilities [0.6, 0.4], the first bin whose
    cumulative probability exceeds 0.3 is bin 0 with center 1, and the
    code returns center 2. *)
Lemma quantile_rank2_batch_not_first_exceeding :
  exists d q,
    __init__ rank2_batch_log_probs rank2_batch_centers = Some d /\
    fst (quantile (mkT [1%nat] [0.3]) d) = Some q /\
    q = mkT [1; 1; 2]%nat [1; 2] /\
    quantile_first_exceeding (exp rank2_batch_log_probs) rank2_batch_centers
                             (mkT [1%nat] [0.3])
    = mkT [1; 1; 2]%nat [1; 1] /\
    q <> quantile_first_exceeding (exp rank2_batch_log_probs)
                                  rank2_batch_centers (mkT [1%nat] [0.3]).
Proof.
  assert (S1 : quantile_first_exceeding (exp rank2_batch_log_probs)
                 rank2_batch_centers (mkT [1%nat] [0.3])
               = mkT [1; 1; 2]%nat [1; 1]).
  { eval_arrays. reflexivity. }
  assert (Q : exists d,
             __init__ rank2_batch_log_probs rank2_batch_centers = Some d /\
             fst (quantile (mkT [1%nat] [0.3]) d)
             = Some (mkT [1; 1; 2]%nat [1; 2])).
  { eexists. split.
    - apply (init_rows rank2_batch_log_probs [1; 2]%nat 2 [[1; 2]; [1; 2]]);
        [|lia].
      split; [reflexivity|repeat constructor].
    - eval_arrays. do 3 f_equal; [lra|f_equal; lra]. }
  destruct Q as (d & Hd & Hq).
  exists d, (mkT [1; 1; 2]%nat [1; 2]).
  repeat split; try assumption.
  rewrite S1. intros H. injection H as H. lra.
Qed.

(** C3, the code at the failing input: on a batch of two axes
    [swapaxes(0, 1)] (line 141) leaves a batch axis first and the scan
    adds up probabilities across the batch.  With two bins and the level
    0.55, below the total mass 1 of both distributions, the scan ends on
    the index 2, the number of bins. *)
Lemma quantile_rank2_batch_index_reaches_num_bins :
  exists zeros_cdf cdf idx,
    quantile_scan (exp rank2_batch_log_probs) (mkT [1%nat] [0.55])
    = Some (zeros_cdf, (cdf, idx)) /\
    idx = mkT [1; 1; 2]%nat [0; 2]%Z /\
    last (shape rank2_batch_log_probs) O = 2%nat /\
    Forall (fun probs => 0 <= 0.55 < Rsum probs)
           (rows_of (exp rank2_batch_log_probs)).
Proof.
  eexists. eexists. eexists. split; [|split; [|split]].
  - eval_arrays. reflexivity.
  - reflexivity.
  - reflexivity.
  - cbv -[Rplus Rminus Rmult Rdiv Rinv IZR Ropp ln Rtrigo_def.exp Rle Rlt].
    rewrite !exp_ln by lra. repeat constructor; lra.
Qed.

(** * The memo and the immutability of the object (C9) *)

Section Preservation.
Variable P : Binned -> Prop.
Hypothesis bin_probs_P : forall s, P s -> P (snd (bin_probs s)).

Lemma preserves_lift {A} (o : option A) : preserves P (lift o).
Proof. intros s H. exact H. Qed.

Lemma preserves_attr {A} (f : Binned -> A) : preserves P (attr f).
Proof. intros s H. exact H. Qed.

Lemma preserves_bind {A B} (m : M A) (f : A -> M B) :
  preserves P m -> (forall a, preserves P (f a)) -> preserves P (mbind m f).
Proof.
  intros Hm Hf s H. unfold mbind. specialize (Hm s H).
  destruct (m s) as [[a|] s']; cbn [snd] in *; [now apply Hf|assumption].
Qed.

Lemma preserves_bin_probs : preserves P bin_probs.
Proof. exact bin_probs_P. Qed.

(** A method built from binds, reads of fields, pure steps and
    [bin_probs] keeps the property; the four facts are passed in. *)
Ltac preserve_by Hbind Hprobs Hattr Hlift :=
  repeat first
    [ apply Hbind; [|intros ?]
    | apply Hprobs
    | apply Hattr
    | apply Hlift ].

Lemma preserves_mean : preserves P mean.
Proof.
  unfold mean.
  preserve_by @preserves_bind preserves_bin_probs @preserves_attr
    @preserves_lift.
Qed.

Lemma preserves_stddev : preserves P stddev.
Proof.
  unfold stddev.
  preserve_by @preserves_bind preserves_bin_probs @preserves_attr
    @preserves_lift.
Qed.

Lemma preserves_log_prob (x : Tensor R) : preserves P (log_prob x).
Proof.
  unfold log_prob.
  preserve_by @preserves_bind preserves_bin_probs @preserves_attr
    @preserves_lift.
Qed.

Lemma preserves_cdf (x : Tensor R) : preserves P (cdf x).
Proof.
  unfold cdf.
  preserve_by @preserves_bind preserves_bin_probs @preserves_attr
    @preserves_lift.
Qed.

Lemma preserves_quantile (level : Tensor R) :
  preserves P (quantile level).
Proof.
  unfold quantile.
  preserve_by @preserves_bind preserves_bin_probs @preserves_attr
    @preserves_lift.
Qed.

Lemma preserves_sample draw num_samples :
  preserves P (sample draw num_samples).
Proof.
  unfold sample.
  preserve_by @preserves_bind preserves_bin_probs @preserves_attr
    @preserves_lift.
Qed.

Lemma exec_preserves (c : call) (s : Binned) : P s -> P (exec c s).
Proof.
  destruct c; cbn [exec].
  - apply preserves_bin_probs.
  - apply preserves_mean.
  - apply preserves_stddev.
  - apply preserves_log_prob.
  - apply preserves_cdf.
  - apply preserves_quantile.
  - apply preserves_sample.
Qed.

Lemma run_preserves (calls : list call) (s : Binned) : P s -> P (run calls s).
Proof.
  revert s. induction calls as [|c calls IH]; intros s H; [exact H|].
  cbn [run fold_left]. apply IH. now apply exec_preserves.
Qed.
End Preservation.

Lemma bin_probs_Inv lp c e s : Inv lp c e s -> Inv lp c e (snd (bin_probs s)).
Proof.
  intros (H1 & H2 & H3 & [[H4 H5]|[H4 H5]]); unfold bin_probs; rewrite H4;
    cbn [snd].
  - repeat split; cbn; try assumption. right. rewrite H1, H5. now split.
  - repeat split; try assumption. right. now split.
Qed.

Lemma bin_probs_Filled lp c e s :
  Filled lp c e s -> bin_probs s = (Some (exp lp), s).
Proof.
  intros (H1 & H2 & H3 & H4 & H5). unfold bin_probs. now rewrite H4.
Qed.

Lemma bin_probs_Filled_preserved lp c e s :
  Filled lp c e s -> Filled lp c e (snd (bin_probs s)).
Proof. intros H. now rewrite (bin_probs_Filled lp c e s H). Qed.

Lemma bin_probs_fills lp c e s :
  Inv lp c e s ->
  fst (bin_probs s) = Some (exp lp) /\ Filled lp c e (snd (bin_probs s)).
Proof.
  intros (H1 & H2 & H3 & [[H4 H5]|[H4 H5]]); unfold bin_probs; rewrite H4;
    cbn [fst snd].
  - rewrite H1. split; [reflexivity|].
    repeat split; cbn; try assumption. now rewrite H5.
  - split; [reflexivity|]. repeat split; assumption.
Qed.

(** C9: whatever public operations are called on a constructed object, in
    whatever order, the log-probabilities, the centers and the edges stay
    as constructed and the exponential is evaluated at most once: the
    first access to [bin_probs] stores it and every later access returns
    the stored array without evaluating it again. *)
Theorem memo_computed_once_and_fields_immutable (lp c : Tensor R)
  (d : Binned) (calls : list call) :
  __init__ lp c = Some d ->
  let s := run calls d in
  bin_log_probs s = lp /\ bin_centers s = c /\ bin_edges s = bin_edges d /\
  (exp_calls s <= 1)%nat /\
  fst (bin_probs s) = Some (exp lp) /\
  let s1 := snd (bin_probs s) in
  _bin_probs s1 = Some (exp lp) /\
  forall later,
    let s2 := run later s1 in
    exp_calls s2 = 1%nat /\ bin_probs s2 = (Some (exp lp), s2) /\
    bin_log_probs s2 = lp /\ bin_centers s2 = c /\
    bin_edges s2 = bin_edges d.
Proof.
  intros Hd s. unfold __init__ in Hd.
  destruct (_compute_edges c) as [e|]; [|discriminate].
  cbn [obind] in Hd. injection Hd as <-. cbn [bin_edges].
  assert (H0 : Inv lp c e
                 {| bin_centers := c; bin_log_probs := lp;
                    _bin_probs := None; bin_edges := e; exp_calls := 0 |}).
  { repeat split. left. now split. }
  pose proof (run_preserves (Inv lp c e) (bin_probs_Inv lp c e) calls _ H0)
    as Hs. fold s in Hs.
  destruct (bin_probs_fills lp c e s Hs) as [Hr Hf].
  pose proof Hs as (H1 & H2 & H3 & H4).
  repeat (split; [assumption|]).
  split; [destruct H4 as [[_ ->]|[_ ->]]; lia|].
  split; [assumption|].
  split; [apply Hf|].
  intros later.
  pose proof (run_preserves (Filled lp c e)
                (bin_probs_Filled_preserved lp c e) later _ Hf) as H2f.
  pose proof (bin_probs_Filled lp c e _ H2f) as Hb.
  destruct H2f as (G1 & G2 & G3 & G4 & G5).
  repeat split; assumption.
Qed.

Lemma memo_computed_once_and_fields_immutable_witness :
  bin_log_probs
    (run [CallMean; CallCdf (mkT [1%nat] [2]); CallStddev] example_object)
  = example_log_probs /\
  bin_centers
    (run [CallMean; CallCdf (mkT [1%nat] [2]); CallStddev] example_object)
  = example_centers /\
  bin_edges
    (run [CallMean; CallCdf (mkT [1%nat] [2]); CallStddev] example_object)
  = bin_edges example_object /\
  (exp_calls
     (run [CallMean; CallCdf (mkT [1] [2%R]); CallStddev] example_object)
   <= 1)%nat.
Proof.
  destruct (memo_computed_once_and_fields_immutable
              example_log_probs example_centers example_object
              [CallMean; CallCdf (mkT [1%nat] [2]); CallStddev])
    as (H1 & H2 & H3 & H4 & _).
  - reflexivity.
  - repeat split; assumption.
Defined.

(** * Further properties of the methods *)

Lemma example_row_nondecreasing : nondecreasing [1; 2; 3].
Proof.
  intros a b [Hab Hb]. simpl in Hb.
  destruct a as [|[|[|a]]], b as [|[|[|b]]]; simpl; try lia; lra.
Qed.

Lemma example_row_within_sentinels : within_sentinels [1; 2; 3].
Proof. repeat constructor; lra. Qed.

Lemma example_mass :
  Rsum (map Rtrigo_def.exp [ln 0.2; ln 0.3; ln 0.5]) = 1.
Proof. simpl. rewrite !exp_ln by lra. lra. Qed.

(** * Entries of the results, one batch position at a time *)

Lemma rows_nth_length {A} bs n (rows : list (list A)) (k : nat) :
  Rows bs n rows -> (k < size bs)%nat -> length (nth k rows []) = n.
Proof.
  intros [Hl HF] Hk. rewrite Forall_forall in HF. apply HF, nth_In. lia.
Qed.

Lemma cdf_entries (lp c x : Tensor R) (bs : list nat) (n : nat) :
  wf lp -> shape lp = bs ++ [n] -> wf c -> shape c = bs ++ [n] ->
  wf x -> shape x = bs -> (2 <= n)%nat ->
  exists d r,
    __init__ lp c = Some d /\ fst (cdf x d) = Some r /\
    shape r = bs /\
    forall k, (k < size bs)%nat ->
      nth k (data r) 0
      = cdf_row (map Rtrigo_def.exp (nth k (rows_of lp) []))
                (nth k (rows_of c) []) (nth k (data x) 0).
Proof.
  intros Hwl Hsl Hwc Hsc Hwx Hsx Hn.
  destruct (wf_rows lp bs n Hwl Hsl) as [Hlp HRl].
  destruct (wf_rows c bs n Hwc Hsc) as [Hc HRc].
  destruct x as [sx xs]. unfold wf in Hwx. cbn [shape data] in *. subst sx.
  eexists. eexists. split; [|split; [|split]].
  - rewrite Hc at 1. now apply init_rows.
  - apply (cdf_rows _ bs n (rows_of lp) (rows_of c)); cbn; auto.
    now left.
  - reflexivity.
  - intros k Hk. cbn [data]. destruct HRl as [Hl1 _], HRc as [Hl2 _].
    rewrite cdf_data_nth by (rewrite ?length_map; lia).
    f_equal. apply (nth_map' _ _ _ []). lia.
Qed.

Lemma mean_stddev_entries (lp c : Tensor R) (bs : list nat) (n : nat) :
  wf lp -> shape lp = bs ++ [n] -> wf c -> shape c = bs ++ [n] ->
  (2 <= n)%nat ->
  exists d m s,
    __init__ lp c = Some d /\
    fst (mean d) = Some m /\ fst (stddev d) = Some s /\
    shape m = bs /\ shape s = bs /\
    forall k, (k < size bs)%nat ->
      let p := map Rtrigo_def.exp (nth k (rows_of lp) []) in
      let cr := nth k (rows_of c) [] in
      nth k (data m) 0 = mean_row p cr /\
      nth k (data s) None = nd_sqrt (radicand_row p cr).
Proof.
  intros Hwl Hsl Hwc Hsc Hn.
  destruct (wf_rows lp bs n Hwl Hsl) as [Hlp HRl].
  destruct (wf_rows c bs n Hwc Hsc) as [Hc HRc].
  eexists. eexists. eexists. split; [|split; [|split]].
  - rewrite Hc at 1. now apply init_rows.
  - apply (mean_rows _ bs n (rows_of lp) (rows_of c)); cbn; auto. now left.
  - apply (stddev_rows _ bs n (rows_of lp) (rows_of c)); cbn; auto. now left.
  - cbn [shape data]. split; [reflexivity|]. split; [reflexivity|].
    intros k Hk. cbv zeta.
    destruct HRl as [Hl1 HF1], HRc as [Hl2 HF2].
    rewrite (nth_map' nd_sqrt _ _ 0)
      by (rewrite zipWith_length, length_map; lia).
    rewrite !(nth_zipWith _ _ _ _ [] [] 0) by (rewrite ?length_map; lia).
    rewrite (nth_map' _ _ _ []) by lia. split; reflexivity.
Qed.


Lemma Rleb_true (a x : R) : a <= x -> Rleb a x = true.
Proof. intros H. unfold Rleb. destruct (Rle_dec a x); [reflexivity|lra]. Qed.

Lemma Rleb_false (a x : R) : x < a -> Rleb a x = false.
Proof. intros H. unfold Rleb. destruct (Rle_dec a x); [lra|reflexivity]. Qed.

Lemma Rltb_true (a x : R) : a < x -> Rltb a x = true.
Proof. intros H. unfold Rltb. destruct (Rlt_dec a x); [reflexivity|lra]. Qed.

Lemma Rltb_false (a x : R) : x <= a -> Rltb a x = false.
Proof. intros H. unfold Rltb. destruct (Rlt_dec a x); [lra|reflexivity]. Qed.

(** * Range of the cumulative distribution *)

Lemma Rsum_nonneg (p : list R) : Forall (fun q => 0 <= q) p -> 0 <= Rsum p.
Proof.
  induction 1 as [|q p Hq _ IH]; simpl; [lra|]. unfold Rsum in *. lra.
Qed.

Lemma cdf_row_range (p c : list R) (x : R) :
  Forall (fun q => 0 <= q) p -> 0 <= cdf_row p c x <= Rsum p.
Proof.
  unfold cdf_row. intros HF. revert c.
  induction HF as [|q p Hq HF IH]; intros [|a c]; simpl.
  - lra.
  - lra.
  - pose proof (Rsum_nonneg p HF). unfold Rsum in *. lra.
  - specialize (IH c). unfold Rsum in *.
    destruct (Rleb a x); cbn [mask_of]; lra.
Qed.

Lemma cdf_row_below (p c : list R) (x : R) :
  (forall i, (i < length c)%nat -> x < nth i c 0) -> cdf_row p c x = 0.
Proof.
  unfold cdf_row. revert c.
  induction p as [|q p IH]; intros [|a c] H; simpl; try reflexivity.
  fold (Rsum (zipWith Rmult p (map (fun c0 => mask_of (Rleb c0 x)) c))).
  rewrite IH by (intros i Hi; apply (H (S i)); simpl; lia).
  pose proof (H O ltac:(simpl; lia)) as H0. simpl in H0.
  rewrite Rleb_false by assumption. cbn [mask_of]. lra.
Qed.

Lemma cdf_row_above (p c : list R) (x : R) :
  length p = length c ->
  (forall i, (i < length c)%nat -> nth i c 0 <= x) -> cdf_row p c x = Rsum p.
Proof.
  unfold cdf_row. revert c.
  induction p as [|q p IH]; intros [|a c] Hl H; simpl in *;
    try discriminate; try reflexivity.
  fold (Rsum (zipWith Rmult p (map (fun c0 => mask_of (Rleb c0 x)) c))).
  rewrite IH by (try lia; intros i Hi; apply (H (S i)); lia).
  pose proof (H O ltac:(lia)) as H0. simpl in H0.
  rewrite Rleb_true by assumption. cbn [mask_of]. unfold Rsum. lra.
Qed.

(** X1: at every batch position [cdf(x)] lies between 0 and the sum of the
    bin probabilities; it is 0 when [x] is below every center and the sum
    of the bin probabilities when [x] is at or above every center. *)
Theorem cdf_range_and_extremes (lp c x : Tensor R) (bs : list nat)
  (n : nat) :
  wf lp -> shape lp = bs ++ [n] -> wf c -> shape c = bs ++ [n] ->
  wf x -> shape x = bs -> (2 <= n)%nat ->
  exists d r,
    __init__ lp c = Some d /\ fst (cdf x d) = Some r /\
    forall k, (k < size bs)%nat ->
      let p := map Rtrigo_def.exp (nth k (rows_of lp) []) in
      let cr := nth k (rows_of c) [] in
      let xk := nth k (data x) 0 in
      0 <= nth k (data r) 0 <= Rsum p /\
      ((forall i, (i < n)%nat -> xk < nth i cr 0) -> nth k (data r) 0 = 0) /\
      ((forall i, (i < n)%nat -> nth i cr 0 <= xk) ->
       nth k (data r) 0 = Rsum p).
Proof.
  intros Hwl Hsl Hwc Hsc Hwx Hsx Hn.
  destruct (cdf_entries lp c x bs n) as (d & r & Hd & Hr & _ & He);
    try assumption.
  exists d, r. split; [assumption|]. split; [assumption|].
  intros k Hk p cr xk. rewrite (He k Hk). fold p cr xk.
  destruct (wf_rows lp bs n Hwl Hsl) as [_ HRl].
  destruct (wf_rows c bs n Hwc Hsc) as [_ HRc].
  assert (Hcr : length cr = n) by now apply (rows_nth_length bs).
  assert (Hp : length p = n)
    by (unfold p; rewrite length_map; now apply (rows_nth_length bs)).
  split; [|split].
  - apply cdf_row_range. apply Forall_exp_nonneg.
  - intros H. apply cdf_row_below. now rewrite Hcr.
  - intros H. apply cdf_row_above; [lia|]. now rewrite Hcr.
Qed.

Lemma cdf_range_and_extremes_witness :
  exists d r,
    __init__ example_log_probs example_centers = Some d /\
    fst (cdf (mkT [1%nat] [5]) d) = Some r /\
    0 <= nth 0 (data r) 0
    <= Rsum (map Rtrigo_def.exp [ln 0.2; ln 0.3; ln 0.5]) /\
    nth 0 (data r) 0 = Rsum (map Rtrigo_def.exp [ln 0.2; ln 0.3; ln 0.5]).
Proof.
  destruct (cdf_range_and_extremes example_log_probs example_centers
              (mkT [1%nat] [5]) [1%nat] 3)
    as (d & r & Hd & Hr & H); try exact eq_refl; try lia.
  exists d, r. split; [exact Hd|]. split; [exact Hr|].
  destruct (H 0%nat ltac:(simpl; lia)) as (H1 & _ & H3).
  split; [exact H1|]. apply H3.
  intros i Hi. destruct i as [|[|[|i]]]; simpl; try lia; lra.
Defined.

(** * Range of the mean *)

Lemma mean_row_bounds (p c : list R) (a b : R) :
  Forall (fun q => 0 <= q) p -> length p = length c ->
  Forall (fun z => a <= z <= b) c ->
  a * Rsum p <= mean_row p c <= b * Rsum p.
Proof.
  unfold mean_row. intros HF. revert c.
  induction HF as [|q p Hq _ IH]; intros [|z c] Hl Hc; simpl in *;
    try discriminate; [lra|].
  inversion Hc; subst. specialize (IH c ltac:(lia) H2).
  unfold Rsum in *. nra.
Qed.

(** X3: at every batch position the mean lies between the smallest and the
    largest center, each times the sum of the bin probabilities: with
    probabilities adding up to 1 it is within the range of the centers. *)
Theorem mean_within_range_of_centers (lp c : Tensor R) (bs : list nat)
  (n : nat) (a b : R) :
  wf lp -> shape lp = bs ++ [n] -> wf c -> shape c = bs ++ [n] ->
  (2 <= n)%nat ->
  Forall (fun z => a <= z <= b) (data c) ->
  exists d m,
    __init__ lp c = Some d /\ fst (mean d) = Some m /\
    forall k, (k < size bs)%nat ->
      let p := map Rtrigo_def.exp (nth k (rows_of lp) []) in
      a * Rsum p <= nth k (data m) 0 <= b * Rsum p.
Proof.
  intros Hwl Hsl Hwc Hsc Hn Hab.
  destruct (mean_stddev_entries lp c bs n)
    as (d & m & s & Hd & Hm & _ & _ & _ & He); try assumption.
  exists d, m. split; [assumption|]. split; [assumption|].
  intros k Hk p. destruct (He k Hk) as [E _]. fold p in E. rewrite E.
  destruct (wf_rows lp bs n Hwl Hsl) as [_ HRl].
  destruct (wf_rows c bs n Hwc Hsc) as [Hc HRc].
  apply mean_row_bounds.
  - apply Forall_exp_nonneg.
  - unfold p. rewrite length_map.
    now rewrite !(rows_nth_length bs n) by assumption.
  - rewrite Forall_forall in *. intros z Hz. apply Hab.
    rewrite Hc. unfold of_rows. cbn [data]. apply in_concat.
    exists (nth k (rows_of c) []). split; [|assumption].
    apply nth_In. destruct HRc as [-> _]. assumption.
Qed.

Lemma mean_within_range_of_centers_witness :
  exists d m,
    __init__ example_log_probs example_centers = Some d /\
    fst (mean d) = Some m /\
    forall k, (k < size [1%nat])%nat ->
      let p := map Rtrigo_def.exp (nth k (rows_of example_log_probs) []) in
      1 * Rsum p <= nth k (data m) 0 <= 3 * Rsum p.
Proof.
  apply (mean_within_range_of_centers example_log_probs example_centers
           [1%nat] 3 1 3);
    try exact eq_refl; try lia.
  repeat constructor; simpl; lra.
Defined.

(** * Bins and log-probabilities *)

Lemma within_sentinels_nth (c : list R) (i : nat) :
  within_sentinels c -> (i < length c)%nat ->
  - 1.0e10 <= nth i c 0 < 1.0e10.
Proof.
  intros H Hi. unfold within_sentinels in H. rewrite Forall_forall in H.
  apply H, nth_In, Hi.
Qed.




Lemma center_in_own_bin (c : list R) (i : nat) :
  nondecreasing c -> within_sentinels c -> (i < length c)%nat ->
  nth i (edges_row c) 0 <= nth i c 0 <= nth (S i) (edges_row c) 0.
Proof.
  intros Hm Hc Hi.
  pose proof (within_sentinels_nth c i Hc Hi) as Hb.
  split.
  - destruct (Nat.eq_dec i 0) as [->|H0].
    + rewrite edges_row_first by lia. lra.
    + rewrite edges_row_mid by lia.
      pose proof (Hm (i - 1)%nat i ltac:(lia)). lra.
  - destruct (Nat.eq_dec (S i) (length c)) as [->|Hl].
    + rewrite edges_row_last by lia. lra.
    + rewrite edges_row_mid by lia.
      replace (S i - 1)%nat with i by lia.
      pose proof (Hm i (S i) ltac:(lia)). lra.
Qed.

Lemma edges_row_nondecreasing (c : list R) :
  nondecreasing c -> within_sentinels c -> (1 <= length c)%nat ->
  nondecreasing (edges_row c).
Proof.
  intros Hm Hc Hn a b [Hab Hb]. rewrite edges_row_length in Hb by assumption.
  induction Hab as [|b Hab IH]; [lra|].
  specialize (IH ltac:(lia)).
  destruct (center_in_own_bin c b Hm Hc ltac:(lia)). lra.
Qed.

(** X4: with non-decreasing centers between the outer edges, the edges built
    at construction do not decrease along a batch position and every
    center lies between the two edges of its own bin. *)
Theorem edges_ordered_and_centers_inside (c : Tensor R) (bs : list nat)
  (n : nat) :
  wf c -> shape c = bs ++ [n] -> (2 <= n)%nat ->
  exists e,
    _compute_edges c = Some e /\
    forall k, (k < size bs)%nat ->
      let er := nth k (rows_of e) [] in
      let cr := nth k (rows_of c) [] in
      nondecreasing cr -> within_sentinels cr ->
      nondecreasing er /\
      forall i, (i < n)%nat ->
        nth i er 0 <= nth i cr 0 <= nth (S i) er 0.
Proof.
  intros Hwc Hsc Hn.
  destruct (wf_rows c bs n Hwc Hsc) as [Hc HRc].
  exists (of_rows bs (S n) (map edges_row (rows_of c))).
  split; [rewrite Hc at 1; now apply compute_edges_rows|].
  intros k Hk.
  assert (HRe : Rows bs (S n) (map edges_row (rows_of c))).
  { eapply Rows_map; [exact HRc|]. intros r Hr.
    rewrite edges_row_length; lia. }
  rewrite rows_of_of_rows by assumption.
  rewrite (nth_map' edges_row _ _ []) by (destruct HRc as [-> _]; lia).
  cbv zeta. intros Hm Hb.
  pose proof (rows_nth_length bs n _ k HRc Hk) as Hl.
  split.
  - apply edges_row_nondecreasing; (assumption || lia).
  - intros i Hi. apply center_in_own_bin; (assumption || lia).
Qed.

Lemma edges_ordered_and_centers_inside_witness :
  exists e,
    _compute_edges example_centers = Some e /\
    nondecreasing (nth 0 (rows_of e) []) /\
    forall i, (i < 3)%nat ->
      nth i (nth 0 (rows_of e) []) 0 <= nth i [1; 2; 3] 0
      <= nth (S i) (nth 0 (rows_of e) []) 0.
Proof.
  destruct (edges_ordered_and_centers_inside example_centers [1%nat] 3)
    as (e & He & H); try exact eq_refl; try lia.
  exists e. split; [exact He|].
  apply (H 0%nat); [simpl; lia| |].
  - exact example_row_nondecreasing.
  - exact example_row_within_sentinels.
Defined.





(** * Quantiles on a batch of one axis *)

Lemma scan_count_mono (acc : R) (probs : list R) (l1 l2 : R) :
  l1 <= l2 -> (scan_count acc probs l1 <= scan_count acc probs l2)%nat.
Proof.
  intros H. revert acc. induction probs as [|p ps IH]; intros acc; simpl;
    [lia|].
  specialize (IH (acc + p)).
  destruct (Rlt_dec l1 (acc + p)), (Rlt_dec l2 (acc + p)); try lia; lra.
Qed.

Lemma scan_count_all (acc : R) (probs : list R) (level : R) :
  Forall (fun p => 0 <= p) probs -> acc + Rsum probs <= level ->
  scan_count acc probs level = length probs.
Proof.
  intros HF. revert acc.
  induction HF as [|p ps Hp HF IH]; intros acc H; simpl in *;
    [reflexivity|].
  pose proof (Rsum_nonneg ps HF) as Hs. unfold Rsum in *.
  destruct (Rlt_dec level (acc + p)); [lra|].
  rewrite IH by lra. reflexivity.
Qed.

Lemma scan_count_none (probs : list R) (level : R) :
  Forall (fun p => 0 <= p) probs -> level < nth 0 probs 0 ->
  scan_count 0 probs level = O.
Proof.
  intros HF H. destruct probs as [|p ps]; [reflexivity|].
  cbn [scan_count nth] in *. inversion HF; subst.
  destruct (Rlt_dec level (0 + p)); [|lra].
  now rewrite scan_count_frozen.
Qed.

Lemma clip_index_lt (n : nat) (z : Z) : (1 <= n)%nat -> (clip_index n z < n)%nat.
Proof. unfold clip_index. lia. Qed.

Lemma clip_index_mono (n a b : nat) :
  (a <= b)%nat -> (clip_index n (Z.of_nat a) <= clip_index n (Z.of_nat b))%nat.
Proof. unfold clip_index. rewrite !Nat2Z.id. lia. Qed.

Lemma clip_index_full (n : nat) : clip_index n (Z.of_nat n) = (n - 1)%nat.
Proof. unfold clip_index. rewrite Nat2Z.id. lia. Qed.

(** The probabilities of the bins before bin [j] are all counted by the
    cumulative distribution at a point no center of theirs exceeds. *)
Lemma cdf_row_at_least (p c : list R) (x : R) (j : nat) :
  Forall (fun q => 0 <= q) p ->
  (forall i, (i < j)%nat -> nth i c 0 <= x) -> (j <= length c)%nat ->
  Rsum (firstn j p) <= cdf_row p c x.
Proof.
  intros HF. revert c j.
  induction HF as [|q p Hq HF IH]; intros c j H Hj.
  - rewrite firstn_nil. unfold cdf_row. simpl. lra.
  - destruct j as [|j].
    + simpl. apply cdf_row_range. now constructor.
    + destruct c as [|a c]; [simpl in Hj; lia|].
      specialize (IH c j ltac:(intros i Hi; apply (H (S i)); lia)
                    ltac:(simpl in Hj; lia)).
      pose proof (H O ltac:(lia)) as H0. cbn [nth] in H0.
      unfold cdf_row in *. cbn [firstn map zipWith Rsum fold_right].
      rewrite Rleb_true by assumption. cbn [mask_of].
      unfold Rsum in *. lra.
Qed.

Lemma Forall_prefix {A} (P : A -> Prop) (j : nat) (l : list A) :
  Forall P l -> Forall P (firstn j l).
Proof.
  intros H. revert j. induction H as [|a l Ha _ IH]; intros [|j]; simpl;
    constructor; auto.
Qed.

(** Only the bins before bin [j] are counted at a point below every
    center from bin [j] on. *)
Lemma cdf_row_at_most (p c : list R) (x : R) (j : nat) :
  Forall (fun q => 0 <= q) p ->
  (forall i, (j <= i < length c)%nat -> x < nth i c 0) ->
  cdf_row p c x <= Rsum (firstn j p).
Proof.
  intros HF. revert c j.
  induction HF as [|q p Hq HF IH]; intros c j H.
  - rewrite firstn_nil. unfold cdf_row. simpl. lra.
  - destruct c as [|a c].
    + unfold cdf_row. cbn [map zipWith Rsum fold_right].
      pose proof (Rsum_nonneg (firstn j (q :: p))) as Hs.
      apply Hs. apply Forall_prefix. now constructor.
    + destruct j as [|j].
      * rewrite cdf_row_below; [simpl; lra|].
        intros i Hi. apply H. lia.
      * specialize (IH c j ltac:(intros i Hi; apply (H (S i));
                                   cbn [length]; lia)).
        unfold cdf_row in *. cbn [firstn map zipWith Rsum fold_right].
        unfold Rsum in *.
        destruct (Rleb a x); cbn [mask_of]; lra.
Qed.

(** For non-decreasing centers and a level from 0 up to the total mass,
    the selected center is at most [x] exactly when the cumulative
    distribution at [x] exceeds the level. *)
Lemma quantile_cdf_row (p c : list R) (lev x : R) (N : nat) :
  Forall (fun q => 0 < q) p -> length p = N -> length c = N ->
  (1 <= N)%nat -> nondecreasing c -> 0 <= lev < Rsum p ->
  nth (clip_index N (Z.of_nat (scan_count 0 p lev))) c 0 <= x
  <-> lev < cdf_row p c x.
Proof.
  intros HF Hp Hc HN Hm Hlev.
  assert (HF0 : Forall (fun q => 0 <= q) p)
    by (revert HF; apply Forall_impl; intros; lra).
  destruct (scan_index_facts p lev N HF Hp HN) as (_ & H1 & H2 & _ & H4).
  set (i := scan_count 0 p lev) in *.
  specialize (H4 ltac:(lra)). specialize (H2 H4).
  rewrite clip_index_in_range by assumption.
  split.
  - intros Hx.
    pose proof (cdf_row_at_least p c x (S i) HF0) as HA.
    unfold cumsum in H2.
    assert (Rsum (firstn (S i) p) <= cdf_row p c x); [|lra].
    apply HA; [|lia].
    intros a Ha. pose proof (Hm a i ltac:(lia)). lra.
  - intros Hx.
    destruct (Rle_dec (nth i c 0) x) as [Hle|Hgt]; [assumption|].
    exfalso.
    pose proof (cdf_row_at_most p c x i HF0) as HB.
    assert (HB' : cdf_row p c x <= Rsum (firstn i p)).
    { apply HB. intros a Ha. pose proof (Hm i a ltac:(lia)). lra. }
    destruct i as [|i'].
    + simpl in HB'. lra.
    + specialize (H1 i' ltac:(lia)). unfold cumsum in H1. lra.
Qed.

(** X8: on a batch of one axis with non-decreasing centers, and for a level
    from 0 up to the total mass, [quantile(level)] is at most [x]
    exactly when [cdf(x)] exceeds the level. *)
Theorem quantile_le_iff_level_below_cdf (lp c level x : Tensor R)
  (B N L : nat) :
  wf lp -> shape lp = [B; N] -> wf c -> shape c = [B; N] ->
  wf level -> shape level = [L] -> wf x -> shape x = [B] ->
  (2 <= N)%nat -> (Z.of_nat N < 2 ^ 31)%Z ->
  exists d q r,
    __init__ lp c = Some d /\ fst (quantile level d) = Some q /\
    fst (cdf x d) = Some r /\
    forall l b, (l < L)%nat -> (b < B)%nat ->
      let p := map Rtrigo_def.exp (nth b (rows_of lp) []) in
      let cr := nth b (rows_of c) [] in
      let lev := nth l (data level) 0 in
      nondecreasing cr -> 0 <= lev < Rsum p ->
      (nth b (nth l (rows_of q) []) 0 <= nth b (data x) 0
       <-> lev < nth b (data r) 0).
Proof.
  intros Hwl Hsl Hwc Hsc Hwv Hsv Hwx Hsx HN HN32.
  destruct (quantile_entries lp c level B N L)
    as (d & q & Hd & Hq & _ & _ & Eq); try assumption.
  destruct (cdf_entries lp c x [B] N) as (d' & r & Hd' & Hr & _ & Er);
    try assumption.
  rewrite Hd in Hd'. injection Hd' as <-.
  exists d, q, r. repeat (split; [assumption|]).
  intros l b Hl Hb. cbv zeta. intros Hm Hlev.
  rewrite (Eq l b Hl Hb), (Er b) by (simpl; lia).
  destruct (wf_rows lp [B] N Hwl Hsl) as [_ HRl].
  destruct (wf_rows c [B] N Hwc Hsc) as [_ HRc].
  apply quantile_cdf_row; try assumption; try lia.
  - apply Forall_exp_pos.
  - rewrite length_map. apply (rows_nth_length [B]); [assumption|simpl; lia].
  - apply (rows_nth_length [B]); [assumption|simpl; lia].
Qed.

Lemma quantile_le_iff_level_below_cdf_witness :
  exists d q r,
    __init__ example_log_probs example_centers = Some d /\
    fst (quantile (mkT [1%nat] [0.4]) d) = Some q /\
    fst (cdf (mkT [1%nat] [2]) d) = Some r /\
    (nth 0 (nth 0 (rows_of q) []) 0 <= 2 <-> 0.4 < nth 0 (data r) 0).
Proof.
  destruct (quantile_le_iff_level_below_cdf example_log_probs
              example_centers (mkT [1%nat] [0.4]) (mkT [1%nat] [2]) 1 3 1)
    as (d & q & r & Hd & Hq & Hr & H); try exact eq_refl; try lia.
  exists d, q, r. split; [exact Hd|]. split; [exact Hq|]. split; [exact Hr|].
  apply (H 0%nat 0%nat); [lia|lia| |].
  - exact example_row_nondecreasing.
  - change (0 <= 0.4
            < Rsum (map Rtrigo_def.exp [ln 0.2; ln 0.3; ln 0.5])).
    rewrite example_mass. lra.
Defined.

(** X9: on a batch of one axis with non-decreasing centers, [quantile] does
    not decrease with the level, whatever the levels are. *)
Theorem quantile_non_decreasing_in_level (lp c level : Tensor R)
  (B N L : nat) :
  wf lp -> shape lp = [B; N] -> wf c -> shape c = [B; N] ->
  wf level -> shape level = [L] ->
  (2 <= N)%nat -> (Z.of_nat N < 2 ^ 31)%Z ->
  exists d q,
    __init__ lp c = Some d /\ fst (quantile level d) = Some q /\
    forall l1 l2 b, (l1 < L)%nat -> (l2 < L)%nat -> (b < B)%nat ->
      nondecreasing (nth b (rows_of c) []) ->
      nth l1 (data level) 0 <= nth l2 (data level) 0 ->
      nth b (nth l1 (rows_of q) []) 0 <= nth b (nth l2 (rows_of q) []) 0.
Proof.
  intros Hwl Hsl Hwc Hsc Hwv Hsv HN HN32.
  destruct (quantile_entries lp c level B N L)
    as (d & q & Hd & Hq & _ & _ & Eq); try assumption.
  exists d, q. repeat (split; [assumption|]).
  intros l1 l2 b Hl1 Hl2 Hb Hm Hle.
  rewrite (Eq l1 b Hl1 Hb), (Eq l2 b Hl2 Hb).
  destruct (wf_rows c [B] N Hwc Hsc) as [_ HRc].
  pose proof (rows_nth_length [B] N _ b HRc ltac:(simpl; lia)) as Hcl.
  apply Hm. split.
  - apply clip_index_mono. now apply scan_count_mono.
  - rewrite Hcl. apply clip_index_lt. lia.
Qed.

Lemma quantile_non_decreasing_in_level_witness :
  exists d q,
    __init__ example_log_probs example_centers = Some d /\
    fst (quantile (mkT [2%nat] [0.1; 0.9]) d) = Some q /\
    nth 0 (nth 0 (rows_of q) []) 0 <= nth 0 (nth 1 (rows_of q) []) 0.
Proof.
  destruct (quantile_non_decreasing_in_level example_log_probs
              example_centers (mkT [2%nat] [0.1; 0.9]) 1 3 2)
    as (d & q & Hd & Hq & H); try exact eq_refl; try lia.
  exists d, q. split; [exact Hd|]. split; [exact Hq|].
  apply (H 0%nat 1%nat 0%nat); [lia|lia|lia| |].
  - exact example_row_nondecreasing.
  - simpl. lra.
Defined.

(** X10: on a batch of one axis every entry of [quantile] is a center of its
    batch position, whatever the level: the last center for a level at
    or above the total mass (the gather clips the index [num_bins]), the
    first center for a level below the probability of the first bin, so
    for every negative level. *)
Theorem quantile_outside_the_mass_range (lp c level : Tensor R)
  (B N L : nat) :
  wf lp -> shape lp = [B; N] -> wf c -> shape c = [B; N] ->
  wf level -> shape level = [L] ->
  (2 <= N)%nat -> (Z.of_nat N < 2 ^ 31)%Z ->
  exists d q,
    __init__ lp c = Some d /\ fst (quantile level d) = Some q /\
    forall l b, (l < L)%nat -> (b < B)%nat ->
      let p := map Rtrigo_def.exp (nth b (rows_of lp) []) in
      let cr := nth b (rows_of c) [] in
      let lev := nth l (data level) 0 in
      let v := nth b (nth l (rows_of q) []) 0 in
      (exists i, (i < N)%nat /\ v = nth i cr 0) /\
      (Rsum p <= lev -> v = nth (N - 1) cr 0) /\
      (lev < nth 0 p 0 -> v = nth 0 cr 0).
Proof.
  intros Hwl Hsl Hwc Hsc Hwv Hsv HN HN32.
  destruct (quantile_entries lp c level B N L)
    as (d & q & Hd & Hq & _ & _ & Eq); try assumption.
  exists d, q. repeat (split; [assumption|]).
  intros l b Hl Hb. cbv zeta. rewrite (Eq l b Hl Hb).
  destruct (wf_rows lp [B] N Hwl Hsl) as [_ HRl].
  pose proof (rows_nth_length [B] N _ b HRl ltac:(simpl; lia)) as Hll.
  split; [|split].
  - eexists. split; [|reflexivity]. apply clip_index_lt. lia.
  - intros H. rewrite scan_count_all.
    + now rewrite length_map, Hll, clip_index_full.
    + apply Forall_exp_nonneg.
    + lra.
  - intros H. rewrite scan_count_none; try assumption.
    + unfold clip_index. simpl. reflexivity.
    + apply Forall_exp_nonneg.
Qed.

Lemma quantile_outside_the_mass_range_witness :
  exists d q,
    __init__ example_log_probs example_centers = Some d /\
    fst (quantile (mkT [2%nat] [-1; 7]) d) = Some q /\
    nth 0 (nth 0 (rows_of q) []) 0 = 1 /\
    nth 0 (nth 1 (rows_of q) []) 0 = 3.
Proof.
  destruct (quantile_outside_the_mass_range example_log_probs
              example_centers (mkT [2%nat] [-1; 7]) 1 3 2)
    as (d & q & Hd & Hq & H); try exact eq_refl; try lia.
  exists d, q. split; [exact Hd|]. split; [exact Hq|].
  destruct (H 0%nat 0%nat ltac:(lia) ltac:(lia)) as (_ & _ & Hlow).
  destruct (H 1%nat 0%nat ltac:(lia) ltac:(lia)) as (_ & Hhigh & _).
  split.
  - apply Hlow. simpl. rewrite exp_ln by lra. lra.
  - apply Hhigh.
    change (Rsum (map Rtrigo_def.exp [ln 0.2; ln 0.3; ln 0.5]) <= 7).
    rewrite example_mass. lra.
Defined.

(** X11: with non-decreasing centers the cumulative distribution is a step
    function: from the center of bin [i] up to the next center (or from
    the last center on) it is the cumulative probability through bin
    [i]. *)
Theorem cdf_constant_between_centers (lp c x : Tensor R) (bs : list nat)
  (n : nat) :
  wf lp -> shape lp = bs ++ [n] -> wf c -> shape c = bs ++ [n] ->
  wf x -> shape x = bs -> (2 <= n)%nat ->
  exists d r,
    __init__ lp c = Some d /\ fst (cdf x d) = Some r /\
    forall k, (k < size bs)%nat ->
      let p := map Rtrigo_def.exp (nth k (rows_of lp) []) in
      let cr := nth k (rows_of c) [] in
      let xk := nth k (data x) 0 in
      nondecreasing cr ->
      forall i, (i < n)%nat -> nth i cr 0 <= xk ->
                ((S i < n)%nat -> xk < nth (S i) cr 0) ->
                nth k (data r) 0 = cumsum p i.
Proof.
  intros Hwl Hsl Hwc Hsc Hwx Hsx Hn.
  destruct (cdf_entries lp c x bs n) as (d & r & Hd & Hr & _ & He);
    try assumption.
  exists d, r. split; [assumption|]. split; [assumption|].
  intros k Hk. rewrite (He k Hk). cbv zeta. intros Hm i Hi Hlo Hhi.
  destruct (wf_rows c bs n Hwc Hsc) as [_ HRc].
  pose proof (rows_nth_length bs n _ k HRc Hk) as Hcl.
  set (p := map Rtrigo_def.exp (nth k (rows_of lp) [])).
  set (cr := nth k (rows_of c) []) in *.
  assert (HF : Forall (fun q => 0 <= q) p) by apply Forall_exp_nonneg.
  unfold cumsum. apply Rle_antisym.
  - apply cdf_row_at_most; [assumption|].
    intros a Ha. pose proof (Hm (S i) a ltac:(lia)).
    specialize (Hhi ltac:(lia)). lra.
  - apply cdf_row_at_least; [assumption| |lia].
    intros a Ha. pose proof (Hm a i ltac:(lia)). lra.
Qed.

Lemma cdf_constant_between_centers_witness :
  exists d r,
    __init__ example_log_probs example_centers = Some d /\
    fst (cdf (mkT [1%nat] [2.5]) d) = Some r /\
    nth 0 (data r) 0
    = cumsum (map Rtrigo_def.exp [ln 0.2; ln 0.3; ln 0.5]) 1.
Proof.
  destruct (cdf_constant_between_centers example_log_probs example_centers
              (mkT [1%nat] [2.5]) [1%nat] 3)
    as (d & r & Hd & Hr & H); try exact eq_refl; try lia.
  exists d, r. split; [exact Hd|]. split; [exact Hr|].
  apply (H 0%nat ltac:(simpl; lia) example_row_nondecreasing 1%nat);
    [lia | simpl; lra | intros _; simpl; lra].
Defined.

(** * Location and scale *)

(** The object [distribution] builds: the constructor applied to the
    probability argument and to rows of centers scaled and then shifted. *)
Lemma distribution_object (probs ct : Tensor R) (cs : list R)
  (loc scale : option (Tensor R)) (bs : list nat) (n : nat) :
  wf probs -> shape probs = bs ++ [n] -> length cs = n -> (2 <= n)%nat ->
  ct = mkT [n] cs \/ ct = of_rows bs n (repeat cs (size bs)) ->
  opt_ok bs loc -> opt_ok bs scale ->
  exists crows,
    Rows bs n crows /\
    distribution (probs, ct) loc scale
    = __init__ probs (of_rows bs n crows) /\
    forall k, (k < size bs)%nat ->
      nth k crows []
      = map (scale_then_shift (opt_at k scale) (opt_at k loc)) cs.
Proof.
  intros Hw Hs Hc Hn Hct Hloc Hscale.
  unfold distribution. cbn [fst snd].
  rewrite (centers_broadcast_to_probs ct probs bs n cs) by assumption.
  cbn [obind].
  pose proof (Rows_repeat bs n cs Hc) as HR0.
  rewrite (apply_scale bs n _ scale HR0 Hscale). cbn [obind].
  pose proof (Rows_opt_step bs n Rmult _ scale HR0 Hscale) as HR1.
  rewrite (apply_loc bs n _ loc HR1 Hloc). cbn [obind].
  pose proof (Rows_opt_step bs n Rplus _ loc HR1 Hloc) as HR2.
  eexists. split; [exact HR2|]. split; [reflexivity|].
  intros k Hk.
  destruct scale as [[ss sd]|], loc as [[ls ld]|];
    cbn [opt_ok wf shape data opt_at] in *;
    repeat match goal with H : _ /\ _ |- _ => destruct H end;
    unfold wf in *; cbn [shape data] in *; subst.
  - rewrite (nth_zipWith _ _ _ _ [] 0 []) by (rewrite ?zipWith_length,
      ?repeat_length; lia).
    rewrite (nth_zipWith _ _ _ _ [] 0 []) by (rewrite ?repeat_length; lia).
    rewrite nth_repeat_lt by lia. now rewrite map_map.
  - rewrite (nth_zipWith _ _ _ _ [] 0 []) by (rewrite ?repeat_length; lia).
    now rewrite nth_repeat_lt by lia.
  - rewrite (nth_zipWith _ _ _ _ [] 0 []) by (rewrite ?repeat_length; lia).
    now rewrite nth_repeat_lt by lia.
  - rewrite nth_repeat_lt by lia. unfold scale_then_shift.
    now rewrite map_id.
Qed.

Lemma mean_row_affine (p cs : list R) (so lo : option R) :
  length p = length cs ->
  mean_row p (map (scale_then_shift so lo) cs)
  = match so with Some s => s | None => 1 end * mean_row p cs
    + match lo with Some l => l | None => 0 end * Rsum p.
Proof.
  unfold mean_row. revert cs.
  induction p as [|q p IH]; intros [|z cs] Hl; simpl in *;
    try discriminate; [destruct so, lo; lra|].
  fold (Rsum (zipWith Rmult p (map (scale_then_shift so lo) cs))).
  rewrite IH by lia. unfold Rsum, scale_then_shift.
  destruct so, lo; lra.
Qed.

(** The means and standard deviations of the distribution
    [distribution] builds, with and without location and scale, from
    the rows of probabilities and the rank-1 centers. *)
Lemma distribution_moments (probs ct : Tensor R)
  (cs : list R) (loc scale : option (Tensor R)) (bs : list nat) (n : nat) :
  wf probs -> shape probs = bs ++ [n] -> length cs = n -> (2 <= n)%nat ->
  ct = mkT [n] cs \/ ct = of_rows bs n (repeat cs (size bs)) ->
  opt_ok bs loc -> opt_ok bs scale ->
  exists d0 d m0 m s0 s,
    distribution (probs, ct) None None = Some d0 /\
    distribution (probs, ct) loc scale = Some d /\
    fst (mean d0) = Some m0 /\ fst (mean d) = Some m /\
    fst (stddev d0) = Some s0 /\ fst (stddev d) = Some s /\
    forall k, (k < size bs)%nat ->
      let p := map Rtrigo_def.exp (nth k (rows_of probs) []) in
      let cs' := map (scale_then_shift (opt_at k scale) (opt_at k loc)) cs in
      length p = length cs /\
      nth k (data m0) 0 = mean_row p cs /\
      nth k (data m) 0 = mean_row p cs' /\
      nth k (data s0) None = nd_sqrt (radicand_row p cs) /\
      nth k (data s) None = nd_sqrt (radicand_row p cs').
Proof.
  intros Hw Hs Hc Hn Hct Hloc Hscale.
  destruct (distribution_object probs ct cs None None bs n)
    as (rows0 & HR0 & E0 & Hrows0); try assumption; try exact I.
  destruct (distribution_object probs ct cs loc scale bs n)
    as (rows1 & HR1 & E1 & Hrows1); try assumption.
  destruct (mean_stddev_entries probs (of_rows bs n rows0) bs n)
    as (d0 & m0 & s0 & Hd0 & Hm0 & Hs0 & _ & _ & He0);
    try assumption; try reflexivity; try now apply of_rows_wf.
  destruct (mean_stddev_entries probs (of_rows bs n rows1) bs n)
    as (d & m & s & Hd & Hm & Hsd & _ & _ & He1);
    try assumption; try reflexivity; try now apply of_rows_wf.
  exists d0, d, m0, m, s0, s.
  split; [now rewrite E0|]. split; [now rewrite E1|].
  repeat (split; [assumption|]).
  intros k Hk. cbv zeta.
  destruct (He0 k Hk) as [M0 S0]. destruct (He1 k Hk) as [M1 S1].
  cbv zeta in M0, S0, M1, S1.
  rewrite rows_of_of_rows in M0, S0, M1, S1 by assumption.
  rewrite Hrows0 in M0, S0 by assumption.
  rewrite Hrows1 in M1, S1 by assumption.
  cbn [opt_at] in M0, S0. unfold scale_then_shift at 1 in M0.
  unfold scale_then_shift at 1 in S0. rewrite map_id in M0, S0.
  destruct (wf_rows probs bs n Hw Hs) as [_ HRp].
  pose proof (rows_nth_length bs n _ k HRp Hk) as Hpl.
  split; [rewrite length_map; lia|].
  repeat (split; [assumption|]). assumption.
Qed.

(** X12: at every batch position the mean of the distribution
    [distribution] builds is the mean of the one it builds without
    location and scale, times the scale, plus the location times the sum
    of the bin probabilities (an absent scale counts as 1, an absent
    location as 0). *)
Theorem distribution_mean_under_loc_scale (probs ct : Tensor R)
  (cs : list R) (loc scale : option (Tensor R)) (bs : list nat) (n : nat) :
  wf probs -> shape probs = bs ++ [n] -> length cs = n -> (2 <= n)%nat ->
  ct = mkT [n] cs \/ ct = of_rows bs n (repeat cs (size bs)) ->
  opt_ok bs loc -> opt_ok bs scale ->
  exists d0 d m0 m,
    distribution (probs, ct) None None = Some d0 /\
    distribution (probs, ct) loc scale = Some d /\
    fst (mean d0) = Some m0 /\ fst (mean d) = Some m /\
    forall k, (k < size bs)%nat ->
      let p := map Rtrigo_def.exp (nth k (rows_of probs) []) in
      let a := match opt_at k scale with Some a => a | None => 1 end in
      let l := match opt_at k loc with Some l => l | None => 0 end in
      nth k (data m) 0 = a * nth k (data m0) 0 + l * Rsum p.
Proof.
  intros Hw Hs Hc Hn Hct Hloc Hscale.
  destruct (distribution_moments probs ct cs loc scale bs n)
    as (d0 & d & m0 & m & s0 & s & Hd0 & Hd & Hm0 & Hm & _ & _ & He);
    try assumption.
  exists d0, d, m0, m. repeat (split; [assumption|]).
  intros k Hk. cbv zeta.
  destruct (He k Hk) as (Hlen & M0 & M1 & _).
  rewrite M1, M0. now apply mean_row_affine.
Qed.

Lemma distribution_mean_under_loc_scale_witness :
  exists d0 d m0 m,
    distribution (mkT [2; 2]%nat [ln 0.5; ln 0.5; ln 0.25; ln 0.75],
                  mkT [2%nat] [1; 2]) None None = Some d0 /\
    distribution (mkT [2; 2]%nat [ln 0.5; ln 0.5; ln 0.25; ln 0.75],
                  mkT [2%nat] [1; 2])
                 (Some (mkT [2%nat] [10; 20])) (Some (mkT [2%nat] [2; 3]))
    = Some d /\
    fst (mean d0) = Some m0 /\ fst (mean d) = Some m /\
    forall k, (k < size [2%nat])%nat ->
      let p := map Rtrigo_def.exp
                 (nth k (rows_of (mkT [2; 2]%nat
                                    [ln 0.5; ln 0.5; ln 0.25; ln 0.75])) []) in
      let a := match opt_at k (Some (mkT [2%nat] [2; 3])) with
               | Some a => a | None => 1 end in
      let l := match opt_at k (Some (mkT [2%nat] [10; 20])) with
               | Some l => l | None => 0 end in
      nth k (data m) 0 = a * nth k (data m0) 0 + l * Rsum p.
Proof.
  apply (distribution_mean_under_loc_scale
           (mkT [2; 2]%nat [ln 0.5; ln 0.5; ln 0.25; ln 0.75])
           (mkT [2%nat] [1; 2]) [1; 2]
           (Some (mkT [2%nat] [10; 20])) (Some (mkT [2%nat] [2; 3]))
           [2%nat] 2%nat);
    try exact eq_refl; try lia.
  - left; reflexivity.
  - split; exact eq_refl.
  - split; exact eq_refl.
Defined.

(** X14: on a batch of one axis the quantiles of the distribution
    [distribution] builds are those it builds without location and
    scale, scaled and then shifted: the scan reads the probabilities
    only, so the selected bin is the same. *)
Theorem distribution_quantile_under_loc_scale (probs ct level : Tensor R)
  (cs : list R) (loc scale : option (Tensor R)) (B N L : nat) :
  wf probs -> shape probs = [B; N] -> length cs = N -> (2 <= N)%nat ->
  (Z.of_nat N < 2 ^ 31)%Z ->
  ct = mkT [N] cs \/ ct = of_rows [B] N (repeat cs (size [B])) ->
  opt_ok [B] loc -> opt_ok [B] scale ->
  wf level -> shape level = [L] ->
  exists d0 d q0 q,
    distribution (probs, ct) None None = Some d0 /\
    distribution (probs, ct) loc scale = Some d /\
    fst (quantile level d0) = Some q0 /\ fst (quantile level d) = Some q /\
    forall l b, (l < L)%nat -> (b < B)%nat ->
      nth b (nth l (rows_of q) []) 0
      = scale_then_shift (opt_at b scale) (opt_at b loc)
          (nth b (nth l (rows_of q0) []) 0).
Proof.
  intros Hw Hs Hc Hn HN32 Hct Hloc Hscale Hwv Hsv.
  destruct (distribution_object probs ct cs None None [B] N)
    as (rows0 & HR0 & E0 & Hrows0); try assumption; try exact I.
  destruct (distribution_object probs ct cs loc scale [B] N)
    as (rows1 & HR1 & E1 & Hrows1); try assumption.
  destruct (quantile_entries probs (of_rows [B] N rows0) level B N L)
    as (d0 & q0 & Hd0 & Hq0 & _ & _ & He0);
    try assumption; try reflexivity; try now apply of_rows_wf.
  destruct (quantile_entries probs (of_rows [B] N rows1) level B N L)
    as (d & q & Hd & Hq & _ & _ & He1);
    try assumption; try reflexivity; try now apply of_rows_wf.
  exists d0, d, q0, q.
  split; [now rewrite E0|]. split; [now rewrite E1|].
  repeat (split; [assumption|]).
  intros l b Hl Hb.
  rewrite (He0 l b Hl Hb), (He1 l b Hl Hb).
  rewrite !rows_of_of_rows by assumption.
  rewrite Hrows0, Hrows1 by (simpl; lia).
  cbn [opt_at]. unfold scale_then_shift at 3. rewrite map_id.
  set (i := clip_index N _).
  assert (Hi : (i < length cs)%nat)
    by (rewrite Hc; apply clip_index_lt; lia).
  now rewrite (nth_map' _ _ _ 0) by assumption.
Qed.

Lemma distribution_quantile_under_loc_scale_witness :
  exists d0 d q0 q,
    distribution (mkT [2; 2]%nat [ln 0.5; ln 0.5; ln 0.25; ln 0.75],
                  mkT [2%nat] [1; 2]) None None = Some d0 /\
    distribution (mkT [2; 2]%nat [ln 0.5; ln 0.5; ln 0.25; ln 0.75],
                  mkT [2%nat] [1; 2])
                 (Some (mkT [2%nat] [10; 20])) (Some (mkT [2%nat] [2; 3]))
    = Some d /\
    fst (quantile (mkT [1%nat] [0.6]) d0) = Some q0 /\
    fst (quantile (mkT [1%nat] [0.6]) d) = Some q /\
    forall l b, (l < 1)%nat -> (b < 2)%nat ->
      nth b (nth l (rows_of q) []) 0
      = scale_then_shift (opt_at b (Some (mkT [2%nat] [2; 3])))
                         (opt_at b (Some (mkT [2%nat] [10; 20])))
          (nth b (nth l (rows_of q0) []) 0).
Proof.
  apply (distribution_quantile_under_loc_scale
           (mkT [2; 2]%nat [ln 0.5; ln 0.5; ln 0.25; ln 0.75])
           (mkT [2%nat] [1; 2]) (mkT [1%nat] [0.6]) [1; 2]
           (Some (mkT [2%nat] [10; 20])) (Some (mkT [2%nat] [2; 3]))
           2 2 1);
    try exact eq_refl; try lia.
  - left; reflexivity.
  - split; exact eq_refl.
  - split; exact eq_refl.
Defined.

(** * The object across calls *)

(** What each method returns on an object whose fields are [lp], [c],
    [e] and whose memo is empty or holds [exp lp]: a function of the
    three arrays alone. *)
Lemma bin_probs_Inv_run lp c e s :
  Inv lp c e s ->
  exists s', bin_probs s = (Some (exp lp), s') /\ Inv lp c e s'.
Proof.
  intros H. pose proof (bin_probs_Inv lp c e s H) as H'.
  destruct (bin_probs_fills lp c e s H) as [Hf _].
  destruct (bin_probs s) as [o s'] eqn:E. cbn [fst snd] in *.
  exists s'. subst o. now split.
Qed.

Lemma mean_Inv lp c e s :
  Inv lp c e s ->
  exists s', mean s = (pc <- broadcast_mul (exp lp) c ;; sum pc (-1), s')
             /\ Inv lp c e s'.
Proof.
  intros H. destruct (bin_probs_Inv_run lp c e s H) as (s' & E & H').
  exists s'. split; [|assumption].
  unfold mean, mbind, attr, lift. rewrite E.
  destruct H' as (_ & -> & _). reflexivity.
Qed.

Lemma stddev_Inv lp c e s :
  Inv lp c e s ->
  fst (stddev s)
  = (ex2 <- (pc <- broadcast_mul (exp lp) (square c) ;; sum pc (-1)) ;;
     mu <- (pc <- broadcast_mul (exp lp) c ;; sum pc (-1)) ;;
     d <- broadcast_sub ex2 (square mu) ;; Some (sqrt d)).
Proof.
  intros H. destruct (bin_probs_Inv_run lp c e s H) as (s' & E & H').
  destruct (mean_Inv lp c e s' H') as (s'' & Em & _).
  unfold stddev, mbind, attr, lift. rewrite E.
  pose proof H' as (_ & -> & _).
  destruct (pc <- broadcast_mul (exp lp) (square c) ;; sum pc (-1))
    as [ex2|]; [|reflexivity].
  rewrite Em. cbn [obind].
  destruct (pc <- broadcast_mul (exp lp) c ;; sum pc (-1)) as [mu|];
    reflexivity.
Qed.

Lemma log_prob_Inv lp c e s x :
  Inv lp c e s ->
  fst (log_prob x s)
  = (x <- expand_dims x (-1) ;;
     left_edges <- slice_axis e (-1) 0 (Some (-1)%Z) ;;
     right_edges <- slice_axis e (-1) 1 None ;;
     m1 <- broadcast_lesser_equal left_edges x ;;
     m2 <- broadcast_lesser x right_edges ;;
     mask <- broadcast_mul m1 m2 ;;
     lm <- broadcast_mul lp mask ;;
     sum lm (-1)).
Proof.
  intros (H1 & H2 & H3 & _). unfold log_prob, mbind, attr, lift.
  now rewrite H1, H3.
Qed.

Lemma cdf_Inv lp c e s x :
  Inv lp c e s ->
  fst (cdf x s)
  = (x <- expand_dims x (-1) ;;
     mask <- broadcast_lesser_equal c x ;;
     pm <- broadcast_mul (exp lp) mask ;; sum pm (-1)).
Proof.
  intros H. destruct (bin_probs_Inv_run lp c e s H) as (s' & E & H').
  pose proof H as (_ & Hc & _).
  unfold cdf, mbind, attr, lift.
  destruct (expand_dims x (-1)) as [x1|]; [|reflexivity].
  rewrite Hc. cbn [obind].
  destruct (broadcast_lesser_equal c x1) as [mask|]; [|reflexivity].
  now rewrite E.
Qed.

Lemma quantile_Inv lp c e s level :
  Inv lp c e s ->
  fst (quantile level s)
  = (scan <- quantile_scan (exp lp) level ;;
     let (zeros_cdf, states) := scan in
     let (_, idx) := states in
     c1 <- expand_dims c 1 ;;
     z1 <- expand_dims zeros_cdf (-1) ;;
     centers_expanded <- broadcast_add c1 z1 ;;
     a <- pick centers_expanded idx (-1) ;;
     swapaxes_0_1 a).
Proof.
  intros H. destruct (bin_probs_Inv_run lp c e s H) as (s' & E & H').
  unfold quantile, mbind, attr, lift. rewrite E.
  destruct H' as (_ & -> & _). reflexivity.
Qed.

Lemma sample_Inv lp c e s draw num_samples :
  Inv lp c e s ->
  fst (sample draw num_samples s)
  = _sample_multiple
      (fun bin_probs =>
         indices <- sample_multinomial draw bin_probs ;;
         match num_samples with
         | None =>
           picked <- pick c indices (-1) ;;
           reshape_like picked (zeros_like (astype_float32 indices))
         | Some k =>
           e <- expand_dims c 0 ;;
           r <- repeat_axis0 e k ;;
           pick r indices (-1)
         end)
      (exp lp) num_samples.
Proof.
  intros H. destruct (bin_probs_Inv_run lp c e s H) as (s' & E & H').
  pose proof H as (_ & Hc & _).
  unfold sample, mbind, attr, lift. rewrite E, Hc. reflexivity.
Qed.

Lemma init_Inv lp c d :
  __init__ lp c = Some d -> Inv lp c (bin_edges d) d.
Proof.
  unfold __init__. destruct (_compute_edges c) as [e|]; [|discriminate].
  cbn [obind]. intros H. injection H as <-. cbn [bin_edges].
  repeat split. left. now split.
Qed.

Lemma run_Inv lp c d calls :
  __init__ lp c = Some d -> Inv lp c (bin_edges d) (run calls d).
Proof.
  intros H. apply run_preserves; [apply bin_probs_Inv|now apply init_Inv].
Qed.

(** X15: what a method returns does not depend on the calls made before it:
    after any sequence of public calls every method returns what it
    returns on the freshly constructed object. *)
Theorem results_independent_of_earlier_calls (lp c : Tensor R) (d : Binned)
  (calls : list call) :
  __init__ lp c = Some d ->
  let s := run calls d in
  fst (mean s) = fst (mean d) /\
  fst (stddev s) = fst (stddev d) /\
  (forall x, fst (log_prob x s) = fst (log_prob x d)) /\
  (forall x, fst (cdf x s) = fst (cdf x d)) /\
  (forall level, fst (quantile level s) = fst (quantile level d)) /\
  (forall draw num_samples,
     fst (sample draw num_samples s) = fst (sample draw num_samples d)).
Proof.
  intros Hd s.
  pose proof (init_Inv lp c d Hd) as H0.
  pose proof (run_Inv lp c d calls Hd) as Hs. fold s in Hs.
  split; [|split; [|split; [|split; [|split]]]].
  - destruct (mean_Inv _ _ _ _ H0) as (? & -> & _).
    destruct (mean_Inv _ _ _ _ Hs) as (? & -> & _). reflexivity.
  - now rewrite (stddev_Inv _ _ _ _ H0), (stddev_Inv _ _ _ _ Hs).
  - intros x.
    now rewrite (log_prob_Inv _ _ _ _ x H0), (log_prob_Inv _ _ _ _ x Hs).
  - intros x. now rewrite (cdf_Inv _ _ _ _ x H0), (cdf_Inv _ _ _ _ x Hs).
  - intros level.
    now rewrite (quantile_Inv _ _ _ _ level H0),
                (quantile_Inv _ _ _ _ level Hs).
  - intros draw num_samples.
    now rewrite (sample_Inv _ _ _ _ draw num_samples H0),
                (sample_Inv _ _ _ _ draw num_samples Hs).
Qed.

Lemma results_independent_of_earlier_calls_witness :
  fst (mean (run [CallStddev; CallQuantile (mkT [1%nat] [0.5])]
                 example_object))
  = fst (mean example_object).
Proof.
  destruct (results_independent_of_earlier_calls
              example_log_probs example_centers example_object
              [CallStddev; CallQuantile (mkT [1%nat] [0.5])])
    as (H & _).
  - reflexivity.
  - exact H.
Defined.

(** X16: the constructor applied to the [args] of an object, after any
    sequence of public calls on it, builds the object as it was when
    first constructed. *)
Theorem args_rebuild_the_object (lp c : Tensor R) (d : Binned)
  (calls : list call) :
  __init__ lp c = Some d ->
  match args (run calls d) with
  | [a; b] => __init__ a b = Some d
  | _ => False
  end.
Proof.
  intros Hd. destruct (run_Inv lp c d calls Hd) as (H1 & H2 & _).
  unfold args. now rewrite H1, H2.
Qed.

Lemma args_rebuild_the_object_witness :
  match args (run [CallMean; CallSample (mkT [1%nat] [2%Z]) None]
                  example_object) with
  | [a; b] => __init__ a b = Some example_object
  | _ => False
  end.
Proof.
  apply (args_rebuild_the_object example_log_probs example_centers).
  reflexivity.
Defined.

(** * Sampling *)

Lemma nth_concat_repeat {A} (l : list A) (m j k : nat) (d : A) :
  (j < m)%nat -> (k < length l)%nat ->
  nth (j * length l + k) (List.concat (repeat l m)) d = nth k l d.
Proof.
  revert j. induction m as [|m IH]; intros j Hj Hk; [lia|].
  cbn [repeat List.concat]. destruct j as [|j].
  - simpl. now rewrite app_nth1.
  - rewrite app_nth2 by (simpl; lia).
    replace (S j * length l + k - length l)%nat
      with (j * length l + k)%nat by (simpl; lia).
    apply IH; lia.
Qed.

Lemma length_concat_repeat {A} (l : list A) (m : nat) :
  length (List.concat (repeat l m)) = (m * length l)%nat.
Proof.
  induction m as [|m IH]; simpl; [reflexivity|].
  now rewrite length_app, IH.
Qed.

Lemma concat_repeat_concat {A} (l : list (list A)) (m : nat) :
  List.concat (repeat (List.concat l) m)
  = List.concat (List.concat (repeat l m)).
Proof.
  induction m as [|m IH]; simpl; [reflexivity|].
  now rewrite concat_app, IH.
Qed.

Lemma expand_dims_first {A} (t : Tensor A) :
  expand_dims t 0 = Some (mkT (1%nat :: shape t) (data t)).
Proof.
  unfold expand_dims. rewrite norm_new_axis_zero. reflexivity.
Qed.

(** An array with a first axis of length 1 replicated [m] times along
    it, as [sample] does with the centers when [num_samples] is given. *)
Lemma repeat_rows {A} (bs : list nat) (n m : nat) (rows : list (list A)) :
  Rows bs n rows -> (1 <= m)%nat ->
  repeat_axis0 (mkT (1%nat :: shape (of_rows bs n rows))
                    (data (of_rows bs n rows))) m
  = Some (of_rows (m :: bs) n (List.concat (repeat rows m))).
Proof.
  intros HR Hm. pose proof (of_rows_wf bs n rows HR) as Hwf.
  unfold repeat_axis0, of_rows in *. cbn [shape data].
  replace (Nat.eqb m 0) with false by (symmetry; apply Nat.eqb_neq; lia).
  unfold wf in Hwf. cbn [shape data] in Hwf.
  cbn [chunks]. rewrite <- Hwf, firstn_all.
  cbn [map List.concat app]. rewrite app_nil_r, Nat.mul_1_l.
  now rewrite concat_repeat_concat.
Qed.

Lemma Rows_replicated {A} (bs : list nat) (n m : nat)
  (rows : list (list A)) :
  Rows bs n rows -> Rows (m :: bs) n (List.concat (repeat rows m)).
Proof.
  intros [Hl HF]. split.
  - rewrite length_concat_repeat, Hl. reflexivity.
  - apply Forall_concat. apply Forall_forall. intros r Hr.
    apply repeat_spec in Hr. now subst.
Qed.

(** X17: without [num_samples], and for a draw of the batch shape, [sample]
    returns an array of shape [batch_shape] whose entry at a batch position
    is a center of that position: the one at the drawn index when the
    index is a bin index. *)
Theorem sample_returns_the_drawn_centers (lp c : Tensor R)
  (draw : Tensor Z) (bs : list nat) (n : nat) :
  wf lp -> shape lp = bs ++ [n] -> wf c -> shape c = bs ++ [n] ->
  wf draw -> shape draw = bs -> (2 <= n)%nat ->
  exists d r,
    __init__ lp c = Some d /\ fst (sample draw None d) = Some r /\
    shape r = batch_shape d /\ wf r /\
    forall k, (k < size bs)%nat ->
      let cr := nth k (rows_of c) [] in
      let ix := nth k (data draw) 0%Z in
      exists i, (i < n)%nat /\ nth k (data r) 0 = nth i cr 0 /\
                ((0 <= ix < Z.of_nat n)%Z -> i = Z.to_nat ix).
Proof.
  intros Hwl Hsl Hwc Hsc Hwd Hsd Hn.
  destruct (wf_rows c bs n Hwc Hsc) as [Hc HRc].
  remember (rows_of c) as crows eqn:Ecr. clear Ecr. subst c.
  destruct draw as [sd idata]. unfold wf in Hwd. cbn [shape data] in *.
  subst sd.
  pose proof (init_rows lp bs n crows HRc Hn) as Hd.
  eexists. eexists. split; [exact Hd|].
  rewrite (sample_Inv lp _ _ _ _ None (init_Inv lp _ _ Hd)).
  cbn [_sample_multiple]. unfold sample_multinomial.
  cbn [shape exp tmap]. rewrite Hsl, removelast_last, list_eqb_refl.
  cbn [obind]. rewrite pick_rows by assumption.
  cbn [obind]. unfold reshape_like. cbn [shape zeros_like astype_float32 tmap].
  rewrite Nat.eqb_refl.
  split; [reflexivity|].
  unfold batch_shape. cbn [shape data bin_log_probs].
  rewrite Hsl, removelast_last. split; [reflexivity|]. split.
  - unfold wf. cbn [shape data]. rewrite zipWith_length.
    destruct HRc as [-> _]. lia.
  - intros k Hk. cbv zeta. destruct HRc as [Hl _].
    rewrite (nth_zipWith _ _ _ _ [] 0%Z 0) by lia.
    exists (clip_index n (nth k idata 0%Z)).
    split; [apply clip_index_lt; lia|]. split; [reflexivity|].
    intros Hr. unfold clip_index. lia.
Qed.

Lemma sample_returns_the_drawn_centers_witness :
  exists d r,
    __init__ example_log_probs example_centers = Some d /\
    fst (sample (mkT [1%nat] [2%Z]) None d) = Some r /\
    shape r = batch_shape d /\ wf r /\ nth 0 (data r) 0 = 3.
Proof.
  destruct (sample_returns_the_drawn_centers example_log_probs
              example_centers (mkT [1%nat] [2%Z]) [1%nat] 3)
    as (d & r & Hd & Hr & Hs & Hw & H); try exact eq_refl; try lia.
  exists d, r. split; [exact Hd|]. split; [exact Hr|].
  split; [exact Hs|]. split; [exact Hw|].
  destruct (H 0%nat ltac:(simpl; lia)) as (i & _ & Hv & Hi).
  rewrite Hv, Hi by (simpl; lia). reflexivity.
Defined.

(** X18: with [num_samples = m] at least 1, and for a draw of shape
    [(m, *batch)],
    [sample] returns an array of shape [(m, *batch_shape)]: sample [j] at a
    batch position is a center of that position, the one at the index
    drawn for that sample and position when it is a bin index. *)
Theorem sample_with_num_samples (lp c : Tensor R) (draw : Tensor Z)
  (bs : list nat) (n m : nat) :
  wf lp -> shape lp = bs ++ [n] -> wf c -> shape c = bs ++ [n] ->
  wf draw -> shape draw = m :: bs -> (2 <= n)%nat -> (1 <= m)%nat ->
  exists d r,
    __init__ lp c = Some d /\ fst (sample draw (Some m) d) = Some r /\
    shape r = m :: batch_shape d /\ wf r /\
    forall j k, (j < m)%nat -> (k < size bs)%nat ->
      let cr := nth k (rows_of c) [] in
      let ix := nth (j * size bs + k) (data draw) 0%Z in
      exists i, (i < n)%nat /\
                nth (j * size bs + k) (data r) 0 = nth i cr 0 /\
                ((0 <= ix < Z.of_nat n)%Z -> i = Z.to_nat ix).
Proof.
  intros Hwl Hsl Hwc Hsc Hwd Hsd Hn Hm.
  destruct (wf_rows lp bs n Hwl Hsl) as [Hlp HRl].
  destruct (wf_rows c bs n Hwc Hsc) as [Hc HRc].
  remember (rows_of c) as crows eqn:Ecr. clear Ecr. subst c.
  destruct draw as [sd idata]. unfold wf in Hwd. cbn [shape data] in *.
  subst sd. cbn [size fold_right] in Hwd. fold (size bs) in Hwd.
  pose proof (init_rows lp bs n crows HRc Hn) as Hd.
  eexists. eexists. split; [exact Hd|].
  rewrite (sample_Inv lp _ _ _ _ (Some m) (init_Inv lp _ _ Hd)).
  cbn [_sample_multiple].
  assert (HRp : Rows bs n (map (map Rtrigo_def.exp) (rows_of lp)))
    by now apply Rows_map_map.
  rewrite Hlp at 1. unfold exp. rewrite tmap_of_rows.
  rewrite expand_dims_first. cbn [obind].
  rewrite (repeat_rows bs n m _ HRp Hm). cbn [obind].
  unfold sample_multinomial, of_rows at 1. cbn [shape].
  rewrite removelast_last, list_eqb_refl. cbn [obind].
  rewrite expand_dims_first. cbn [obind].
  rewrite (repeat_rows bs n m _ HRc Hm). cbn [obind].
  pose proof (Rows_replicated bs n m _ HRc) as HRr.
  rewrite pick_rows
    by (try assumption; cbn [size fold_right]; exact Hwd).
  split; [reflexivity|].
  unfold batch_shape. cbn [shape data bin_log_probs].
  rewrite Hsl, removelast_last. split; [reflexivity|]. split.
  - unfold wf. cbn [shape data]. rewrite zipWith_length.
    destruct HRr as [-> _].
    change (size (m :: bs)) with (m * size bs)%nat. lia.
  - intros j k Hj Hk. cbv zeta. destruct HRc as [Hl _].
    assert (Hjk : (j * size bs + k < m * size bs)%nat) by nia.
    rewrite (nth_zipWith _ _ _ _ [] 0%Z 0)
      by (rewrite ?length_concat_repeat; lia).
    rewrite <- Hl. rewrite nth_concat_repeat by lia. rewrite Hl.
    exists (clip_index n (nth (j * size bs + k) idata 0%Z)).
    split; [apply clip_index_lt; lia|]. split; [reflexivity|].
    intros Hr. unfold clip_index. lia.
Qed.

Lemma sample_with_num_samples_witness :
  exists d r,
    __init__ example_log_probs example_centers = Some d /\
    fst (sample (mkT [2; 1]%nat [2%Z; 0%Z]) (Some 2%nat) d) = Some r /\
    shape r = (2 :: batch_shape d)%nat /\ wf r /\
    nth 0 (data r) 0 = 3 /\ nth 1 (data r) 0 = 1.
Proof.
  destruct (sample_with_num_samples example_log_probs example_centers
              (mkT [2; 1]%nat [2%Z; 0%Z]) [1%nat] 3 2)
    as (d & r & Hd & Hr & Hs & Hw & H); try exact eq_refl; try lia.
  exists d, r. split; [exact Hd|]. split; [exact Hr|].
  split; [exact Hs|]. split; [exact Hw|].
  destruct (H 0%nat 0%nat ltac:(lia) ltac:(simpl; lia))
    as (i & _ & Hv & Hi).
  destruct (H 1%nat 0%nat ltac:(lia) ltac:(simpl; lia))
    as (j & _ & Hv' & Hj).
  cbn [Nat.mul Nat.add size fold_right] in Hv, Hv'.
  split.
  - rewrite Hv, Hi by (simpl; lia). reflexivity.
  - rewrite Hv', Hj by (simpl; lia). reflexivity.
Defined.

(** * Arrays that disagree on the number of bins *)

Lemma bshape_mismatch (bs : list nat) (n m : nat) :
  n <> m -> n <> 1%nat -> m <> 1%nat -> bshape (bs ++ [n]) (bs ++ [m]) = None.
Proof.
  intros Hnm Hn Hm. induction bs as [|b bs IH]; simpl.
  - apply Nat.eqb_neq in Hnm, Hn, Hm. now rewrite Hnm, Hn, Hm.
  - now rewrite IH.
Qed.

Lemma broadcast_mismatch {A B C} (f : A -> B -> C) (t1 : Tensor A)
  (t2 : Tensor B) (bs : list nat) (n m : nat) :
  shape t1 = bs ++ [n] -> shape t2 = bs ++ [m] ->
  n <> m -> n <> 1%nat -> m <> 1%nat -> broadcast f t1 t2 = None.
Proof.
  intros H1 H2 Hnm Hn Hm. unfold broadcast, ndim. rewrite H1, H2.
  rewrite !length_app. cbn [length]. rewrite Nat.max_id.
  rewrite !pad_shape_id by (rewrite length_app; simpl; lia).
  now rewrite bshape_mismatch.
Qed.

(** X19: the constructor does not compare its two arrays: with
    log-probabilities of [n] bins and centers of [m] bins, different
    and neither of them 1, the object is built, and [mean], [stddev]
    and [cdf] raise when called. *)
Theorem mismatched_bins_raise_at_first_use (lp c x : Tensor R)
  (bs : list nat) (n m : nat) :
  shape lp = bs ++ [n] -> wf c -> shape c = bs ++ [m] -> (1 <= m)%nat ->
  wf x -> shape x = bs ->
  n <> m -> n <> 1%nat -> m <> 1%nat ->
  exists d,
    __init__ lp c = Some d /\
    fst (mean d) = None /\ fst (stddev d) = None /\ fst (cdf x d) = None.
Proof.
  intros Hsl Hwc Hsc Hm1 Hwx Hsx Hnm Hn Hm.
  destruct (wf_rows c bs m Hwc Hsc) as [Hc HRc].
  destruct (__init__ lp c) as [d|] eqn:Hd;
    [|rewrite Hc, init_rows in Hd by (assumption || lia); discriminate].
  exists d. split; [reflexivity|].
  pose proof (init_Inv lp c d Hd) as H0.
  assert (E1 : broadcast_mul (exp lp) c = None).
  { apply (broadcast_mismatch _ _ _ bs n m); assumption. }
  assert (E2 : broadcast_mul (exp lp) (square c) = None).
  { apply (broadcast_mismatch _ _ _ bs n m); assumption. }
  split; [|split].
  - destruct (mean_Inv lp c _ d H0) as (s' & -> & _). cbn [fst].
    now rewrite E1.
  - rewrite (stddev_Inv lp c _ d H0). now rewrite E2.
  - rewrite (cdf_Inv lp c _ d x H0).
    destruct x as [sx xs]. unfold wf in Hwx. cbn [shape data] in *. subst sx.
    rewrite expand_dims_last. cbn [obind shape data].
    rewrite Hc at 1. unfold broadcast_lesser_equal.
    rewrite broadcast_rows_col by assumption. cbn [obind].
    unfold broadcast_mul.
    now rewrite (broadcast_mismatch _ _ _ bs n m).
Qed.

Lemma mismatched_bins_raise_at_first_use_witness :
  exists d,
    __init__ (mkT [1; 2]%nat [ln 0.5; ln 0.5]) example_centers = Some d /\
    fst (mean d) = None /\ fst (stddev d) = None /\
    fst (cdf (mkT [1%nat] [2]) d) = None.
Proof.
  apply (mismatched_bins_raise_at_first_use
           (mkT [1; 2]%nat [ln 0.5; ln 0.5]) example_centers
           (mkT [1%nat] [2]) [1%nat] 2 3);
    try exact eq_refl; lia.
Defined.

(** * The network block *)

Lemma Rsum_pos (l : list R) :
  l <> [] -> Forall (fun q => 0 < q) l -> 0 < Rsum l.
Proof.
  intros Hne HF. destruct l as [|a l]; [congruence|].
  inversion HF as [|? ? Ha Hl]; subst.
  assert (H0 : 0 <= Rsum l).
  { apply Rsum_nonneg. revert Hl. apply Forall_impl. intros; lra. }
  unfold Rsum in *. simpl. lra.
Qed.

Lemma Rsum_map_div (l : list R) (s : R) :
  Rsum (map (fun x => x / s) l) = Rsum l / s.
Proof.
  induction l as [|a l IH]; simpl; [unfold Rdiv; ring|].
  fold (Rsum (map (fun x => x / s) l)). rewrite IH.
  unfold Rsum, Rdiv. ring.
Qed.

(** The exponentials of a row of [log_softmax] add up to 1. *)
Lemma log_softmax_row_normalised (r : list R) :
  r <> [] -> Rsum (map Rtrigo_def.exp (log_softmax_row r)) = 1.
Proof.
  intros Hne. unfold log_softmax_row.
  set (S := Rsum (map Rtrigo_def.exp r)).
  assert (HS : 0 < S).
  { apply Rsum_pos; [|apply Forall_exp_pos].
    destruct r; [congruence|discriminate]. }
  rewrite map_map.
  rewrite (map_ext _ (fun x => Rtrigo_def.exp x / S)).
  - rewrite <- (map_map Rtrigo_def.exp (fun y => y / S)).
    rewrite Rsum_map_div. fold S. field. lra.
  - intros x. unfold Rminus. rewrite exp_plus, exp_Ropp, exp_ln by assumption.
    reflexivity.
Qed.

Lemma log_softmax_rows bs n (rows : list (list R)) :
  Rows bs n rows ->
  log_softmax (of_rows bs n rows)
  = Some (of_rows bs n (map log_softmax_row rows)).
Proof.
  intros HR. unfold log_softmax, ndim.
  rewrite rows_of_of_rows by assumption.
  unfold of_rows. cbn [shape data]. rewrite norm_axis_snoc. reflexivity.
Qed.

Lemma Dense_rows bs i n (weight : list (list R)) (bias : list R)
  (rows : list (list R)) :
  Rows bs i rows -> length weight = n -> length bias = n ->
  Forall (fun w => length w = i) weight ->
  Dense n weight bias (of_rows bs i rows)
  = Some (of_rows bs n (map (dense_row weight bias) rows)).
Proof.
  intros HR Hw Hb HF. unfold Dense, ndim.
  rewrite rows_of_of_rows by assumption.
  unfold of_rows. cbn [shape data]. rewrite norm_axis_snoc. cbn [obind].
  rewrite last_last, removelast_last, Hw, Hb, Nat.eqb_refl.
  cbn [andb].
  replace (forallb (fun w => Nat.eqb (length w) i) weight) with true;
    [reflexivity|].
  symmetry. apply forallb_forall. rewrite Forall_forall in HF.
  intros w Hin. apply Nat.eqb_eq. now apply HF.
Qed.

Lemma dense_row_length (weight : list (list R)) (bias r : list R) :
  length bias = length weight ->
  length (dense_row weight bias r) = length weight.
Proof.
  intros H. unfold dense_row. rewrite zipWith_length, length_map. lia.
Qed.

Lemma size_rev (s : list nat) : size (rev s) = size s.
Proof.
  induction s as [|a s IH]; [reflexivity|].
  cbn [rev]. rewrite size_snoc, IH.
  change (size (a :: s)) with (a * size s)%nat. lia.
Qed.

Lemma size_map_Some (l : list nat) :
  fold_right Nat.mul 1%nat
    (map (fun o : option nat => match o with Some d => d | None => 1%nat end)
         (map (@Some nat) l))
  = size l.
Proof. induction l as [|a l IH]; simpl; [reflexivity|]. now rewrite IH. Qed.

(** On an array with at least one batch axis and [n] entries along the
    last one, [reshape(shape=(-2, -1, n), reverse=1)] changes nothing. *)
Lemma reshape_keeps_rows {A} (bs : list nat) (n : nat)
  (rows : list (list A)) :
  (1 <= length bs)%nat -> (1 <= size bs)%nat -> (1 <= n)%nat ->
  reshape (of_rows bs n rows) [(-2)%Z; (-1)%Z; Z.of_nat n] true
  = Some (of_rows bs n rows).
Proof.
  intros Hlen Hsz Hn. unfold reshape, of_rows. cbn [shape data rev app].
  rewrite rev_app_distr. cbn [rev app].
  destruct (rev bs) as [|d rest] eqn:Er.
  { apply (f_equal (@length nat)) in Er. rewrite length_rev in Er.
    simpl in Er. lia. }
  assert (Hbs : bs = rev rest ++ [d]).
  { rewrite <- (rev_involutive bs), Er. reflexivity. }
  assert (Hsize : size bs = (size rest * d)%nat).
  { rewrite Hbs, size_snoc, size_rev. reflexivity. }
  assert (Ht : target_dims [Z.of_nat n; (-1)%Z; (-2)%Z] (n :: d :: rest)
               = Some (Some n :: None :: map (@Some nat) rest)).
  { cbn [target_dims].
    replace (Z.of_nat n =? 0)%Z with false
      by (symmetry; apply Z.eqb_neq; lia).
    replace (Z.of_nat n =? -1)%Z with false
      by (symmetry; apply Z.eqb_neq; lia).
    replace (Z.of_nat n =? -2)%Z with false
      by (symmetry; apply Z.eqb_neq; lia).
    replace (0 <? Z.of_nat n)%Z with true
      by (symmetry; apply Z.ltb_lt; lia).
    cbn [tl Z.eqb Pos.eqb obind]. now rewrite app_nil_r, Nat2Z.id. }
  rewrite Ht. cbn [obind map filter fold_right].
  assert (Hnone : filter (fun o : option nat =>
                            match o with None => true | Some _ => false end)
                         (map (@Some nat) rest) = []).
  { clear. induction rest as [|a rest IH]; simpl; auto. }
  rewrite Hnone. cbn [length Nat.leb andb].
  rewrite size_map_Some. rewrite size_snoc, Hsize.
  assert (Hpos : (1 <= size rest)%nat) by nia.
  replace (size rest * d * n / (n * (1 * size rest)))%nat with d.
  2:{ replace (size rest * d * n)%nat with (d * (n * (1 * size rest)))%nat
        by lia.
      rewrite Nat.div_mul; [reflexivity|nia]. }
  assert (Hout : rev (n :: d :: map (fun o : option nat =>
                                       match o with
                                       | Some d0 => d0
                                       | None => d
                                       end) (map (@Some nat) rest))
                 = bs ++ [n]).
  { rewrite map_map, map_id. cbn [rev]. now rewrite <- Hbs. }
  rewrite Hout, size_snoc, Hsize, Nat.eqb_refl. reflexivity.
Qed.

Lemma centers_plus_zeros (cs : list R) (rows : list (list R)) :
  Forall (fun r => length r = length cs) rows ->
  map (fun r => zipWith Rplus cs r) (map (map (fun _ => 0)) rows)
  = repeat cs (length rows).
Proof.
  induction 1 as [|r rows Hr _ IH]; simpl; [reflexivity|].
  rewrite IH. f_equal. clear - Hr. revert r Hr.
  induction cs as [|c cs IH]; intros [|x r] Hr; simpl in *;
    try discriminate; [reflexivity|].
  rewrite IH by lia. f_equal. lra.
Qed.

(** What [hybrid_forward] returns on an input with at least one batch
    axis. *)
Lemma hybrid_forward_rows (self : BinnedArgs.t) (x : Tensor R)
  (cs : list R) (bs : list nat) (i n : nat) :
  BinnedArgs.num_bins self = n -> (1 <= n)%nat ->
  length (BinnedArgs.weight self) = n ->
  length (BinnedArgs.bias self) = n ->
  Forall (fun w => length w = i) (BinnedArgs.weight self) ->
  length cs = n ->
  wf x -> shape x = bs ++ [i] ->
  (1 <= length bs)%nat -> (1 <= size bs)%nat ->
  BinnedArgs.hybrid_forward self x (mkT [n] cs)
  = Some (of_rows bs n
            (map (fun r => log_softmax_row
                             (dense_row (BinnedArgs.weight self)
                                        (BinnedArgs.bias self) r))
                 (rows_of x)),
          of_rows bs n (repeat cs (size bs))).
Proof.
  intros Hnb Hn Hw Hb HF Hc Hwx Hsx Hlen Hsz.
  destruct (wf_rows x bs i Hwx Hsx) as [Hx HRx].
  unfold BinnedArgs.hybrid_forward, BinnedArgs.proj. rewrite Hnb.
  rewrite Hx at 1. rewrite (Dense_rows bs i n) by assumption.
  cbn [obind].
  assert (HRd : Rows bs n (map (dense_row (BinnedArgs.weight self)
                                          (BinnedArgs.bias self))
                               (rows_of x))).
  { eapply Rows_map; [exact HRx|]. intros r _.
    rewrite dense_row_length; lia. }
  rewrite log_softmax_rows by assumption. cbn [obind].
  rewrite map_map.
  set (prows := map (fun r => log_softmax_row
                                (dense_row (BinnedArgs.weight self)
                                           (BinnedArgs.bias self) r))
                    (rows_of x)).
  assert (HRp : Rows bs n prows).
  { eapply Rows_map; [exact HRx|]. intros r _.
    unfold log_softmax_row. rewrite length_map, dense_row_length; lia. }
  rewrite reshape_keeps_rows by assumption. cbn [obind].
  unfold zeros_like, broadcast_add. rewrite tmap_of_rows.
  rewrite broadcast_vec_rows by (try assumption; now apply Rows_map_map).
  cbn [obind]. do 3 f_equal.
  destruct HRp as [Hl HFp]. rewrite centers_plus_zeros, Hl; [reflexivity|].
  revert HFp. apply Forall_impl. intros; congruence.
Qed.

(** X20: on an input with at least one batch axis, [hybrid_forward]
    returns log-probabilities of the shape of the projection output (the
    batch shape, then [num_bins]) whose exponentials add up to 1 at every
    batch position, and centers of the same shape that repeat the rank-1
    centers at every batch position. *)
Theorem hybrid_forward_normalised_probs_and_repeated_centers
  (self : BinnedArgs.t) (x : Tensor R) (cs : list R) (bs : list nat)
  (i n : nat) :
  BinnedArgs.num_bins self = n -> (1 <= n)%nat ->
  length (BinnedArgs.weight self) = n ->
  length (BinnedArgs.bias self) = n ->
  Forall (fun w => length w = i) (BinnedArgs.weight self) ->
  length cs = n ->
  wf x -> shape x = bs ++ [i] ->
  (1 <= length bs)%nat -> (1 <= size bs)%nat ->
  exists probs centers,
    BinnedArgs.hybrid_forward self x (mkT [n] cs) = Some (probs, centers) /\
    wf probs /\ shape probs = bs ++ [n] /\
    wf centers /\ shape centers = bs ++ [n] /\
    forall k, (k < size bs)%nat ->
      Rsum (map Rtrigo_def.exp (nth k (rows_of probs) [])) = 1 /\
      nth k (rows_of centers) [] = cs.
Proof.
  intros Hnb Hn Hw Hb HF Hc Hwx Hsx Hlen Hsz.
  destruct (wf_rows x bs i Hwx Hsx) as [Hx HRx].
  eexists. eexists.
  split; [apply (hybrid_forward_rows self x cs bs i n); assumption|].
  set (prows := map _ (rows_of x)).
  assert (HRp : Rows bs n prows).
  { eapply Rows_map; [exact HRx|]. intros r _.
    unfold log_softmax_row. rewrite length_map, dense_row_length; lia. }
  pose proof (Rows_repeat bs n cs Hc) as HRc.
  split; [now apply of_rows_wf|]. split; [reflexivity|].
  split; [now apply of_rows_wf|]. split; [reflexivity|].
  intros k Hk. rewrite !rows_of_of_rows by assumption.
  split.
  - unfold prows. destruct HRx as [Hl _].
    rewrite (nth_map' _ _ _ []) by lia.
    apply log_softmax_row_normalised.
    intros E. apply (f_equal (@length R)) in E.
    rewrite dense_row_length in E by lia. simpl in E. lia.
  - now apply nth_repeat_lt.
Qed.

Lemma hybrid_forward_normalised_probs_and_repeated_centers_witness :
  exists probs centers,
    BinnedArgs.hybrid_forward
      (BinnedArgs.mk 2 (mkT [2%nat] [1; 2]) [[1]; [0]] [0; 0])
      (mkT [1; 1]%nat [3]) (mkT [2%nat] [1; 2]) = Some (probs, centers) /\
    wf probs /\ shape probs = [1%nat] ++ [2%nat] /\
    wf centers /\ shape centers = [1%nat] ++ [2%nat] /\
    forall k, (k < size [1%nat])%nat ->
      Rsum (map Rtrigo_def.exp (nth k (rows_of probs) [])) = 1 /\
      nth k (rows_of centers) [] = [1; 2].
Proof.
  apply (hybrid_forward_normalised_probs_and_repeated_centers
           (BinnedArgs.mk 2 (mkT [2%nat] [1; 2]) [[1]; [0]] [0; 0])
           (mkT [1; 1]%nat [3]) [1; 2] [1%nat] 1 2);
    try exact eq_refl; try (simpl; lia).
  repeat constructor.
Defined.

(** X21: from rank-1 centers to the distribution: [BinnedOutput] built on
    the centers, its projection block run on an input with at least one
    batch axis, and [distribution] applied to what the block returns,
    give a distribution whose bin probabilities add up to 1 at every
    batch position and whose mean there is the scale times the
    probability weighted sum of the rank-1 centers, plus the location. *)
Theorem output_pipeline_builds_a_normalised_distribution
  (centers x : Tensor R) (cs : list R) (weight : list (list R))
  (bias : list R) (loc scale : option (Tensor R)) (bs : list nat)
  (i n : nat) :
  centers = mkT [n] cs -> length cs = n -> (2 <= n)%nat ->
  length weight = n -> length bias = n ->
  Forall (fun w => length w = i) weight ->
  wf x -> shape x = bs ++ [i] -> (1 <= length bs)%nat ->
  (1 <= size bs)%nat -> opt_ok bs loc -> opt_ok bs scale ->
  exists out args d m,
    BinnedOutput.__init__ centers = Some out /\
    BinnedOutput.num_bins out = n /\
    BinnedArgs.hybrid_forward
      (BinnedOutput.get_args_proj out weight bias) x
      (BinnedArgs.bin_centers (BinnedOutput.get_args_proj out weight bias))
    = Some args /\
    distribution args loc scale = Some d /\
    fst (mean d) = Some m /\
    forall k, (k < size bs)%nat ->
      let p := map Rtrigo_def.exp (nth k (rows_of (fst args)) []) in
      let a := match opt_at k scale with Some a => a | None => 1 end in
      let l := match opt_at k loc with Some l => l | None => 0 end in
      Rsum p = 1 /\
      nth k (data m) 0 = a * mean_row p cs + l.
Proof.
  intros Hcen Hc Hn Hw Hb HF Hwx Hsx Hlen Hsz Hloc Hscale. subst centers.
  exists (BinnedOutput.mk (mkT [n] cs) n).
  pose proof (hybrid_forward_rows
                (BinnedOutput.get_args_proj
                   (BinnedOutput.mk (mkT [n] cs) n) weight bias)
                x cs bs i n eq_refl ltac:(lia) Hw Hb HF Hc Hwx Hsx Hlen Hsz)
    as Hf.
  cbn [BinnedOutput.get_args_proj BinnedArgs.weight BinnedArgs.bias
       BinnedOutput.num_bins BinnedOutput.bin_centers] in Hf.
  set (prows := map (fun r => log_softmax_row (dense_row weight bias r))
                    (rows_of x)) in *.
  destruct (wf_rows x bs i Hwx Hsx) as [_ HRx].
  assert (HRp : Rows bs n prows).
  { eapply Rows_map; [exact HRx|]. intros r _.
    unfold log_softmax_row. rewrite length_map, dense_row_length; lia. }
  destruct (distribution_moments (of_rows bs n prows)
              (of_rows bs n (repeat cs (size bs))) cs loc scale bs n)
    as (d0 & d & m0 & m & s0 & s & _ & Hd & _ & Hm & _ & _ & He);
    try assumption; try reflexivity; try (now apply of_rows_wf);
    try (now right).
  eexists. exists d, m.
  split; [reflexivity|]. split; [reflexivity|].
  split; [exact Hf|]. repeat (split; [assumption|]).
  intros k Hk. cbv zeta. cbn [fst].
  destruct (He k Hk) as (Hl & _ & M & _). cbv zeta in Hl, M.
  rewrite rows_of_of_rows in * by assumption.
  set (p := map Rtrigo_def.exp (nth k prows [])) in *.
  assert (Hmass : Rsum p = 1).
  { unfold p, prows. destruct HRx as [Hlx _].
    rewrite (nth_map' _ _ _ []) by lia.
    apply log_softmax_row_normalised.
    intros E. apply (f_equal (@length R)) in E.
    rewrite dense_row_length in E by lia. simpl in E. lia. }
  split; [assumption|].
  rewrite M, mean_row_affine, Hmass by assumption. lra.
Qed.

Lemma output_pipeline_builds_a_normalised_distribution_witness :
  exists out args d m,
    BinnedOutput.__init__ (mkT [2%nat] [1; 2]) = Some out /\
    BinnedOutput.num_bins out = 2%nat /\
    BinnedArgs.hybrid_forward
      (BinnedOutput.get_args_proj out [[1]; [0]] [0; 0]) (mkT [1; 1]%nat [3])
      (BinnedArgs.bin_centers
         (BinnedOutput.get_args_proj out [[1]; [0]] [0; 0]))
    = Some args /\
    distribution args (Some (mkT [1%nat] [10])) (Some (mkT [1%nat] [2]))
    = Some d /\
    fst (mean d) = Some m /\
    forall k, (k < size [1%nat])%nat ->
      let p := map Rtrigo_def.exp (nth k (rows_of (fst args)) []) in
      let a := match opt_at k (Some (mkT [1%nat] [2])) with
               | Some a => a | None => 1 end in
      let l := match opt_at k (Some (mkT [1%nat] [10])) with
               | Some l => l | None => 0 end in
      Rsum p = 1 /\
      nth k (data m) 0 = a * mean_row p [1; 2] + l.
Proof.
  apply (output_pipeline_builds_a_normalised_distribution
           (mkT [2%nat] [1; 2]) (mkT [1; 1]%nat [3]) [1; 2]
           [[1]; [0]] [0; 0]
           (Some (mkT [1%nat] [10])) (Some (mkT [1%nat] [2]))
           [1%nat] 1 2);
    try exact eq_refl; try (simpl; lia).
  - repeat constructor.
  - split; exact eq_refl.
  - split; exact eq_refl.
Defined.
